(** * Request governance of the Moltbook monitor

    A shallow embedding of the request-governance code of
    [openclaw-moltbook/src/monitor]: the deduplication tracker
    ([deduplication.py]), the sliding-window rate limiter
    ([rate_limiter.py]), the backoff handler ([backoff.py]), the
    robots.txt rule matcher ([robots.py]) and the adaptive polling
    interval ([scheduler.py]).

    Conventions of the embedding.
    - A Python [dict] is a [gmap]; [dict.get(k, d)] is [default d (m !! k)].
    - A [datetime] is the number of microseconds since the epoch and a
      [timedelta] a number of microseconds, both in [Z]: this is the
      resolution Python keeps them at.
    - A Python [float] is an exact rational in [Q]: rounding is not modelled,
      and a statement that depends on the range in which the exact value
      and the float agree says so.
    - An exception of the library that ends a call ([OverflowError],
      [ValueError], [ZeroDivisionError], [KeyError]) is [None] or a flag in
      the result of the functions that model it.
    - Every read of the clock ([datetime.now], [time.time]) and every draw of
      [random.uniform] is an explicit argument of the function that makes it.
    - A method that mutates [self] returns the new state next to its result. *)

From stdpp Require Import gmap strings list sorting.
From Stdlib Require Import Ascii ZArith QArith Qabs Qminmax Qround Qpower Lqa
  Lia.

Open Scope Z_scope.

(** ** deduplication.py *)

Module Dedup.

(** [SeenPost]: the record of a previously seen post. *)
Record SeenPost := mkSeenPost {
  post_id : string;
  content_hash : string;
  first_seen_at : Z;
  last_seen_at : Z;
  seen_count : Z
}.

(** [DeduplicationTracker]: [by_id] maps post ids to records, [by_hash] maps
    content hashes to post ids. *)
Record DeduplicationTracker := mkTracker {
  ttl : Z;
  by_id : gmap string SeenPost;
  by_hash : gmap string string
}.

(** [DeduplicationTracker(ttl=...)]: both indexes start empty. *)
Definition new_tracker (ttl0 : Z) : DeduplicationTracker :=
  {| ttl := ttl0; by_id := ∅; by_hash := ∅ |}.

(** Truth value of a Python [str]: the empty string is false. *)
Definition truthy (s : string) : bool :=
  match s with EmptyString => false | _ => true end.

Definition has_id (t : DeduplicationTracker) (pid : string) : bool :=
  bool_decide (is_Some (by_id t !! pid)).

Definition has_hash (t : DeduplicationTracker) (h : string) : bool :=
  bool_decide (is_Some (by_hash t !! h)).

(** [is_duplicate(post_id, content_hash=None)]. *)
Definition is_duplicate (t : DeduplicationTracker) (pid : string)
    (h : option string) : bool :=
  if has_id t pid then true
  else match h with
       | Some h' => truthy h' && has_hash t h'
       | None => false
       end.

(** [mark_seen(post_id, content_hash)], with [now] the clock reading. The
    record of a known id is updated in place; the hash index is written only
    when the record is created. *)
Definition mark_seen (t : DeduplicationTracker) (pid h : string) (now : Z)
    : SeenPost * DeduplicationTracker :=
  match by_id t !! pid with
  | Some record =>
      let record' := {| post_id := post_id record;
                        content_hash := content_hash record;
                        first_seen_at := first_seen_at record;
                        last_seen_at := now;
                        seen_count := seen_count record + 1 |} in
      (record', {| ttl := ttl t;
                   by_id := <[pid := record']> (by_id t);
                   by_hash := by_hash t |})
  | None =>
      let record := {| post_id := pid; content_hash := h;
                       first_seen_at := now; last_seen_at := now;
                       seen_count := 1 |} in
      (record, {| ttl := ttl t;
                  by_id := <[pid := record]> (by_id t);
                  by_hash := <[h := pid]> (by_hash t) |})
  end.

Definition get_by_id (t : DeduplicationTracker) (pid : string)
    : option SeenPost :=
  by_id t !! pid.

(** [get_by_hash]: the guard [if post_id:] also rejects the empty id. *)
Definition get_by_hash (t : DeduplicationTracker) (h : string)
    : option SeenPost :=
  match by_hash t !! h with
  | Some pid => if truthy pid then by_id t !! pid else None
  | None => None
  end.

(** The first loop of [cleanup_expired]: the ids whose record was last seen
    before the cutoff. They come in the order of [map_to_list], which need
    not be the insertion order a Python [dict] walks in; the second loop
    gives the same result for every order. *)
Definition expired_ids (t : DeduplicationTracker) (now : Z) : list string :=
  let cutoff := now - ttl t in
  (filter (λ kr : string * SeenPost, last_seen_at kr.2 < cutoff)
          (map_to_list (by_id t))).*1.

(** One turn of the second loop: [by_id.pop(post_id)] raises [KeyError]
    ([None]) on a missing id, [by_hash.pop(hash, None)] does not. *)
Definition pop_record (t : DeduplicationTracker) (pid : string)
    : option DeduplicationTracker :=
  match by_id t !! pid with
  | Some record =>
      Some {| ttl := ttl t;
              by_id := delete pid (by_id t);
              by_hash := delete (content_hash record) (by_hash t) |}
  | None => None
  end.

Fixpoint remove_expired (ids : list string) (t : DeduplicationTracker)
    (removed : Z) : option (Z * DeduplicationTracker) :=
  match ids with
  | [] => Some (removed, t)
  | pid :: rest =>
      match pop_record t pid with
      | Some t' => remove_expired rest t' (removed + 1)
      | None => None
      end
  end.

(** [cleanup_expired()]: the number of records removed and the new state,
    for a cutoff [now - ttl] that is a datetime. Where it is not, the
    subtraction raises before anything is changed: see
    [DedupFilter.cleanup_expired_or_raise]. *)
Definition cleanup_expired (t : DeduplicationTracker) (now : Z)
    : option (Z * DeduplicationTracker) :=
  remove_expired (expired_ids t now) t 0.

(** The operations a caller can run on a tracker, each with the clock
    reading it takes. *)
Inductive op :=
| MarkSeen (pid h : string) (now : Z)
| CleanupExpired (now : Z).

Definition step (t : DeduplicationTracker) (o : op)
    : option DeduplicationTracker :=
  match o with
  | MarkSeen pid h now => Some (mark_seen t pid h now).2
  | CleanupExpired now => snd <$> cleanup_expired t now
  end.

Fixpoint run (ops : list op) (t : DeduplicationTracker)
    : option DeduplicationTracker :=
  match ops with
  | [] => Some t
  | o :: rest =>
      match step t o with
      | Some t' => run rest t'
      | None => None
      end
  end.

(** Every entry of the hash index names an id of the id index whose record
    stores that hash. *)
Definition hash_index_sound (t : DeduplicationTracker) : Prop :=
  ∀ h pid, by_hash t !! h = Some pid →
    ∃ record, by_id t !! pid = Some record ∧ content_hash record = h.

(** Every record of the id index is found again under its stored hash. *)
Definition id_index_covered (t : DeduplicationTracker) : Prop :=
  ∀ pid record, by_id t !! pid = Some record →
    by_hash t !! content_hash record = Some pid.

(** Records are filed under their own id. *)
Definition keyed_by_id (t : DeduplicationTracker) : Prop :=
  ∀ pid record, by_id t !! pid = Some record → post_id record = pid.

(** No two marks of the trace give one hash to two different ids. *)
Definition hash_names_one_id (ops : list op) : Prop :=
  ∀ p1 p2 h n1 n2,
    MarkSeen p1 h n1 ∈ ops → MarkSeen p2 h n2 ∈ ops → p1 = p2.

(** The (hash, id) pairs the trace marks, and the same condition as a test
    that can be run on a trace. *)
Definition marks (ops : list op) : list (string * string) :=
  omap (λ o, match o with
             | MarkSeen pid h _ => Some (h, pid)
             | CleanupExpired _ => None
             end) ops.

Definition one_id_per_hash (ops : list op) : bool :=
  bool_decide
    (Forall (λ m1 : string * string,
               Forall (λ m2 : string * string, m1.1 = m2.1 → m1.2 = m2.2)
                      (marks ops))
            (marks ops)).

(** What every reachable tracker satisfies: records sit under their own id
    and the hash index only points at records that carry the hash. *)
Record consistent (t : DeduplicationTracker) : Prop := mkConsistent {
  consistent_keyed : keyed_by_id t;
  consistent_sound : hash_index_sound t
}.

(** With [R pid h] read as "the trace marks [pid] with [h]": every record
    carries a hash its id was marked with, and is found under it. *)
Record covered (R : string → string → Prop) (t : DeduplicationTracker)
    : Prop := mkCovered {
  covered_marked :
    ∀ pid record, by_id t !! pid = Some record → R pid (content_hash record);
  covered_index : id_index_covered t
}.

End Dedup.

(** ** Python numbers *)

Module Py.

(** [x < y] and [x <= y] on floats, as booleans. *)
Definition Qltb (x y : Q) : bool :=
  match (x ?= y)%Q with Lt => true | _ => false end.

Definition Qleb (x y : Q) : bool :=
  match (x ?= y)%Q with Gt => false | _ => true end.

(** [int(x)] on a float: truncation towards zero. *)
Definition int (x : Q) : Z := Z.quot (Qnum x) (Z.pos (Qden x)).

(** [_divide_and_round(a, b)] of [datetime.py], for [b > 0]: the nearest
    integer to [a / b], a tie going to the even one. *)
Definition divide_and_round (a b : Z) : Z :=
  let q := a / b in
  let r := 2 * (a mod b) in
  if (b <? r) || ((r =? b) && Z.odd q) then q + 1 else q.

(** [timedelta * float]: [float.as_integer_ratio] gives the reduced fraction,
    the product is rounded to a whole number of microseconds. *)
Definition timedelta_mul_float (td : Z) (f : Q) : Z :=
  let r := Qred f in
  divide_and_round (td * Qnum r) (Z.pos (Qden r)).

(** [timedelta(seconds=x)] for a float [x], in microseconds. *)
Definition timedelta_of_seconds (x : Q) : Z :=
  let r := Qred (x * 1000000) in
  divide_and_round (Qnum r) (Z.pos (Qden r)).

(** [timedelta.total_seconds()]. *)
Definition total_seconds (td : Z) : Q := td # 1000000.

End Py.

(** ** rate_limiter.py *)

Module RateLimit.

Inductive RequestBudget := NEW_POSTS | TRENDING | COMMENTS | AGENTS | RESERVE.

#[global] Instance RequestBudget_eq_dec : EqDecision RequestBudget.
Proof. solve_decision. Defined.

#[global] Instance RequestBudget_countable : Countable RequestBudget.
Proof.
  refine (inj_countable'
    (λ b, match b with
          | NEW_POSTS => 0%nat | TRENDING => 1%nat | COMMENTS => 2%nat
          | AGENTS => 3%nat | RESERVE => 4%nat
          end)
    (λ n, match n with
          | 0%nat => NEW_POSTS | 1%nat => TRENDING | 2%nat => COMMENTS
          | 3%nat => AGENTS | _ => RESERVE
          end) _).
  by intros [].
Defined.

(** [BUDGET_ALLOCATION]: a constant dict with every category as key, read
    here as a function. *)
Definition BUDGET_ALLOCATION (b : RequestBudget) : Q :=
  match b with
  | NEW_POSTS => 40 # 100
  | TRENDING => 20 # 100
  | COMMENTS => 20 # 100
  | AGENTS => 10 # 100
  | RESERVE => 10 # 100
  end.

Record RateLimitConfig := mkRateLimitConfig {
  requests_per_minute : Z;
  requests_per_hour : Z;
  requests_per_day : Z;
  warning_threshold : Q;
  minute_window : Z;
  hour_window : Z;
  day_window : Z
}.

Definition default_limit_config : RateLimitConfig :=
  {| requests_per_minute := 100; requests_per_hour := 5000;
     requests_per_day := 50000; warning_threshold := 80 # 100;
     minute_window := 60; hour_window := 3600; day_window := 86400 |}.

(** [RateLimitState]: what the API headers last reported. [reset_at] and
    [last_updated] are datetimes. *)
Record RateLimitState := mkApiState {
  limit : option Z;
  remaining : option Z;
  reset_at : option Z;
  last_updated : option Z
}.

(** [RateLimiter]. The deques hold [time.time()] readings, oldest first. *)
Record RateLimiter := mkLimiter {
  config : RateLimitConfig;
  minute_requests : list Q;
  hour_requests : list Q;
  day_requests : list Q;
  api_state : RateLimitState;
  budget_usage : gmap RequestBudget Z
}.

(** [RateLimiter(config=cfg)] after [__post_init__]. *)
Definition new_limiter (cfg : RateLimitConfig) : RateLimiter :=
  {| config := cfg;
     minute_requests := []; hour_requests := []; day_requests := [];
     api_state := {| limit := None; remaining := None; reset_at := None;
                     last_updated := None |};
     budget_usage :=
       list_to_map [(NEW_POSTS, 0); (TRENDING, 0); (COMMENTS, 0);
                    (AGENTS, 0); (RESERVE, 0)] |}.

(** [while d and d[0] < cutoff: d.popleft()]. *)
Fixpoint popleft_older (cutoff : Q) (d : list Q) : list Q :=
  match d with
  | [] => []
  | t :: rest => if Py.Qltb t cutoff then popleft_older cutoff rest else d
  end.

Definition _cleanup_old_requests (s : RateLimiter) (now : Q) : RateLimiter :=
  let cfg := config s in
  {| config := cfg;
     minute_requests :=
       popleft_older (now - inject_Z (minute_window cfg)) (minute_requests s);
     hour_requests :=
       popleft_older (now - inject_Z (hour_window cfg)) (hour_requests s);
     day_requests :=
       popleft_older (now - inject_Z (day_window cfg)) (day_requests s);
     api_state := api_state s;
     budget_usage := budget_usage s |}.

Definition _get_counts (s : RateLimiter) (now : Q)
    : (Z * Z * Z) * RateLimiter :=
  let s' := _cleanup_old_requests s now in
  ((Z.of_nat (length (minute_requests s')),
    Z.of_nat (length (hour_requests s')),
    Z.of_nat (length (day_requests s'))), s').

(** The upstream test of [can_request]: remaining is reported, is at most 0,
    and the reset lies after the reading [now_utc] of [datetime.now(UTC)]. *)
Definition api_blocks (a : RateLimitState) (now_utc : Z) : bool :=
  match remaining a, reset_at a with
  | Some r, Some reset => (r <=? 0) && (now_utc <? reset)
  | _, _ => false
  end.

(** The budget test of [can_request] for a given category: [true] when the
    category is spent and the reserve has nothing left. *)
Definition budget_blocks (s : RateLimiter) (budget : RequestBudget) : bool :=
  let rpm := requests_per_minute (config s) in
  let allocation := BUDGET_ALLOCATION budget in
  let max_for_budget := Py.int (inject_Z rpm * allocation) in
  if max_for_budget <=? default 0 (budget_usage s !! budget) then
    let reserve_remaining :=
      Py.int (inject_Z rpm * BUDGET_ALLOCATION RESERVE)
      - default 0 (budget_usage s !! RESERVE) in
    reserve_remaining <=? 0
  else false.

(** [can_request(budget=None)]: [now] is the reading of [time.time()],
    [now_utc] that of [datetime.now(UTC)]. *)
Definition can_request (s : RateLimiter) (now : Q) (now_utc : Z)
    (budget : option RequestBudget) : bool * RateLimiter :=
  let '((minute_count, hour_count, day_count), s') := _get_counts s now in
  let cfg := config s' in
  if requests_per_minute cfg <=? minute_count then (false, s')
  else if requests_per_hour cfg <=? hour_count then (false, s')
  else if requests_per_day cfg <=? day_count then (false, s')
  else if api_blocks (api_state s') now_utc then (false, s')
  else match budget with
       | Some b => if budget_blocks s' b then (false, s') else (true, s')
       | None => (true, s')
       end.

(** [record_request(budget=RESERVE)]. *)
Definition record_request (s : RateLimiter) (now : Q)
    (budget : RequestBudget) : RateLimiter :=
  {| config := config s;
     minute_requests := minute_requests s ++ [now];
     hour_requests := hour_requests s ++ [now];
     day_requests := day_requests s ++ [now];
     api_state := api_state s;
     budget_usage :=
       <[budget := default 0 (budget_usage s !! budget) + 1]>
         (budget_usage s) |}.

(** One of the three window blocks of [wait_time]: when the window is full,
    the time until its oldest timestamp leaves it, if that is positive.
    [None] stands for falling through to the next block. *)
Definition window_wait (count limit_ : Z) (requests : list Q) (window : Z)
    (now : Q) : option Q :=
  if limit_ <=? count then
    let oldest := hd now requests in
    let wait := (oldest + inject_Z window - now)%Q in
    if Py.Qltb 0 wait then Some wait else None
  else None.

(** The last block of [wait_time]: the time until the reported reset. *)
Definition api_wait (a : RateLimitState) (now_utc : Z) : option Q :=
  match remaining a, reset_at a with
  | Some r, Some reset =>
      if r <=? 0 then
        let reset_wait := Py.total_seconds (reset - now_utc) in
        if Py.Qltb 0 reset_wait then Some reset_wait else None
      else None
  | _, _ => None
  end.

(** [wait_time()]. *)
Definition wait_time (s : RateLimiter) (now : Q) (now_utc : Z)
    : Q * RateLimiter :=
  let '((minute_count, hour_count, day_count), s') := _get_counts s now in
  let cfg := config s' in
  match window_wait minute_count (requests_per_minute cfg)
                    (minute_requests s') (minute_window cfg) now with
  | Some wait => (wait, s')
  | None =>
  match window_wait hour_count (requests_per_hour cfg)
                    (hour_requests s') (hour_window cfg) now with
  | Some wait => (wait, s')
  | None =>
  match window_wait day_count (requests_per_day cfg)
                    (day_requests s') (day_window cfg) now with
  | Some wait => (wait, s')
  | None =>
  match api_wait (api_state s') now_utc with
  | Some reset_wait => (reset_wait, s')
  | None => (0%Q, s')
  end end end end.

(** [record_request] called once per entry of [calls], in order. *)
Definition record_requests (s : RateLimiter)
    (calls : list (Q * RequestBudget)) : RateLimiter :=
  foldl (λ s' c, record_request s' c.1 c.2) s calls.

(** A window of the limiter as [wait_time] looks at it: its timestamps, its
    limit and its length in seconds. *)
Definition window : Type := list Q * Z * Z.

Definition windows (s : RateLimiter) : list window :=
  let cfg := config s in
  [(minute_requests s, requests_per_minute cfg, minute_window cfg);
   (hour_requests s, requests_per_hour cfg, hour_window cfg);
   (day_requests s, requests_per_day cfg, day_window cfg)].

(** A window is saturated when it holds at least as many timestamps as its
    limit. *)
Definition saturated (w : window) : bool :=
  let '(requests, limit_, _) := w in limit_ <=? Z.of_nat (length requests).

(** The delay after which the oldest timestamp of a window leaves it. *)
Definition exit_delay (now : Q) (w : window) : Q :=
  let '(requests, _, size) := w in (hd now requests + inject_Z size - now)%Q.

(** A window blocks when it is saturated and its oldest timestamp has yet to
    leave it. *)
Definition blocking (now : Q) (w : window) : bool :=
  saturated w && Py.Qltb 0 (exit_delay now w).

(** The delay until the reported reset, when the reported remaining budget
    is used up. *)
Definition reset_delay (a : RateLimitState) (now_utc : Z) : option Q :=
  match remaining a, reset_at a with
  | Some r, Some reset =>
      if r <=? 0 then Some (Py.total_seconds (reset - now_utc)) else None
  | _, _ => None
  end.

(** [wait_time] in closed form on a limiter whose windows were cleaned up,
    in the order of its tests: the exit delay of the first blocking window
    among minute, hour, day; without one, the delay until the upstream
    reset when that is ahead; and zero otherwise. What the specification
    asks for is [RateLimitSpec.binding_wait]. *)
Definition first_blocking_delay (s : RateLimiter) (now : Q) (now_utc : Z)
    : Q :=
  match List.find (blocking now) (windows s) with
  | Some w => exit_delay now w
  | None =>
      match reset_delay (api_state s) now_utc with
      | Some d => if Py.Qltb 0 d then d else 0%Q
      | None => 0%Q
      end
  end.

End RateLimit.

(** ** backoff.py *)

Module Backoff.

Inductive ErrorType :=
| RATE_LIMITED | SERVER_ERROR | CLIENT_ERROR | TIMEOUT | CONNECTION | UNKNOWN.

#[global] Instance ErrorType_eq_dec : EqDecision ErrorType.
Proof. solve_decision. Defined.

Record BackoffConfig := mkBackoffConfig {
  base_delay : Q;
  max_exponent : Z;
  max_delay : Q;
  jitter_min : Q;
  jitter_max : Q;
  timeout_multiplier : Q
}.

Definition default_backoff_config : BackoffConfig :=
  {| base_delay := 1; max_exponent := 8; max_delay := 300;
     jitter_min := 8 # 10; jitter_max := 12 # 10;
     timeout_multiplier := 2 |}.

Record BackoffState := mkState {
  error_count : Z;
  last_error_at : option Z;
  last_error_type : option ErrorType;
  retry_after : option Z;
  consecutive_successes : Z
}.

(** [BackoffState()]. *)
Definition new_state : BackoffState :=
  {| error_count := 0; last_error_at := None; last_error_type := None;
     retry_after := None; consecutive_successes := 0 |}.

Module State.

(** [BackoffState.record_error]: [now1] and [now2] are its two readings of
    the clock. This is the method for a retry-after whose time is a
    datetime; the [OverflowError] of the addition for one that is not is
    in [BackoffMore.state_record_error_or_raise]. *)
Definition record_error (s : BackoffState) (error_type : ErrorType)
    (retry_after_seconds : option Q) (now1 now2 : Z) : BackoffState :=
  {| error_count := error_count s + 1;
     last_error_at := Some now1;
     last_error_type := Some error_type;
     retry_after :=
       match retry_after_seconds with
       | Some secs => Some (now2 + Py.timedelta_of_seconds secs)
       | None => None
       end;
     consecutive_successes := 0 |}.

(** [BackoffState.record_success]. *)
Definition record_success (s : BackoffState) : BackoffState :=
  let successes := consecutive_successes s + 1 in
  if 3 <=? successes then
    {| error_count := 0;
       last_error_at := last_error_at s;
       last_error_type := None;
       retry_after := None;
       consecutive_successes := successes |}
  else
    {| error_count := error_count s;
       last_error_at := last_error_at s;
       last_error_type := last_error_type s;
       retry_after := retry_after s;
       consecutive_successes := successes |}.

(** [BackoffState.reset]. *)
Definition reset (s : BackoffState) : BackoffState := new_state.

End State.

Record BackoffHandler := mkHandler {
  config : BackoffConfig;
  endpoint_states : gmap string BackoffState
}.

(** [BackoffHandler(config=cfg)]. *)
Definition new_handler (cfg : BackoffConfig) : BackoffHandler :=
  {| config := cfg; endpoint_states := ∅ |}.

(** [_get_state]: the state of the endpoint, created when missing. *)
Definition _get_state (h : BackoffHandler) (endpoint : string)
    : BackoffState * BackoffHandler :=
  match endpoint_states h !! endpoint with
  | Some s => (s, h)
  | None =>
      (new_state,
       {| config := config h;
          endpoint_states := <[endpoint := new_state]> (endpoint_states h) |})
  end.

(** Writing back the state object of an endpoint after it was mutated. *)
Definition set_state (h : BackoffHandler) (endpoint : string)
    (s : BackoffState) : BackoffHandler :=
  {| config := config h;
     endpoint_states := <[endpoint := s]> (endpoint_states h) |}.

(** [_apply_jitter]: [jitter] is the value drawn by [random.uniform]. *)
Definition _apply_jitter (delay jitter : Q) : Q := (delay * jitter)%Q.

(** The delay of [calculate_delay] before jitter: linear in the error count
    for a timeout, exponential otherwise. The exact power and product stand
    for the floats of the code, which exist for an exponent below 1024 and
    an error count below [2 ** 1024]; beyond, the code raises
    [OverflowError] and returns no delay. *)
Definition base_backoff (cfg : BackoffConfig) (s : BackoffState)
    (error_type : ErrorType) : Q :=
  match error_type with
  | TIMEOUT =>
      (base_delay cfg * timeout_multiplier cfg * inject_Z (error_count s))%Q
  | _ =>
      let exponent := Z.min (error_count s) (max_exponent cfg) in
      (base_delay cfg * Qpower 2 exponent)%Q
  end.

(** The test [retry_after_seconds is not None and retry_after_seconds > 0]:
    the value when it passes. *)
Definition positive_retry_after (retry_after_seconds : option Q) : option Q :=
  match retry_after_seconds with
  | Some secs => if Py.Qltb 0 secs then Some secs else None
  | None => None
  end.

(** [calculate_delay(endpoint, error_type, retry_after_seconds=None)]. *)
Definition calculate_delay (h : BackoffHandler) (endpoint : string)
    (error_type : ErrorType) (retry_after_seconds : option Q) (jitter : Q)
    : Q * BackoffHandler :=
  let '(state, h') := _get_state h endpoint in
  let cfg := config h' in
  if decide (error_type = CLIENT_ERROR) then (0%Q, h')
  else
    match positive_retry_after retry_after_seconds with
    | Some secs => (Qmin secs (max_delay cfg), h')
    | None =>
        let delay := base_backoff cfg state error_type in
        let delay := _apply_jitter delay jitter in
        (Qmin delay (max_delay cfg), h')
    end.

(** [BackoffHandler.record_error]: returns the delay. *)
Definition record_error (h : BackoffHandler) (endpoint : string)
    (error_type : ErrorType) (retry_after_seconds : option Q)
    (now1 now2 : Z) (jitter : Q) : Q * BackoffHandler :=
  let '(state, h1) := _get_state h endpoint in
  let h2 :=
    set_state h1 endpoint
      (State.record_error state error_type retry_after_seconds now1 now2) in
  calculate_delay h2 endpoint error_type retry_after_seconds jitter.

(** [BackoffHandler.record_success]. *)
Definition record_success (h : BackoffHandler) (endpoint : string)
    : BackoffHandler :=
  let '(state, h1) := _get_state h endpoint in
  set_state h1 endpoint (State.record_success state).

(** [should_retry(endpoint, error_type)]. *)
Definition should_retry (h : BackoffHandler) (endpoint : string)
    (error_type : ErrorType) : bool * BackoffHandler :=
  if decide (error_type = CLIENT_ERROR) then (false, h)
  else
    let '(state, h') := _get_state h endpoint in
    if max_exponent (config h') <=? error_count state then (false, h')
    else (true, h').

(** [classify_http_error(status_code)]. *)
Definition classify_http_error (status_code : Z) : ErrorType :=
  if status_code =? 429 then RATE_LIMITED
  else if (400 <=? status_code) && (status_code <? 500) then CLIENT_ERROR
  else if (500 <=? status_code) && (status_code <? 600) then SERVER_ERROR
  else UNKNOWN.

(** The calls that change a [BackoffState]. *)
Inductive state_op :=
| RecordError (error_type : ErrorType) (retry_after_seconds : option Q)
              (now1 now2 : Z)
| RecordSuccess
| Reset.

Definition run_state_op (s : BackoffState) (o : state_op) : BackoffState :=
  match o with
  | RecordError error_type retry_after_seconds now1 now2 =>
      State.record_error s error_type retry_after_seconds now1 now2
  | RecordSuccess => State.record_success s
  | Reset => State.reset s
  end.

Definition run_state_ops (s : BackoffState) (ops : list state_op)
    : BackoffState :=
  foldl run_state_op s ops.

(** One call of [record_error] as data: retry-after, the two clock readings
    and the jitter drawn. *)
Definition error_call : Type := option Q * Z * Z * Q.

(** [record_error(endpoint, error_type, ...)] once per entry of [calls]. *)
Definition record_errors (h : BackoffHandler) (endpoint : string)
    (error_type : ErrorType) (calls : list error_call) : BackoffHandler :=
  foldl (λ h' c,
           let '(retry_after_seconds, now1, now2, jitter) := c in
           (record_error h' endpoint error_type retry_after_seconds
                         now1 now2 jitter).2)
        h calls.

End Backoff.

(** ** robots.py *)

Module Robots.

(** The regular expressions [RobotsRule.matches] builds have three kinds of
    pieces: a character matched literally (what [re.escape] makes of every
    character of the rule path), the wildcard [.*], and the anchors [^] in
    front and [$] at the end. They are kept here as a list of atoms between
    two flags instead of as the string that spells them. *)
Inductive atom :=
| Lit (c : ascii)
| AnyStar.

Record regex := mkRegex {
  anchor_start : bool;
  atoms : list atom;
  anchor_end : bool
}.

Definition newline : ascii := Ascii.ascii_of_nat 10.
Definition star : ascii := Ascii.ascii_of_nat 42.
Definition dollar : ascii := Ascii.ascii_of_nat 36.

(** [re.escape(pattern)]: every character stands for itself. *)
Definition re_escape (pattern : string) : list atom :=
  Lit <$> String.list_ascii_of_string pattern.

(** [pattern.replace(r"\*", ".*")]: an escaped star becomes the wildcard. *)
Definition replace_star (pattern : list atom) : list atom :=
  (λ a, match a with
        | Lit c => if decide (c = star) then AnyStar else Lit c
        | AnyStar => AnyStar
        end) <$> pattern.

(** [pattern[:-2] + "$" if pattern.endswith(r"\$") else "^" + pattern]:
    a closing escaped dollar becomes the end anchor, and only a pattern
    without it gets the start anchor. *)
Definition anchor (pattern : list atom) : regex :=
  match last pattern with
  | Some (Lit c) =>
      if decide (c = dollar)
      then {| anchor_start := false; atoms := removelast pattern;
              anchor_end := true |}
      else {| anchor_start := true; atoms := pattern; anchor_end := false |}
  | _ => {| anchor_start := true; atoms := pattern; anchor_end := false |}
  end.

(** [$] without [re.MULTILINE]: the end of the string, or just before a
    newline that ends the string. *)
Definition at_end (s : list ascii) : bool :=
  match s with
  | [] => true
  | [c] => bool_decide (c = newline)
  | _ => false
  end.

(** [.*] followed by the rest of the pattern, [match_rest]: [.] takes any
    character but a newline, so [.*] may stop in front of any character and
    may go on over any character that is not a newline. *)
Fixpoint match_star (match_rest : list ascii → bool) (s : list ascii)
    : bool :=
  match_rest s ||
  match s with
  | [] => false
  | c :: s' => negb (bool_decide (c = newline)) && match_star match_rest s'
  end.

(** Whether the atoms match a prefix of [s] (the whole of [s] up to a final
    newline when [to_end] is set). *)
Fixpoint match_atoms (to_end : bool) (r : list atom) (s : list ascii)
    : bool :=
  match r with
  | [] => if to_end then at_end s else true
  | Lit c :: r' =>
      match s with
      | [] => false
      | c' :: s' => bool_decide (c = c') && match_atoms to_end r' s'
      end
  | AnyStar :: r' => match_star (match_atoms to_end r') s
  end.

(** [bool(re.match(pattern, path))]: [re.match] looks for a match at the
    start of [path] only, with or without [^]. *)
Definition re_match (r : regex) (path : string) : bool :=
  match_atoms (anchor_end r) (atoms r) (String.list_ascii_of_string path).

Record RobotsRule := mkRule {
  path : string;
  allow : bool
}.

(** [RobotsRule.matches(path)]. An escaped pattern always compiles, so the
    [except re.error] branch of the source is never taken. *)
Definition matches (rule : RobotsRule) (p : string) : bool :=
  let pattern := path rule in
  let pattern := re_escape pattern in
  let pattern := replace_star pattern in
  let pattern := anchor pattern in
  re_match pattern p.

Record RobotsDirectives := mkDirectives {
  user_agent : string;
  rules : list RobotsRule;
  crawl_delay : option Q;
  sitemaps : list string
}.

(** The loop of [RobotsDirectives.is_allowed] over the remaining rules. *)
Fixpoint first_match (rs : list RobotsRule) (p : string) : bool :=
  match rs with
  | [] => true
  | rule :: rest => if matches rule p then allow rule else first_match rest p
  end.

(** [RobotsDirectives.is_allowed(path)]. *)
Definition is_allowed (d : RobotsDirectives) (p : string) : bool :=
  first_match (rules d) p.

End Robots.

(** ** scheduler.py *)

Module Scheduler.

Inductive EndpointType :=
| NEW_POSTS | HOT_POSTS | TOP_POSTS | RISING_POSTS | SUBMOLTS
| COMMENTS | AGENTS.

(** [timedelta(minutes=m)] and [timedelta(hours=h)]. *)
Definition minutes (m : Z) : Z := m * 60000000.
Definition hours (h : Z) : Z := h * 3600000000.

Record PollingInterval := mkInterval {
  default : Z;
  minimum : Z;
  maximum : Z
}.

(** [DEFAULT_INTERVALS], a constant dict read as a function: the on-demand
    endpoints have no entry. *)
Definition DEFAULT_INTERVALS (e : EndpointType) : option PollingInterval :=
  match e with
  | NEW_POSTS =>
      Some {| default := minutes 5; minimum := minutes 1;
              maximum := minutes 30 |}
  | HOT_POSTS =>
      Some {| default := minutes 15; minimum := minutes 5;
              maximum := hours 1 |}
  | TOP_POSTS =>
      Some {| default := hours 1; minimum := minutes 15;
              maximum := hours 6 |}
  | RISING_POSTS =>
      Some {| default := minutes 10; minimum := minutes 2;
              maximum := minutes 30 |}
  | SUBMOLTS =>
      Some {| default := hours 6; minimum := hours 1;
              maximum := hours 24 |}
  | COMMENTS | AGENTS => None
  end.

(** [ActivityTracker]: [samples] holds (timestamp, count) pairs, oldest
    first. *)
Record ActivityTracker := mkActivity {
  window_size : Z;
  samples : list (Z * Z)
}.

(** [ActivityTracker()]: a window of one hour and no samples. *)
Definition new_activity_tracker : ActivityTracker :=
  {| window_size := hours 1; samples := [] |}.

Definition _cleanup_old_samples (tr : ActivityTracker) (now : Z)
    : ActivityTracker :=
  let cutoff := now - window_size tr in
  {| window_size := window_size tr;
     samples := filter (λ sample : Z * Z, cutoff < sample.1) (samples tr) |}.

(** [record_activity(count)], which reads the clock twice. *)
Definition record_activity (tr : ActivityTracker) (count now1 now2 : Z)
    : ActivityTracker :=
  _cleanup_old_samples
    {| window_size := window_size tr;
       samples := samples tr ++ [(now1, count)] |} now2.

(** [sum(count for _, count in samples)]. *)
Definition total_count (l : list (Z * Z)) : Z :=
  foldr (λ sample acc, sample.2 + acc) 0 l.

(** [(l[-1][0] - l[0][0]).total_seconds() / 60.0] on a list that is not
    empty. *)
Definition span_minutes (l : list (Z * Z)) : Q :=
  let first := hd (0, 0) l in
  let final := List.last l (0, 0) in
  (Py.total_seconds (final.1 - first.1) / 60)%Q.

(** [get_rate()]: posts per minute over the window. *)
Definition get_rate (tr : ActivityTracker) (now : Z) : Q * ActivityTracker :=
  let tr' := _cleanup_old_samples tr now in
  match samples tr' with
  | [] => (0%Q, tr')
  | _ =>
      let total := total_count (samples tr') in
      let time_span := span_minutes (samples tr') in
      if Py.Qleb time_span 0 then (inject_Z total, tr')
      else ((inject_Z total / time_span)%Q, tr')
  end.

Definition is_high_activity (tr : ActivityTracker) (now : Z) (threshold : Q)
    : bool * ActivityTracker :=
  let '(rate, tr') := get_rate tr now in (Py.Qltb threshold rate, tr').

Definition is_low_activity (tr : ActivityTracker) (now : Z) (threshold : Q)
    : bool * ActivityTracker :=
  let '(rate, tr') := get_rate tr now in (Py.Qltb rate threshold, tr').

(** [is_spiking(multiplier=3.0)]. *)
Definition is_spiking (tr : ActivityTracker) (now : Z) (multiplier : Q)
    : bool * ActivityTracker :=
  let tr' := _cleanup_old_samples tr now in
  if (length (samples tr') <? 3)%nat then (false, tr')
  else
    let historical := removelast (samples tr') in
    let historical_total := total_count historical in
    let historical_span := span_minutes historical in
    if Py.Qleb historical_span 0 then (false, tr')
    else
      let historical_rate := (inject_Z historical_total / historical_span)%Q in
      let recent_count := (List.last (samples tr') (0, 0)).2 in
      let baseline := Qmax historical_rate 10 in
      (Py.Qltb (baseline * multiplier) (inject_Z recent_count), tr').

(** [PollingScheduler._get_adaptive_interval(endpoint_type)] on the activity
    tracker of the scheduler. Each of the three tests reads the clock and
    prunes the samples, so each takes its own reading. *)
Definition _get_adaptive_interval (tr : ActivityTracker)
    (endpoint_type : EndpointType) (now1 now2 now3 : Z)
    : Z * ActivityTracker :=
  match DEFAULT_INTERVALS endpoint_type with
  | None => (minutes 5, tr)
  | Some config =>
      let base_interval := default config in
      let '(spiking, tr1) := is_spiking tr now1 3 in
      if spiking then (minimum config, tr1)
      else
        let '(high, tr2) := is_high_activity tr1 now2 10 in
        if high then
          let reduced := Py.timedelta_mul_float base_interval (1 # 2) in
          (Z.max reduced (minimum config), tr2)
        else
          let '(low, tr3) := is_low_activity tr2 now3 1 in
          if low then
            let increased := base_interval * 2 in
            (Z.min increased (maximum config), tr3)
          else (base_interval, tr3)
  end.

(** The interval the specification gives for a configured category, from the
    answers of the three activity tests. *)
Definition adaptive_interval_spec (config : PollingInterval)
    (spiking high low : bool) : Z :=
  if spiking then minimum config
  else if high then
    Z.max (default config / 2) (minimum config)
  else if low then
    Z.min (default config * 2) (maximum config)
  else default config.

End Scheduler.

(** ** The ranges of Python's datetimes, timedeltas and floats *)

Module PyTime.

(** [datetime.min] and [datetime.max], the first microsecond of year 1 and
    the last of year 9999, counted from the epoch. *)
Definition datetime_min : Z := -62135596800000000.
Definition datetime_max : Z := 253402300799999999.

Definition datetime_in_range (t : Z) : bool :=
  (datetime_min <=? t) && (t <=? datetime_max).

(** [timedelta.min] and [timedelta.max]: 999999999 days either way. *)
Definition timedelta_min : Z := -86399999913600000000.
Definition timedelta_max : Z := 86399999999999999999.

Definition timedelta_in_range (td : Z) : bool :=
  (timedelta_min <=? td) && (td <=? timedelta_max).

(** [timedelta(seconds=x)] for a finite float [x]; [None] stands for the
    [OverflowError] raised when the duration exceeds the range. *)
Definition timedelta_seconds (x : Q) : option Z :=
  let td := Py.timedelta_of_seconds x in
  if timedelta_in_range td then Some td else None.

(** [t + td] and [t - td] on a datetime and a timedelta; [None] stands for
    the [OverflowError] raised when the result is no datetime. *)
Definition datetime_add (t td : Z) : option Z :=
  if datetime_in_range (t + td) then Some (t + td) else None.

Definition datetime_sub (t td : Z) : option Z :=
  if datetime_in_range (t - td) then Some (t - td) else None.

(** [a / b] on ints rounds the quotient to a float: it raises
    [OverflowError] when the quotient rounds to [2 ** 1024] or beyond,
    which is from [2 ** 1024 - 2 ** 970] on. *)
Definition quotient_too_large (a b : Z) : bool :=
  Py.Qleb (inject_Z (2 ^ 1024 - 2 ^ 970)) (Qabs (inject_Z a / inject_Z b)).

End PyTime.

(** ** deduplication.py: statistics and the batch filter *)

Module DedupFilter.
Import Dedup.

(** [get_stats()]: the two counts, the earliest [first_seen_at] (the source
    prints it in ISO format) and the whole days of the TTL. *)
Record Stats := mkStats {
  total_posts : nat;
  total_hashes : nat;
  oldest_entry : option Z;
  ttl_days : Z
}.

Definition get_stats (t : DeduplicationTracker) : Stats :=
  {| total_posts := size (by_id t);
     total_hashes := size (by_hash t);
     oldest_entry :=
       map_fold (λ _ record acc,
                   match acc with
                   | Some oldest => Some (Z.min oldest (first_seen_at record))
                   | None => Some (first_seen_at record)
                   end) None (by_id t);
     ttl_days := ttl t / 86400000000 |}.

(** [clear()]. *)
Definition clear (t : DeduplicationTracker) : DeduplicationTracker :=
  {| ttl := ttl t; by_id := ∅; by_hash := ∅ |}.

(** A post as the filter reads it: a dict from field names to values, the
    values already turned into strings. *)
Definition Post : Type := gmap string string.

Definition field_id (post : Post) : string := default "" (post !! "id").

Definition field_agent_id (post : Post) : string :=
  default (default "" (post !! "author_id")) (post !! "agent_id").

Definition field_title (post : Post) : string := default "" (post !! "title").

Definition field_submolt (post : Post) : string :=
  default "" (post !! "submolt").

(** The string [calculate_content_hash] digests. *)
Definition hash_content (pid agent_id title submolt : string) : string :=
  pid +:+ ":" +:+ agent_id +:+ ":" +:+ title +:+ ":" +:+ submolt.

Section WithDigest.

(** [hashlib.sha256(s.encode("utf-8")).hexdigest()], which the library
    provides. *)
Variable sha256_hexdigest : string → string.

Definition calculate_content_hash (pid agent_id title submolt : string)
    : string :=
  sha256_hexdigest (hash_content pid agent_id title submolt).

(** The hash the three methods of [DeduplicationFilter] compute for a
    post. *)
Definition post_hash (post : Post) : string :=
  calculate_content_hash (field_id post) (field_agent_id post)
                         (field_title post) (field_submolt post).

(** [DeduplicationFilter.is_new(post)]. *)
Definition is_new (t : DeduplicationTracker) (post : Post) : bool :=
  negb (is_duplicate t (field_id post) (Some (post_hash post))).

(** [DeduplicationFilter.mark_post_seen(post)]. *)
Definition mark_post_seen (t : DeduplicationTracker) (post : Post) (now : Z)
    : SeenPost * DeduplicationTracker :=
  mark_seen t (field_id post) (post_hash post) now.

(** [DeduplicationFilter.filter_new(posts, mark_seen=True)]. Each post comes
    with the clock reading [mark_seen] takes if the post is marked. The
    result is the new posts, the number skipped and the tracker. *)
Fixpoint filter_new (t : DeduplicationTracker) (posts : list (Post * Z))
    (mark : bool) : list Post * Z * DeduplicationTracker :=
  match posts with
  | [] => ([], 0, t)
  | (post, now) :: rest =>
      if is_duplicate t (field_id post) (Some (post_hash post)) then
        let '(new_posts, skipped, t') := filter_new t rest mark in
        (new_posts, skipped + 1, t')
      else
        let t1 := if mark
                  then (mark_seen t (field_id post) (post_hash post) now).2
                  else t in
        let '(new_posts, skipped, t') := filter_new t1 rest mark in
        (post :: new_posts, skipped, t')
  end.

End WithDigest.

(** What a record looks like when the clock never ran backwards up to
    [bound]: it was seen at least once, first no later than last, and last
    no later than [bound]. *)
Definition record_ok (bound : Z) (record : SeenPost) : Prop :=
  1 ≤ seen_count record
  ∧ first_seen_at record ≤ last_seen_at record
  ∧ last_seen_at record ≤ bound.

Definition records_ok (bound : Z) (t : DeduplicationTracker) : Prop :=
  ∀ pid record, by_id t !! pid = Some record → record_ok bound record.

(** The clock reading of an operation of a trace. *)
Definition op_time (o : op) : Z :=
  match o with
  | MarkSeen _ _ now => now
  | CleanupExpired now => now
  end.

(** [cleanup_expired()] with the [OverflowError] of [now - self.ttl]: the
    subtraction raises when the cutoff is no datetime, before anything is
    changed. [None] stands for the exception; [Dedup.cleanup_expired] is
    the method from the cutoff on. *)
Definition cleanup_expired_or_raise (t : DeduplicationTracker) (now : Z)
    : option (Z * DeduplicationTracker) :=
  match PyTime.datetime_sub now (ttl t) with
  | Some _ => cleanup_expired t now
  | None => None
  end.

End DedupFilter.

(** ** deduplication.py: repeated marking *)

Module DedupMarks.
Import Dedup.

(** [mark_seen] called once per entry (id, hash, clock reading), in order. *)
Definition mark_all (t : DeduplicationTracker)
    (marks : list (string * string * Z)) : DeduplicationTracker :=
  foldl (λ t' m, (mark_seen t' m.1.1 m.1.2 m.2).2) t marks.

End DedupMarks.

(** ** rate_limiter.py: upstream reports, budget reset, threshold warnings *)

Module RateLimitMore.
Import RateLimit.

(** [datetime.fromtimestamp(ts, tz=UTC)] in microseconds: the timestamp
    rounded to the nearest microsecond, a tie going to the even one.
    [None] stands for the [ValueError] or [OverflowError] the library
    raises when that time is outside the years 1 to 9999. *)
Definition fromtimestamp (ts : Q) : option Z :=
  let t := Py.timedelta_of_seconds ts in
  if PyTime.datetime_in_range t then Some t else None.

(** The exceptions [update_from_response] can end in. *)
Inductive Raised := TimestampOutOfRange | ZeroDivision | QuotientTooLarge.

(** [RateLimitState.update_from_headers]: a value that is [None] leaves the
    field as it was; [now] is the clock reading stored in [last_updated].
    The fields are assigned in the order limit, remaining, reset_at,
    last_updated, so that a timestamp out of range leaves the first two
    assigned and the last two as they were; the flag says whether it
    raised. *)
Definition update_from_headers (a : RateLimitState) (limit_ : option Z)
    (remaining_ : option Z) (reset_timestamp : option Q) (now : Z)
    : RateLimitState * bool :=
  let limit' := match limit_ with Some l => Some l | None => limit a end in
  let remaining' :=
    match remaining_ with Some r => Some r | None => remaining a end in
  match reset_timestamp with
  | Some ts =>
      match fromtimestamp ts with
      | Some reset =>
          ({| limit := limit'; remaining := remaining';
              reset_at := Some reset; last_updated := Some now |}, false)
      | None =>
          ({| limit := limit'; remaining := remaining';
              reset_at := reset_at a; last_updated := last_updated a |},
           true)
      end
  | None =>
      ({| limit := limit'; remaining := remaining';
          reset_at := reset_at a; last_updated := Some now |}, false)
  end.

(** [1.0 - (remaining / limit)]: the exception of the division, if any. *)
Definition used_pct_error (remaining_ limit_ : Z) : option Raised :=
  if limit_ =? 0 then Some ZeroDivision
  else if PyTime.quotient_too_large remaining_ limit_
       then Some QuotientTooLarge
       else None.

(** [update_from_response]: the new state, and the exception the call ended
    in, if any. The state is updated before the used percentage is
    computed, and an exception of [update_from_headers] ends the call
    before that. *)
Definition update_from_response (s : RateLimiter) (limit_ : option Z)
    (remaining_ : option Z) (reset_timestamp : option Q) (now : Z)
    : RateLimiter * option Raised :=
  let '(a, raised) :=
    update_from_headers (api_state s) limit_ remaining_ reset_timestamp
                        now in
  let s' :=
    {| config := config s;
       minute_requests := minute_requests s;
       hour_requests := hour_requests s;
       day_requests := day_requests s;
       api_state := a;
       budget_usage := budget_usage s |} in
  if raised then (s', Some TimestampOutOfRange)
  else
    match remaining_, limit_ with
    | Some r, Some l => (s', used_pct_error r l)
    | _, _ => (s', None)
    end.

(** [reset_budget()]: every category back to zero. *)
Definition reset_budget (s : RateLimiter) : RateLimiter :=
  {| config := config s;
     minute_requests := minute_requests s;
     hour_requests := hour_requests s;
     day_requests := day_requests s;
     api_state := api_state s;
     budget_usage :=
       foldl (λ usage budget, <[budget := 0]> usage) (budget_usage s)
             [NEW_POSTS; TRENDING; COMMENTS; AGENTS; RESERVE] |}.

Inductive WindowName := Minute | Hour | Day.

(** A warning of [check_thresholds]: the window, its count and its limit.
    The source words them as a sentence with the percentage. *)
Definition Warning : Type := WindowName * Z * Z.

(** One of the three blocks of [check_thresholds]: [None] is the
    [ZeroDivisionError] of [count / limit]. *)
Definition threshold_warning (name : WindowName) (count limit_ : Z)
    (threshold : Q) : option (list Warning) :=
  if limit_ =? 0 then None
  else
    let pct := (inject_Z count / inject_Z limit_)%Q in
    if Py.Qleb threshold pct then Some [(name, count, limit_)] else Some [].

(** [check_thresholds()]: the warnings in the order minute, hour, day, and
    the state after the cleanup. *)
Definition check_thresholds (s : RateLimiter) (now : Q)
    : option (list Warning) * RateLimiter :=
  let '((minute_count, hour_count, day_count), s') := _get_counts s now in
  let cfg := config s' in
  let threshold := warning_threshold cfg in
  (minute ← threshold_warning Minute minute_count (requests_per_minute cfg)
                              threshold;
   hour ← threshold_warning Hour hour_count (requests_per_hour cfg)
                            threshold;
   day ← threshold_warning Day day_count (requests_per_day cfg) threshold;
   Some (minute ++ hour ++ day), s').

(** [create_rate_limiter(requests_per_minute, requests_per_hour,
    requests_per_day)]. *)
Definition create_rate_limiter (per_minute per_hour per_day : Z)
    : RateLimiter :=
  new_limiter {| requests_per_minute := per_minute;
                 requests_per_hour := per_hour;
                 requests_per_day := per_day;
                 warning_threshold := 80 # 100;
                 minute_window := 60; hour_window := 3600;
                 day_window := 86400 |}.

(** The per-minute share of a category: [int(requests_per_minute *
    allocation)], as [can_request] computes it. The exact product stands
    for the product of floats: the two truncate to the same integer for
    every limit below [10 ^ 15], and may differ by one beyond. *)
Definition max_for_budget (cfg : RateLimitConfig) (budget : RequestBudget)
    : Z :=
  Py.int (inject_Z (requests_per_minute cfg) * BUDGET_ALLOCATION budget).

(** The timestamps of a deque never go back. *)
Definition nondecreasing (d : list Q) : Prop := Sorted Qle d.

End RateLimitMore.

(** ** rate_limiter.py: the windows by name *)

Module RateLimitNamed.
Import RateLimit RateLimitMore.

(** The three windows of a limiter with their names, counts and limits. *)
Definition named_windows (s : RateLimiter) : list Warning :=
  let cfg := config s in
  [(Minute, Z.of_nat (length (minute_requests s)), requests_per_minute cfg);
   (Hour, Z.of_nat (length (hour_requests s)), requests_per_hour cfg);
   (Day, Z.of_nat (length (day_requests s)), requests_per_day cfg)].

(** The count of a window has reached the warning threshold, taken as a
    share of the limit. *)
Definition at_threshold (threshold : Q) (w : Warning) : bool :=
  Py.Qleb (threshold * inject_Z w.2) (inject_Z w.1.2).

End RateLimitNamed.

(** ** rate_limiter.py: the wait of the specification *)

Module RateLimitSpec.
Import RateLimit.








End RateLimitSpec.

(** ** backoff.py: the next allowed time and the resets *)

Module BackoffMore.
Import Backoff.

(** [get_next_allowed_time(endpoint)]: [now1] and [now2] are its two
    readings of the clock, [jitter] the draw of the [calculate_delay] it
    calls. [last_error_type or ErrorType.UNKNOWN] replaces a missing type
    only: every member of the enum is a non-empty string. *)
Definition get_next_allowed_time (h : BackoffHandler) (endpoint : string)
    (now1 now2 : Z) (jitter : Q) : option Z * BackoffHandler :=
  let '(state, h1) := _get_state h endpoint in
  let pending :=
    match retry_after state with
    | Some at_ => if now1 <? at_ then Some at_ else None
    | None => None
    end in
  match pending with
  | Some at_ => (Some at_, h1)
  | None =>
      match last_error_at state with
      | None => (None, h1)
      | Some last =>
          let '(delay, h2) :=
            calculate_delay h1 endpoint
                            (default UNKNOWN (last_error_type state))
                            None jitter in
          let next_allowed := last + Py.timedelta_of_seconds delay in
          if now2 <? next_allowed then (Some next_allowed, h2)
          else (None, h2)
      end
  end.

(** [reset_endpoint(endpoint)]: an endpoint without state is left without. *)
Definition reset_endpoint (h : BackoffHandler) (endpoint : string)
    : BackoffHandler :=
  match endpoint_states h !! endpoint with
  | Some state => set_state h endpoint (State.reset state)
  | None => h
  end.

(** [reset_all()]. *)
Definition reset_all (h : BackoffHandler) : BackoffHandler :=
  {| config := config h; endpoint_states := ∅ |}.

(** [create_backoff_handler(base_delay, max_delay)]. *)
Definition create_backoff_handler (base max : Q) : BackoffHandler :=
  new_handler {| base_delay := base; max_exponent := 8; max_delay := max;
                 jitter_min := 8 # 10; jitter_max := 12 # 10;
                 timeout_multiplier := 2 |}.

(** [datetime.now(UTC) + timedelta(seconds=retry_after_seconds)] of
    [BackoffState.record_error], for a finite float; [None] stands for the
    [OverflowError] of the duration or of the sum. *)
Definition retry_time (now2 : Z) (retry_after_seconds : Q) : option Z :=
  PyTime.timedelta_seconds retry_after_seconds ≫= PyTime.datetime_add now2.

(** [BackoffState.record_error] with that exception: the counters are
    assigned before the retry-after time is computed, so that a call that
    raises leaves them changed and [retry_after] as it was. The flag says
    whether it raised. *)
Definition state_record_error_or_raise (s : BackoffState)
    (error_type : ErrorType) (retry_after_seconds : option Q)
    (now1 now2 : Z) : BackoffState * bool :=
  match retry_after_seconds with
  | Some secs =>
      match retry_time now2 secs with
      | Some at_ =>
          ({| error_count := error_count s + 1;
              last_error_at := Some now1;
              last_error_type := Some error_type;
              retry_after := Some at_;
              consecutive_successes := 0 |}, false)
      | None =>
          ({| error_count := error_count s + 1;
              last_error_at := Some now1;
              last_error_type := Some error_type;
              retry_after := retry_after s;
              consecutive_successes := 0 |}, true)
      end
  | None =>
      ({| error_count := error_count s + 1;
          last_error_at := Some now1;
          last_error_type := Some error_type;
          retry_after := None;
          consecutive_successes := 0 |}, false)
  end.

(** [BackoffHandler.record_error] with that exception: [None] for the
    delay stands for the [OverflowError], raised before any delay is
    calculated. *)
Definition record_error_or_raise (h : BackoffHandler) (endpoint : string)
    (error_type : ErrorType) (retry_after_seconds : option Q)
    (now1 now2 : Z) (jitter : Q) : option Q * BackoffHandler :=
  let '(state, h1) := _get_state h endpoint in
  let '(state', raised) :=
    state_record_error_or_raise state error_type retry_after_seconds
                                now1 now2 in
  let h2 := set_state h1 endpoint state' in
  if raised then (None, h2)
  else
    let '(delay, h3) :=
      calculate_delay h2 endpoint error_type retry_after_seconds jitter in
    (Some delay, h3).

(** The state [_get_state] returns for an endpoint. *)
Definition state_of (h : BackoffHandler) (endpoint : string) : BackoffState :=
  (_get_state h endpoint).1.

(** [record_success(endpoint)] called [n] times. *)
Definition record_successes (h : BackoffHandler) (endpoint : string)
    (n : nat) : BackoffHandler :=
  Nat.iter n (λ h', record_success h' endpoint) h.

(** One call on a handler that names an endpoint. *)
Inductive handler_op :=
| HRecordError (endpoint : string) (error_type : ErrorType)
               (retry_after_seconds : option Q) (now1 now2 : Z) (jitter : Q)
| HRecordSuccess (endpoint : string)
| HCalculateDelay (endpoint : string) (error_type : ErrorType)
                  (retry_after_seconds : option Q) (jitter : Q)
| HShouldRetry (endpoint : string) (error_type : ErrorType)
| HNextAllowed (endpoint : string) (now1 now2 : Z) (jitter : Q)
| HResetEndpoint (endpoint : string).

Definition op_endpoint (o : handler_op) : string :=
  match o with
  | HRecordError e _ _ _ _ _ | HRecordSuccess e | HCalculateDelay e _ _ _
  | HShouldRetry e _ | HNextAllowed e _ _ _ | HResetEndpoint e => e
  end.

Definition run_handler_op (h : BackoffHandler) (o : handler_op)
    : BackoffHandler :=
  match o with
  | HRecordError e error_type retry now1 now2 jitter =>
      (record_error h e error_type retry now1 now2 jitter).2
  | HRecordSuccess e => record_success h e
  | HCalculateDelay e error_type retry jitter =>
      (calculate_delay h e error_type retry jitter).2
  | HShouldRetry e error_type => (should_retry h e error_type).2
  | HNextAllowed e now1 now2 jitter =>
      (get_next_allowed_time h e now1 now2 jitter).2
  | HResetEndpoint e => reset_endpoint h e
  end.

End BackoffMore.

(** ** scheduler.py: poll states, the scheduler's record keeping and
    persistence *)

Module SchedulerMore.

#[global] Instance EndpointType_eq_dec : EqDecision Scheduler.EndpointType.
Proof. solve_decision. Defined.

(** [EndpointType.value]. *)
Definition value (e : Scheduler.EndpointType) : string :=
  match e with
  | Scheduler.NEW_POSTS => "new_posts"
  | Scheduler.HOT_POSTS => "hot_posts"
  | Scheduler.TOP_POSTS => "top_posts"
  | Scheduler.RISING_POSTS => "rising_posts"
  | Scheduler.SUBMOLTS => "submolts"
  | Scheduler.COMMENTS => "comments"
  | Scheduler.AGENTS => "agents"
  end.

(** The members of the enum, in the order of their definition. *)
Definition all_endpoint_types : list Scheduler.EndpointType :=
  [Scheduler.NEW_POSTS; Scheduler.HOT_POSTS; Scheduler.TOP_POSTS;
   Scheduler.RISING_POSTS; Scheduler.SUBMOLTS; Scheduler.COMMENTS;
   Scheduler.AGENTS].

(** [EndpointType(name)]: the member with that value; [None] stands for the
    [ValueError] raised when there is none. *)
Definition endpoint_of_value (name : string)
    : option Scheduler.EndpointType :=
  list_find (λ e, value e = name) all_endpoint_types ≫= λ found,
  Some found.2.

#[global] Instance EndpointType_countable : Countable Scheduler.EndpointType.
Proof.
  apply (inj_countable value endpoint_of_value). by intros [].
Defined.

Record PollState := mkPollState {
  endpoint : Scheduler.EndpointType;
  last_post_id : option string;
  last_poll_at : option Z;
  next_poll_at : option Z;
  current_interval : option Z;
  error_count : Z;
  last_error : option string;
  posts_fetched_last : Z;
  total_posts_fetched : Z
}.

(** [PollState(endpoint=endpoint_type)]. *)
Definition new_poll_state (e : Scheduler.EndpointType) : PollState :=
  {| endpoint := e; last_post_id := None; last_poll_at := None;
     next_poll_at := None; current_interval := None; error_count := 0;
     last_error := None; posts_fetched_last := 0;
     total_posts_fetched := 0 |}.

(** The truth value of [str | None]: [None] and the empty string are
    false. *)
Definition truthy_str (s : option string) : bool :=
  match s with
  | Some s => bool_decide (s ≠ "")
  | None => false
  end.

(** The truth value of [timedelta | None]: [None] and the zero duration are
    false. *)
Definition truthy_timedelta (td : option Z) : bool :=
  match td with
  | Some td => bool_decide (td ≠ 0)
  | None => false
  end.

(** [PollState.record_poll(posts_fetched, last_post_id, interval)]; [now]
    is its reading of the clock. *)
Definition record_poll (st : PollState) (posts_fetched : Z)
    (new_last_post_id : option string) (interval : option Z) (now : Z)
    : PollState :=
  {| endpoint := endpoint st;
     last_post_id :=
       if truthy_str new_last_post_id then new_last_post_id
       else last_post_id st;
     last_poll_at := Some now;
     next_poll_at :=
       if truthy_timedelta interval then (λ i, now + i) <$> interval
       else next_poll_at st;
     current_interval :=
       if truthy_timedelta interval then interval else current_interval st;
     error_count := 0;
     last_error := None;
     posts_fetched_last := posts_fetched;
     total_posts_fetched := total_posts_fetched st + posts_fetched |}.

(** [PollState.record_error(error)]. *)
Definition record_error (st : PollState) (error : string) : PollState :=
  {| endpoint := endpoint st;
     last_post_id := last_post_id st;
     last_poll_at := last_poll_at st;
     next_poll_at := next_poll_at st;
     current_interval := current_interval st;
     error_count := error_count st + 1;
     last_error := Some error;
     posts_fetched_last := posts_fetched_last st;
     total_posts_fetched := total_posts_fetched st |}.

(** [PollingScheduler], without the APScheduler instance, the callback and
    the shutdown event: the poll states and the activity tracker. *)
Record PollingScheduler := mkScheduler {
  poll_states : gmap Scheduler.EndpointType PollState;
  activity_tracker : Scheduler.ActivityTracker
}.

(** The body of the loop of [__post_init__]. *)
Definition ensure_state (states : gmap Scheduler.EndpointType PollState)
    (e : Scheduler.EndpointType) : gmap Scheduler.EndpointType PollState :=
  match states !! e with
  | Some _ => states
  | None => <[e := new_poll_state e]> states
  end.

(** [__post_init__]: a state for every member of the enum that has none. *)
Definition post_init (s : PollingScheduler) : PollingScheduler :=
  {| poll_states := foldl ensure_state (poll_states s) all_endpoint_types;
     activity_tracker := activity_tracker s |}.

(** [create_scheduler()]. *)
Definition create_scheduler : PollingScheduler :=
  post_init {| poll_states := ∅;
               activity_tracker := Scheduler.new_activity_tracker |}.

(** The clock readings of one [record_poll_result]: three for the tests of
    [_get_adaptive_interval], one for [record_poll], two for
    [record_activity]. *)
Record poll_clock := mkPollClock {
  at_spiking : Z;
  at_high : Z;
  at_low : Z;
  at_poll : Z;
  at_sample : Z;
  at_cleanup : Z
}.

(** [record_poll_result(endpoint_type, posts_fetched, last_post_id)];
    [None] stands for the [KeyError] of [self.poll_states[endpoint_type]],
    raised before anything is changed. *)
Definition record_poll_result (s : PollingScheduler)
    (endpoint_type : Scheduler.EndpointType) (posts_fetched : Z)
    (new_last_post_id : option string) (clock : poll_clock)
    : option PollingScheduler :=
  state ← poll_states s !! endpoint_type;
  let '(interval, tr1) :=
    Scheduler._get_adaptive_interval (activity_tracker s) endpoint_type
      (at_spiking clock) (at_high clock) (at_low clock) in
  let state' :=
    record_poll state posts_fetched new_last_post_id (Some interval)
                (at_poll clock) in
  Some {| poll_states := <[endpoint_type := state']> (poll_states s);
          activity_tracker :=
            Scheduler.record_activity tr1 posts_fetched
              (at_sample clock) (at_cleanup clock) |}.

(** [record_poll_error(endpoint_type, error)]. *)
Definition record_poll_error (s : PollingScheduler)
    (endpoint_type : Scheduler.EndpointType) (error : string)
    : option PollingScheduler :=
  state ← poll_states s !! endpoint_type;
  Some {| poll_states :=
            <[endpoint_type := record_error state error]> (poll_states s);
          activity_tracker := activity_tracker s |}.

(** The two calls that report the outcome of a poll. *)
Inductive poll_report :=
| PollResult (endpoint_type : Scheduler.EndpointType) (posts_fetched : Z)
             (new_last_post_id : option string) (clock : poll_clock)
| PollError (endpoint_type : Scheduler.EndpointType) (error : string).

Definition report_endpoint (r : poll_report) : Scheduler.EndpointType :=
  match r with
  | PollResult e _ _ _ => e
  | PollError e _ => e
  end.

Definition run_report (s : PollingScheduler) (r : poll_report)
    : option PollingScheduler :=
  match r with
  | PollResult e posts_fetched new_last_post_id clock =>
      record_poll_result s e posts_fetched new_last_post_id clock
  | PollError e error => record_poll_error s e error
  end.

(** The reports in order; the first [KeyError] ends the run. *)
Definition run_reports (s : PollingScheduler) (rs : list poll_report)
    : option PollingScheduler :=
  foldl (λ acc r, acc ≫= λ s', run_report s' r) (Some s) rs.

(** What the reports say about one endpoint: the posts its polls fetched,
    and its errors since its last poll that went through. *)
Definition fetched_by (e : Scheduler.EndpointType) (rs : list poll_report)
    : Z :=
  foldr (λ r acc,
           match r with
           | PollResult e' posts_fetched _ _ =>
               if decide (e' = e) then posts_fetched + acc else acc
           | PollError _ _ => acc
           end) 0 rs.

Definition errors_since_poll (e : Scheduler.EndpointType) (before : Z)
    (rs : list poll_report) : Z :=
  foldl (λ count r,
           if decide (report_endpoint r = e) then
             match r with
             | PollResult _ _ _ _ => 0
             | PollError _ _ => count + 1
             end
           else count) before rs.

(** One entry of the persisted dict: the values under the keys
    [last_post_id], [last_poll_at], [error_count] and
    [total_posts_fetched], each of the type [get_state_for_persistence]
    writes; [None] is a missing key or, for the first two, a stored
    [None]. *)
Record Persisted := mkPersisted {
  p_last_post_id : option string;
  p_last_poll_at : option string;
  p_error_count : option Z;
  p_total_posts_fetched : option Z
}.

Section Persistence.

(** [datetime.isoformat] and [datetime.fromisoformat]; [None] stands for
    the [ValueError] of the latter. *)
Variable isoformat : Z → string.
Variable fromisoformat : string → option Z.

(** The dict [get_state_for_persistence] builds for one state. *)
Definition persist (st : PollState) : Persisted :=
  {| p_last_post_id := last_post_id st;
     p_last_poll_at := isoformat <$> last_poll_at st;
     p_error_count := Some (error_count st);
     p_total_posts_fetched := Some (total_posts_fetched st) |}.

(** [get_state_for_persistence()]: a dict comprehension from the values of
    the endpoints to the entries of their states. *)
Definition get_state_for_persistence (s : PollingScheduler)
    : gmap string Persisted :=
  kmap value (persist <$> poll_states s).

(** The last two assignments of the loop body of [restore_state]. *)
Definition restore_counts (st : PollState) (data : Persisted) : PollState :=
  {| endpoint := endpoint st;
     last_post_id := last_post_id st;
     last_poll_at := last_poll_at st;
     next_poll_at := next_poll_at st;
     current_interval := current_interval st;
     error_count := default 0 (p_error_count data);
     last_error := last_error st;
     posts_fetched_last := posts_fetched_last st;
     total_posts_fetched := default 0 (p_total_posts_fetched data) |}.

Definition set_last_post_id (st : PollState) (id : option string)
    : PollState :=
  {| endpoint := endpoint st;
     last_post_id := id;
     last_poll_at := last_poll_at st;
     next_poll_at := next_poll_at st;
     current_interval := current_interval st;
     error_count := error_count st;
     last_error := last_error st;
     posts_fetched_last := posts_fetched_last st;
     total_posts_fetched := total_posts_fetched st |}.

Definition set_last_poll_at (st : PollState) (at_ : Z) : PollState :=
  {| endpoint := endpoint st;
     last_post_id := last_post_id st;
     last_poll_at := Some at_;
     next_poll_at := next_poll_at st;
     current_interval := current_interval st;
     error_count := error_count st;
     last_error := last_error st;
     posts_fetched_last := posts_fetched_last st;
     total_posts_fetched := total_posts_fetched st |}.

(** The body of the loop of [restore_state] for a state that was found:
    the fields are set one after the other, and a [ValueError] of
    [fromisoformat] leaves the body with the first field set only. *)
Definition restore_fields (st : PollState) (data : Persisted) : PollState :=
  let st1 := set_last_post_id st (p_last_post_id data) in
  if truthy_str (p_last_poll_at data) then
    match p_last_poll_at data ≫= fromisoformat with
    | Some at_ => restore_counts (set_last_poll_at st1 at_) data
    | None => st1
    end
  else restore_counts st1 data.

(** One turn of the loop of [restore_state]: an unknown endpoint name
    raises [ValueError], which is caught; an endpoint without state is
    skipped. *)
Definition restore_entry (s : PollingScheduler) (endpoint_name : string)
    (data : Persisted) : PollingScheduler :=
  match endpoint_of_value endpoint_name with
  | None => s
  | Some endpoint_type =>
      match poll_states s !! endpoint_type with
      | None => s
      | Some state =>
          {| poll_states :=
               <[endpoint_type := restore_fields state data]>
                 (poll_states s);
             activity_tracker := activity_tracker s |}
      end
  end.

(** [restore_state(state_data)]; [items] are the items of the dict in its
    order. *)
Definition restore_state (s : PollingScheduler)
    (items : list (string * Persisted)) : PollingScheduler :=
  foldl (λ s' item, restore_entry s' item.1 item.2) s items.

End Persistence.

End SchedulerMore.

(** ** robots.py: the block of directives for a user agent *)

Module RobotsMore.
Import Robots.

(** [needle in haystack] on strings: [needle] starts at some position of
    [haystack]; the empty string is in every string. *)
Fixpoint contains (needle haystack : string) : bool :=
  String.prefix needle haystack ||
  match haystack with
  | EmptyString => false
  | String _ rest => contains needle rest
  end.

(** The three variables of the loop of [_find_matching_directives]. *)
Record Matches := mkMatches {
  exact_match : option RobotsDirectives;
  partial_match : option RobotsDirectives;
  wildcard_match : option RobotsDirectives
}.

Section WithLower.

(** [str.lower]. *)
Variable lower : string → string.

(** The body of the loop of [_find_matching_directives]. *)
Definition match_step (ua_lower : string) (found : Matches)
    (directives : RobotsDirectives) : Matches :=
  let agent := lower (user_agent directives) in
  if decide (agent = ua_lower) then
    {| exact_match := Some directives;
       partial_match := partial_match found;
       wildcard_match := wildcard_match found |}
  else if decide (agent = "*") then
    {| exact_match := exact_match found;
       partial_match := partial_match found;
       wildcard_match := Some directives |}
  else if contains agent ua_lower || contains ua_lower agent then
    {| exact_match := exact_match found;
       partial_match := Some directives;
       wildcard_match := wildcard_match found |}
  else found.

(** [x or y] on [RobotsDirectives | None]: an instance of the dataclass is
    always true. *)
Definition or_else (x y : option RobotsDirectives)
    : option RobotsDirectives :=
  match x with
  | Some d => Some d
  | None => y
  end.

(** [RobotsChecker._find_matching_directives(directives_list)] of a checker
    with the given [user_agent]. *)
Definition _find_matching_directives (checker_user_agent : string)
    (directives_list : list RobotsDirectives) : option RobotsDirectives :=
  let ua_lower := lower checker_user_agent in
  let found :=
    foldl (match_step ua_lower)
          {| exact_match := None; partial_match := None;
             wildcard_match := None |}
          directives_list in
  or_else (exact_match found)
          (or_else (partial_match found) (wildcard_match found)).

(** The end of [RobotsChecker.is_allowed(url)], from the cache entry it has
    found or fetched ([None] when fetching failed) and the path of the URL:
    the directives of the entry decide. *)
Definition is_allowed_by_entry (checker_user_agent : string)
    (cache_entry : option (list RobotsDirectives)) (p : string) : bool :=
  match cache_entry with
  | None => true
  | Some directives_list =>
      match _find_matching_directives checker_user_agent directives_list with
      | None => true
      | Some directives => is_allowed directives p
      end
  end.

(** How a block relates to the user agent, in the order of the tests of the
    loop. *)
Inductive MatchKind := Exact | Wildcard | Partial | NoMatch.

#[global] Instance MatchKind_eq_dec : EqDecision MatchKind.
Proof. solve_decision. Defined.

Definition kind_of (checker_user_agent : string)
    (directives : RobotsDirectives) : MatchKind :=
  let ua_lower := lower checker_user_agent in
  let agent := lower (user_agent directives) in
  if decide (agent = ua_lower) then Exact
  else if decide (agent = "*") then Wildcard
  else if contains agent ua_lower || contains ua_lower agent then Partial
  else NoMatch.

(** The last block of a kind. *)
Definition last_of (kind : MatchKind) (checker_user_agent : string)
    (directives_list : list RobotsDirectives) : option RobotsDirectives :=
  last (filter (λ d, kind_of checker_user_agent d = kind) directives_list).

End WithLower.

End RobotsMore.

(** * Properties *)

(** ** The two indexes of the deduplication tracker *)

Module DedupFacts.
Import Dedup.

Lemma consistent_new ttl0 : consistent (new_tracker ttl0).
Proof.
  split; intros ? ? H; cbn in H; by rewrite lookup_empty in H.
Qed.

Lemma mark_seen_consistent t pid h now :
  consistent t → consistent (mark_seen t pid h now).2.
Proof.
  intros [Hkey Hsound]. unfold mark_seen.
  destruct (by_id t !! pid) as [record|] eqn:Hpid; cbn.
  - split.
    + intros p r. cbn. rewrite lookup_insert.
      case_decide as Hp; [|by apply Hkey].
      intros [= <-]. subst. cbn. by apply Hkey.
    + intros h' p Hh'. cbn in *.
      destruct (Hsound _ _ Hh') as (r & Hr & Hrh).
      destruct (decide (pid = p)) as [->|Hne].
      * rewrite lookup_insert_eq. eexists; split; [done|]. cbn. congruence.
      * rewrite lookup_insert_ne by done. eauto.
  - split.
    + intros p r. cbn. rewrite lookup_insert.
      case_decide as Hp; [|by apply Hkey]. by intros [= <-].
    + intros h' p. cbn. rewrite lookup_insert.
      case_decide as Hh.
      * intros [= <-]. rewrite lookup_insert_eq. by eexists.
      * intros Hh'. destruct (Hsound _ _ Hh') as (r & Hr & Hrh).
        assert (pid ≠ p) by congruence.
        rewrite lookup_insert_ne by done. eauto.
Qed.

Lemma pop_record_consistent t pid t' :
  consistent t → pop_record t pid = Some t' → consistent t'.
Proof.
  intros [Hkey Hsound]. unfold pop_record.
  destruct (by_id t !! pid) as [record|] eqn:Hpid; [|done].
  intros [= <-]. split.
  - intros p r. cbn. rewrite lookup_delete.
    case_decide; [done|]. by apply Hkey.
  - intros h p. cbn. rewrite lookup_delete.
    case_decide as Hh; [done|]. intros Hhp.
    destruct (Hsound _ _ Hhp) as (r & Hr & Hrh).
    assert (pid ≠ p) by congruence.
    rewrite lookup_delete_ne by done. eauto.
Qed.

Lemma pop_record_by_id t pid t' :
  pop_record t pid = Some t' → by_id t' = delete pid (by_id t).
Proof.
  unfold pop_record. destruct (by_id t !! pid); [|done]. by intros [= <-].
Qed.

(** The second loop of [cleanup_expired] never meets a missing id: the ids
    it walks over are distinct keys of the id index. *)
Lemma remove_expired_total ids t removed :
  NoDup ids → (∀ pid, pid ∈ ids → is_Some (by_id t !! pid)) →
  ∃ t', remove_expired ids t removed = Some (removed + Z.of_nat (length ids), t').
Proof.
  revert t removed. induction ids as [|pid rest IH]; intros t removed Hnd Hin.
  - cbn. rewrite Z.add_0_r. eauto.
  - apply NoDup_cons in Hnd as [Hfresh Hnd].
    destruct (Hin pid) as [record Hrecord]; [left|].
    cbn [remove_expired]. unfold pop_record. rewrite Hrecord.
    match goal with
    | |- ∃ _, remove_expired _ ?t1 _ = _ =>
        destruct (IH t1 (removed + 1) Hnd) as [t' Ht']
    end.
    + intros p Hp. cbn. rewrite lookup_delete_ne; [apply Hin; by right|].
      intros ->. done.
    + rewrite Ht'. exists t'. f_equal. f_equal. cbn [length]. lia.
Qed.

Lemma remove_expired_consistent ids t removed n t' :
  consistent t → remove_expired ids t removed = Some (n, t') → consistent t'.
Proof.
  revert t removed. induction ids as [|pid rest IH]; intros t removed Ht; cbn.
  - by intros [= _ <-].
  - destruct (pop_record t pid) as [t1|] eqn:Hpop; [|done].
    apply IH. by eapply pop_record_consistent.
Qed.

(** Two turns of the removal loop can be swapped, so the order in which the
    first loop of [cleanup_expired] met the expired ids does not show in the
    result: a Python [dict] walks its keys in insertion order, [map_to_list]
    in an order of its own, and both lead to the same tracker. *)
Lemma pop_record_swap t x y :
  pop_record t x ≫= (λ t', pop_record t' y)
  = pop_record t y ≫= (λ t', pop_record t' x).
Proof.
  destruct (decide (x = y)) as [->|Hne]; [done|].
  unfold pop_record.
  destruct (by_id t !! x) as [rx|] eqn:Hx, (by_id t !! y) as [ry|] eqn:Hy;
    cbn; rewrite ?lookup_delete_ne, ?Hx, ?Hy by done; try done.
  f_equal. f_equal; apply delete_delete.
Qed.

Lemma remove_expired_bind ids t removed x :
  remove_expired (x :: ids) t removed
  = pop_record t x ≫= (λ t', remove_expired ids t' (removed + 1)).
Proof. cbn. by destruct (pop_record t x). Qed.

Lemma remove_expired_order ids ids' t removed :
  ids ≡ₚ ids' → remove_expired ids t removed = remove_expired ids' t removed.
Proof.
  intros Hperm. revert t removed.
  induction Hperm as [|x l l' _ IH|x y l|l1 l2 l3 _ IH1 _ IH2];
    intros t removed.
  - done.
  - rewrite !remove_expired_bind. destruct (pop_record t x); cbn; [|done].
    apply IH.
  - rewrite !remove_expired_bind.
    pose proof (pop_record_swap t x y) as Hswap.
    destruct (pop_record t y) as [ty|], (pop_record t x) as [tx|];
      cbn in *; rewrite ?remove_expired_bind; try done.
    + by rewrite Hswap.
    + by rewrite <- Hswap.
    + by rewrite Hswap.
  - by rewrite IH1.
Qed.

Lemma expired_ids_NoDup t now : NoDup (expired_ids t now).
Proof.
  unfold expired_ids.
  eapply NoDup_fmap_fst.
  - intros k r1 r2 H1%list_elem_of_filter H2%list_elem_of_filter.
    destruct H1 as [_ H1%elem_of_map_to_list], H2 as [_ H2%elem_of_map_to_list].
    congruence.
  - apply NoDup_filter, NoDup_map_to_list.
Qed.

Lemma expired_ids_spec t now pid :
  pid ∈ expired_ids t now ↔
  ∃ record, by_id t !! pid = Some record ∧ last_seen_at record < now - ttl t.
Proof.
  unfold expired_ids. rewrite list_elem_of_fmap. split.
  - intros [[k r] [-> [Hlt Hin%elem_of_map_to_list]%list_elem_of_filter]].
    eauto.
  - intros (r & Hr & Hlt). exists (pid, r). split; [done|].
    apply list_elem_of_filter. split; [done|]. by apply elem_of_map_to_list.
Qed.

(** [cleanup_expired] returns, and counts the ids it found expired. *)
Lemma cleanup_expired_total t now :
  ∃ t', cleanup_expired t now
        = Some (Z.of_nat (length (expired_ids t now)), t').
Proof.
  unfold cleanup_expired.
  destruct (remove_expired_total (expired_ids t now) t 0) as [t' Ht'].
  - apply expired_ids_NoDup.
  - intros pid (r & Hr & _)%expired_ids_spec. eauto.
  - rewrite Ht'. eauto.
Qed.

Lemma step_consistent t o :
  consistent t → ∃ t', step t o = Some t' ∧ consistent t'.
Proof.
  intros Ht. destruct o as [pid h now|now]; cbn.
  - eexists; split; [done|]. by apply mark_seen_consistent.
  - destruct (cleanup_expired_total t now) as [t' Ht'].
    rewrite Ht'. exists t'. split; [done|].
    eapply remove_expired_consistent; [done|apply Ht'].
Qed.

(** No trace of operations fails, and every trace keeps the tracker
    consistent. *)
Lemma run_consistent ops t :
  consistent t → ∃ t', run ops t = Some t' ∧ consistent t'.
Proof.
  revert t. induction ops as [|o rest IH]; intros t Ht; cbn.
  - eauto.
  - destruct (step_consistent t o Ht) as (t1 & -> & Ht1). by apply IH.
Qed.

(** The converse direction needs the marks to be told apart by their hash.
    [R pid h] stands for "the trace marks [pid] with [h]". *)
Section Covered.
Variable R : string → string → Prop.
Hypothesis R_one_id : ∀ p1 p2 h, R p1 h → R p2 h → p1 = p2.

Lemma covered_new ttl0 : covered R (new_tracker ttl0).
Proof.
  split; intros ? ? H; cbn in H; by rewrite lookup_empty in H.
Qed.

Lemma mark_seen_covered t pid h now :
  R pid h → covered R t → covered R (mark_seen t pid h now).2.
Proof.
  intros HR [Hmarked Hcov]. unfold mark_seen.
  destruct (by_id t !! pid) as [record|] eqn:Hpid; cbn.
  - split.
    + intros p r. cbn. rewrite lookup_insert.
      case_decide as Hp; [|by apply Hmarked].
      intros [= <-]. subst. cbn. by apply Hmarked.
    + intros p r. cbn. rewrite lookup_insert.
      case_decide as Hp; [|by apply Hcov].
      intros [= <-]. subst. cbn. by apply Hcov.
  - split.
    + intros p r. cbn. rewrite lookup_insert.
      case_decide as Hp; [|by apply Hmarked].
      intros [= <-]. by subst.
    + intros p r. cbn. rewrite lookup_insert.
      case_decide as Hp.
      * intros [= <-]. subst. cbn. by rewrite lookup_insert_eq.
      * intros Hr. rewrite lookup_insert_ne; [by apply Hcov|].
        intros Hh. apply Hp. apply (R_one_id _ _ h); [done|].
        rewrite Hh. by apply Hmarked.
Qed.

Lemma pop_record_covered t pid t' :
  covered R t → pop_record t pid = Some t' → covered R t'.
Proof.
  intros [Hmarked Hcov]. unfold pop_record.
  destruct (by_id t !! pid) as [record|] eqn:Hpid; [|done].
  intros [= <-]. split.
  - intros p r. cbn. rewrite lookup_delete.
    case_decide; [done|]. by apply Hmarked.
  - intros p r. cbn. rewrite lookup_delete.
    case_decide as Hp; [done|]. intros Hr.
    rewrite lookup_delete_ne; [by apply Hcov|].
    intros Hh. apply Hp. apply (R_one_id _ _ (content_hash record)).
    + by apply Hmarked.
    + rewrite Hh. by apply Hmarked.
Qed.

Lemma remove_expired_covered ids t removed n t' :
  covered R t → remove_expired ids t removed = Some (n, t') → covered R t'.
Proof.
  revert t removed.
  induction ids as [|pid rest IH]; intros t removed Ht; cbn.
  - by intros [= _ <-].
  - destruct (pop_record t pid) as [t1|] eqn:Hpop; [|done].
    apply IH. by eapply pop_record_covered.
Qed.

Lemma run_covered ops t t' :
  (∀ pid h now, MarkSeen pid h now ∈ ops → R pid h) →
  covered R t → run ops t = Some t' → covered R t'.
Proof.
  revert t. induction ops as [|o rest IH]; intros t HR Ht; cbn.
  - by intros [= <-].
  - destruct (step t o) as [t1|] eqn:Hstep; [|done].
    apply IH.
    + intros pid h now Hin. apply (HR pid h now). by right.
    + destruct o as [pid h now|now]; cbn in Hstep.
      * injection Hstep as <-. apply mark_seen_covered; [|done].
        apply (HR pid h now). by left.
      * destruct (cleanup_expired t now) as [[n t2]|] eqn:Hclean; [|done].
        injection Hstep as <-. by eapply remove_expired_covered.
Qed.
End Covered.

(** [get_by_hash] only returns records that [get_by_id] returns too. *)
Lemma get_by_hash_get_by_id t h record :
  consistent t → get_by_hash t h = Some record →
  get_by_id t (post_id record) = Some record ∧ content_hash record = h.
Proof.
  intros [Hkey Hsound]. unfold get_by_hash, get_by_id.
  destruct (by_hash t !! h) as [pid|] eqn:Hh; [|done].
  destruct (truthy pid); [|done]. intros Hr.
  destruct (Hsound _ _ Hh) as (r & Hr' & Hrh).
  assert (r = record) as -> by congruence.
  by rewrite (Hkey _ _ Hr).
Qed.

Lemma one_id_per_hash_sound ops :
  one_id_per_hash ops = true → hash_names_one_id ops.
Proof.
  unfold one_id_per_hash. rewrite bool_decide_eq_true, Forall_forall.
  intros Hall p1 p2 h n1 n2 H1 H2.
  assert (∀ pid now, MarkSeen pid h now ∈ ops → (h, pid) ∈ marks ops) as Hin.
  { intros pid now Hop. apply list_elem_of_omap. by exists (MarkSeen pid h now). }
  specialize (Hall _ (Hin _ _ H1)). rewrite Forall_forall in Hall.
  by apply (Hall _ (Hin _ _ H2)).
Qed.

(** C1, as amended. From an empty tracker every sequence of [mark_seen] and
    [cleanup_expired] calls runs to the end, and in the tracker it leaves
    every entry of the hash index points at an id of the id index whose
    record stores that hash, so whatever [get_by_hash] returns [get_by_id]
    returns too. The converse, that every record of the id index is found
    under its stored hash, holds when no two different ids were marked with
    the same hash. *)
Theorem dedup_indexes_consistent (ops : list op) (ttl0 : Z) :
  ∃ t, run ops (new_tracker ttl0) = Some t
       ∧ hash_index_sound t
       ∧ (∀ h record, get_by_hash t h = Some record →
            get_by_id t (post_id record) = Some record)
       ∧ (hash_names_one_id ops → id_index_covered t).
Proof.
  destruct (run_consistent ops (new_tracker ttl0) (consistent_new ttl0))
    as (t & Hrun & Ht).
  exists t. split; [done|]. split; [apply Ht|]. split.
  - intros h record Hr. by destruct (get_by_hash_get_by_id t h record Ht Hr).
  - intros Hone.
    apply (covered_index (λ pid h, ∃ now, MarkSeen pid h now ∈ ops)).
    eapply run_covered; [| |apply covered_new|apply Hrun].
    + intros p1 p2 h [n1 H1] [n2 H2]. by apply (Hone p1 p2 h n1 n2).
    + intros pid h now Hin. by exists now.
Qed.

(** A trace in which each id has its own hash, run to the end. *)
Lemma dedup_indexes_consistent_witness :
  ∃ t, run [MarkSeen "p1" "h1" 0; MarkSeen "p2" "h2" 5; CleanupExpired 100;
            MarkSeen "p1" "h9" 101] (new_tracker 97) = Some t
       ∧ hash_index_sound t ∧ id_index_covered t.
Proof.
  destruct (dedup_indexes_consistent
              [MarkSeen "p1" "h1" 0; MarkSeen "p2" "h2" 5; CleanupExpired 100;
               MarkSeen "p1" "h9" 101] 97) as (t & Hrun & Hsound & _ & Hcov).
  exists t. split; [done|]. split; [done|].
  apply Hcov, one_id_per_hash_sound. by vm_compute.
Defined.

(** C1 as stated fails: two ids marked with one hash leave the first record
    in the id index while the hash index points at the second id only. *)
Lemma dedup_two_way_invariant_fails :
  ¬ (∀ (ops : list op) (ttl0 : Z) (t : DeduplicationTracker),
       run ops (new_tracker ttl0) = Some t →
       hash_index_sound t ∧ id_index_covered t).
Proof.
  intros H.
  destruct (H [MarkSeen "p1" "h1" 0; MarkSeen "p2" "h1" 1] 7776000000000 _
              eq_refl) as [_ Hcov].
  specialize (Hcov "p1" (mkSeenPost "p1" "h1" 0 0 1) eq_refl).
  vm_compute in Hcov. discriminate Hcov.
Qed.

(** C9. Marking an id that is already known rewrites its record with the new
    last-seen time and one more occurrence, keeps the stored hash, and
    leaves the hash index, the other records and the TTL as they were: the
    hash passed in is not recorded, so [has_hash] answers as before. *)
Theorem mark_seen_known_id (t : DeduplicationTracker) (pid h : string)
    (now : Z) (record : SeenPost) :
  by_id t !! pid = Some record →
  let record' := (mark_seen t pid h now).1 in
  let t' := (mark_seen t pid h now).2 in
  record' = {| post_id := post_id record;
               content_hash := content_hash record;
               first_seen_at := first_seen_at record;
               last_seen_at := now;
               seen_count := seen_count record + 1 |}
  ∧ by_id t' = <[pid := record']> (by_id t)
  ∧ get_by_id t' pid = Some record'
  ∧ (∀ other, other ≠ pid → get_by_id t' other = get_by_id t other)
  ∧ by_hash t' = by_hash t
  ∧ ttl t' = ttl t
  ∧ (∀ h', has_hash t' h' = has_hash t h')
  ∧ (has_hash t h = false → has_hash t' h = false).
Proof.
  intros Hpid. unfold mark_seen. rewrite Hpid. cbn.
  repeat split.
  - unfold get_by_id. cbn. by rewrite lookup_insert_eq.
  - intros other Hne. unfold get_by_id. cbn. by rewrite lookup_insert_ne.
  - done.
Qed.

(** A known id marked again under another hash. *)
Lemma mark_seen_known_id_witness :
  let t := (mark_seen (new_tracker 90) "p1" "h1" 10).2 in
  has_hash (mark_seen t "p1" "h2" 20).2 "h2" = false
  ∧ content_hash (mark_seen t "p1" "h2" 20).1 = "h1".
Proof.
  intros t.
  destruct (mark_seen_known_id t "p1" "h2" 20 (mkSeenPost "p1" "h1" 10 10 1)
              eq_refl) as (Hrec & _ & _ & _ & _ & _ & _ & Hhas).
  split; [by apply Hhas|]. by rewrite Hrec.
Defined.

End DedupFacts.

(** ** Comparisons on [Q] *)

Module PyFacts.

Lemma Qltb_lt x y : Py.Qltb x y = true ↔ (x < y)%Q.
Proof.
  unfold Py.Qltb. rewrite Qlt_alt. destruct (x ?= y)%Q; split; congruence.
Qed.

Lemma Qltb_ge x y : Py.Qltb x y = false ↔ (y <= x)%Q.
Proof.
  rewrite <- not_true_iff_false, Qltb_lt. split.
  - apply Qnot_lt_le.
  - apply Qle_not_lt.
Qed.

Lemma Qleb_le x y : Py.Qleb x y = true ↔ (x <= y)%Q.
Proof.
  unfold Py.Qleb. rewrite Qle_alt. destruct (x ?= y)%Q; split; congruence.
Qed.

Lemma Qleb_gt x y : Py.Qleb x y = false ↔ (y < x)%Q.
Proof.
  rewrite <- not_true_iff_false, Qleb_le. split.
  - apply Qnot_le_lt.
  - apply Qlt_not_le.
Qed.

(** On a float that is not negative [int] is the floor. *)
Lemma int_floor x : (0 <= Qnum x)%Z → Py.int x = Qfloor x.
Proof.
  intros Hx. destruct x as [n d]. cbn in *. by apply Z.quot_div_nonneg.
Qed.

End PyFacts.

(** ** The rate limiter *)

Module RateLimitFacts.
Import RateLimit PyFacts.

Lemma record_requests_config s calls :
  config (record_requests s calls) = config s.
Proof.
  revert s. induction calls as [|c rest IH]; intros s; [done|].
  cbn. unfold record_requests in IH. by rewrite IH.
Qed.




Lemma popleft_older_length cutoff d :
  (length (popleft_older cutoff d) <= length d)%nat.
Proof.
  induction d as [|t rest IH]; [done|]. cbn.
  destruct (Py.Qltb t cutoff); cbn; lia.
Qed.

(** After the cleanup the head of a deque is never older than the cutoff. *)
Lemma popleft_older_recent cutoff d t :
  head (popleft_older cutoff d) = Some t → (cutoff <= t)%Q.
Proof.
  induction d as [|t' rest IH]; [done|]. cbn.
  destruct (Py.Qltb t' cutoff) eqn:Hlt; [done|].
  intros [= ->]. by apply Qltb_ge.
Qed.

Lemma window_wait_blocking requests limit_ size now :
  window_wait (Z.of_nat (length requests)) limit_ requests size now
  = if blocking now (requests, limit_, size)
    then Some (exit_delay now (requests, limit_, size)) else None.
Proof.
  unfold window_wait, blocking, saturated, exit_delay.
  destruct (limit_ <=? Z.of_nat (length requests)); [|done]. cbn.
  by destruct (Py.Qltb _ _).
Qed.

Lemma api_wait_reset_delay a now_utc :
  api_wait a now_utc
  = match reset_delay a now_utc with
    | Some d => if Py.Qltb 0 d then Some d else None
    | None => None
    end.
Proof.
  unfold api_wait, reset_delay.
  destruct (remaining a) as [r|], (reset_at a) as [reset|]; try done.
  by destruct (r <=? 0).
Qed.

Lemma wait_time_first_blocking s now now_utc :
  (wait_time s now now_utc).1
  = first_blocking_delay (_cleanup_old_requests s now) now now_utc.
Proof.
  unfold wait_time, _get_counts, first_blocking_delay, windows.
  set (s' := _cleanup_old_requests s now).
  rewrite !window_wait_blocking, api_wait_reset_delay. cbn [List.find].
  destruct (blocking now (minute_requests s', _, _)); [done|].
  destruct (blocking now (hour_requests s', _, _)); [done|].
  destruct (blocking now (day_requests s', _, _)); [done|].
  destruct (reset_delay (api_state s') now_utc) as [d|]; [|done].
  by destruct (Py.Qltb 0 d).
Qed.

Lemma first_blocking_delay_nonneg s now now_utc : (0 <= first_blocking_delay s now now_utc)%Q.
Proof.
  unfold first_blocking_delay.
  destruct (List.find (blocking now) (windows s)) as [w|] eqn:Hfind.
  - apply find_some in Hfind as [_ Hw]. unfold blocking in Hw.
    apply andb_true_iff in Hw as [_ Hw%Qltb_lt]. by apply Qlt_le_weak.
  - destruct (reset_delay (api_state s) now_utc) as [d|]; [|apply Qle_refl].
    destruct (Py.Qltb 0 d) eqn:Hd; [|apply Qle_refl].
    apply Qltb_lt in Hd. by apply Qlt_le_weak.
Qed.

(** The upstream report holds requests back exactly when the delay until its
    reset is positive. *)
Lemma api_blocks_reset_delay a now_utc :
  api_blocks a now_utc = true
  ↔ ∃ d, reset_delay a now_utc = Some d ∧ (0 < d)%Q.
Proof.
  unfold api_blocks, reset_delay, Py.total_seconds.
  destruct (remaining a) as [r|], (reset_at a) as [reset|];
    try (split; [done|by intros (? & ? & ?)]).
  destruct (r <=? 0); cbn; [|split; [done|by intros (? & ? & ?)]].
  rewrite Z.ltb_lt. split.
  - intros Hlt. eexists; split; [done|]. unfold Qlt. cbn. lia.
  - intros (d & [= <-] & Hd). unfold Qlt in Hd. cbn in Hd. lia.
Qed.

Lemma find_blocking_none s now :
  Forall (λ w, saturated w = false) (windows s) →
  List.find (blocking now) (windows s) = None.
Proof.
  unfold windows. rewrite !Forall_cons. intros (H1 & H2 & H3 & _).
  cbn [List.find]. unfold blocking. by rewrite H1, H2, H3.
Qed.

(** [can_request()] without a budget category: no window is saturated and
    the upstream report does not block. *)
Lemma can_request_None s now now_utc :
  (can_request s now now_utc None).1 = true
  ↔ Forall (λ w, saturated w = false) (windows (_cleanup_old_requests s now))
    ∧ api_blocks (api_state s) now_utc = false.
Proof.
  unfold can_request, _get_counts, windows.
  set (s' := _cleanup_old_requests s now).
  change (api_state s) with (api_state s').
  rewrite !Forall_cons, Forall_nil. cbn [saturated].
  repeat match goal with
  | |- context [(?a <=? ?b)%Z] => destruct (a <=? b)%Z; cbn [fst]
  end; try (split; [done|intros [(? & ? & ? & _) ?]; done]).
  destruct (api_blocks (api_state s') now_utc); cbn [fst].
  - split; [done|]. by intros [_ ?].
  - done.
Qed.

(** On a deque whose timestamps never go back, the cleanup keeps exactly the
    timestamps that are not older than the cutoff. *)
Lemma popleft_older_sorted cutoff d :
  Sorted Qle d →
  popleft_older cutoff d = List.filter (λ t, Py.Qleb cutoff t) d.
Proof.
  induction d as [|t rest IH]; intros Hsorted; [done|].
  cbn. destruct (Py.Qltb t cutoff) eqn:Hlt.
  - apply Qltb_lt in Hlt.
    assert (Py.Qleb cutoff t = false) as -> by (apply Qleb_gt; lra).
    apply IH. by apply Sorted_inv in Hsorted as [? _].
  - apply Qltb_ge in Hlt.
    rewrite (proj2 (Qleb_le _ _) Hlt). f_equal.
    apply Sorted_extends in Hsorted; [|exact Qle_trans].
    clear IH. induction Hsorted as [|t' rest' Ht' _ IH']; [done|].
    cbn. assert (Py.Qleb cutoff t' = true) as ->
      by (apply Qleb_le; lra).
    by f_equal.
Qed.

Lemma total_seconds_pos d : (0 < Py.total_seconds d)%Q ↔ 0 < d.
Proof. unfold Py.total_seconds, Qlt. cbn. lia. Qed.













(** C10. Once the usage of the reserve category has reached
    [floor(requests_per_minute * 0.10)], [can_request(RESERVE)] answers no,
    whatever the windows hold: the test that lets a spent category borrow
    looks at the reserve's own remainder, which is then zero or less. *)
Theorem reserve_cannot_borrow (s : RateLimiter) (now : Q) (now_utc : Z) :
  (Qfloor (inject_Z (requests_per_minute (config s))
           * BUDGET_ALLOCATION RESERVE)
   <= default 0 (budget_usage s !! RESERVE))%Z →
  (can_request s now now_utc (Some RESERVE)).1 = false.
Proof.
  intros Hused. unfold can_request, _get_counts.
  set (s' := _cleanup_old_requests s now).
  set (rpm := requests_per_minute (config s)) in *.
  change (requests_per_minute (config s')) with rpm.
  destruct (rpm <=? Z.of_nat (length (minute_requests s'))) eqn:Hmin; [done|].
  destruct (requests_per_hour (config s')
            <=? Z.of_nat (length (hour_requests s'))); [done|].
  destruct (requests_per_day (config s')
            <=? Z.of_nat (length (day_requests s'))); [done|].
  destruct (api_blocks (api_state s') now_utc); [done|].
  assert (0 <= rpm)%Z by (apply Z.leb_gt in Hmin; lia).
  unfold budget_blocks.
  change (requests_per_minute (config s')) with rpm.
  change (budget_usage s') with (budget_usage s).
  rewrite int_floor by (cbn; lia).
  rewrite (proj2 (Z.leb_le _ _) Hused).
  assert ((Qfloor (inject_Z rpm * BUDGET_ALLOCATION RESERVE)
           - default 0 (budget_usage s !! RESERVE) <=? 0)%Z = true) as ->
    by (apply Z.leb_le; lia).
  done.
Qed.

(** Ten reserve requests used out of a reserve of ten, with the three
    windows far below their limits. *)
Lemma reserve_cannot_borrow_witness :
  let s := record_requests (new_limiter default_limit_config)
             (replicate 10 (5%Q, RESERVE)) in
  (can_request s 20 0 (Some RESERVE)).1 = false
  ∧ (can_request s 20 0 None).1 = true.
Proof.
  intros s. split; [|by vm_compute].
  apply (reserve_cannot_borrow s 20 0). by vm_compute.
Defined.

End RateLimitFacts.

(** ** The backoff handler *)

Module BackoffFacts.
Import Backoff PyFacts.

Lemma get_state_config h endpoint : config (_get_state h endpoint).2 = config h.
Proof. unfold _get_state. by destruct (endpoint_states h !! endpoint). Qed.

Lemma get_state_lookup h endpoint :
  endpoint_states (_get_state h endpoint).2 !! endpoint
  = Some (_get_state h endpoint).1.
Proof.
  unfold _get_state.
  destruct (endpoint_states h !! endpoint) eqn:Hs; cbn; [done|].
  by rewrite lookup_insert_eq.
Qed.

Lemma get_state_known h endpoint state :
  endpoint_states h !! endpoint = Some state →
  _get_state h endpoint = (state, h).
Proof. unfold _get_state. by intros ->. Qed.

Lemma calculate_delay_handler h endpoint error_type retry jitter :
  (calculate_delay h endpoint error_type retry jitter).2
  = (_get_state h endpoint).2.
Proof.
  unfold calculate_delay. destruct (_get_state h endpoint) as [state h'].
  destruct (decide (error_type = CLIENT_ERROR)); [done|].
  by destruct (positive_retry_after retry).
Qed.

Lemma new_handler_state cfg endpoint :
  (_get_state (new_handler cfg) endpoint).1 = new_state.
Proof. unfold _get_state, new_handler. cbn. by rewrite lookup_empty. Qed.

(** After [record_error] the endpoint has the state [BackoffState.record_error]
    makes of its former state. *)
Lemma record_error_lookup h endpoint error_type retry now1 now2 jitter :
  endpoint_states
    (record_error h endpoint error_type retry now1 now2 jitter).2 !! endpoint
  = Some (State.record_error (_get_state h endpoint).1 error_type retry
                             now1 now2).
Proof.
  unfold record_error. destruct (_get_state h endpoint) as [state h1]. cbn.
  rewrite calculate_delay_handler.
  erewrite get_state_known; [|apply lookup_insert_eq].
  apply lookup_insert_eq.
Qed.

Lemma record_error_config h endpoint error_type retry now1 now2 jitter :
  config (record_error h endpoint error_type retry now1 now2 jitter).2
  = config h.
Proof.
  unfold record_error.
  pose proof (get_state_config h endpoint) as Hcfg.
  destruct (_get_state h endpoint) as [state h1]. cbn in *.
  by rewrite calculate_delay_handler, get_state_config.
Qed.

Lemma record_errors_config h endpoint error_type calls :
  config (record_errors h endpoint error_type calls) = config h.
Proof.
  revert h. induction calls as [|[[[retry now1] now2] jitter] rest IH];
    intros h; [done|].
  cbn. unfold record_errors in IH. by rewrite IH, record_error_config.
Qed.

(** Each recorded error adds one to the error count of the endpoint. *)
Lemma record_errors_count h endpoint error_type calls :
  calls ≠ [] →
  ∃ state,
    endpoint_states (record_errors h endpoint error_type calls) !! endpoint
    = Some state
    ∧ error_count state
      = (error_count (_get_state h endpoint).1 + Z.of_nat (length calls))%Z.
Proof.
  revert h. induction calls as [|[[[retry now1] now2] jitter] rest IH];
    intros h Hne; [done|].
  cbn [record_errors foldl].
  set (h1 := (record_error h endpoint error_type retry now1 now2 jitter).2).
  assert (Hh1 : endpoint_states h1 !! endpoint
                = Some (State.record_error (_get_state h endpoint).1
                          error_type retry now1 now2))
    by apply record_error_lookup.
  destruct rest as [|c rest'].
  - cbn. eexists; split; [done|]. cbn. lia.
  - destruct (IH h1) as (state & Hstate & Hcount); [done|].
    exists state. split; [done|].
    rewrite Hcount, (get_state_known _ _ _ Hh1). cbn [fst length].
    cbn [State.record_error error_count]. lia.
Qed.

(** Without a retry-after value and for an error that is not a client error,
    the delay is the backoff of the error count, jittered and capped. *)
Lemma calculate_delay_backoff h endpoint error_type jitter state :
  endpoint_states h !! endpoint = Some state →
  error_type ≠ CLIENT_ERROR →
  (calculate_delay h endpoint error_type None jitter).1
  = Qmin (base_backoff (config h) state error_type * jitter)
         (max_delay (config h)).
Proof.
  intros Hstate Hne. unfold calculate_delay.
  rewrite (get_state_known _ _ _ Hstate).
  by destruct (decide (error_type = CLIENT_ERROR)).
Qed.

(** C4. For a client error [calculate_delay] returns 0 and [should_retry]
    answers no, whatever the endpoint, its state and the retry-after value.
    For every other kind of error a retry-after of 30 seconds makes
    [calculate_delay] return [min(30, max_delay)]: the jitter drawn and the
    error count play no part. *)
Theorem client_error_and_retry_after (h : BackoffHandler) (endpoint : string)
    (retry_after_seconds : option Q) (jitter : Q) :
  (calculate_delay h endpoint CLIENT_ERROR retry_after_seconds jitter).1 = 0%Q
  ∧ (should_retry h endpoint CLIENT_ERROR).1 = false
  ∧ (∀ error_type, error_type ≠ CLIENT_ERROR →
       (calculate_delay h endpoint error_type (Some 30%Q) jitter).1
       = Qmin 30 (max_delay (config h))).
Proof.
  split; [|split].
  - unfold calculate_delay. by destruct (_get_state h endpoint).
  - done.
  - intros error_type Hne. unfold calculate_delay.
    pose proof (get_state_config h endpoint) as Hcfg.
    destruct (_get_state h endpoint) as [state h']. cbn in Hcfg.
    destruct (decide (error_type = CLIENT_ERROR)); [done|].
    cbn. by rewrite Hcfg.
Qed.

(** A rate-limited endpoint with a retry-after of 30 seconds. *)
Lemma client_error_and_retry_after_witness :
  (calculate_delay (new_handler default_backoff_config) "posts" RATE_LIMITED
     (Some 30%Q) (11 # 10)).1 = 30%Q.
Proof.
  destruct (client_error_and_retry_after (new_handler default_backoff_config) "posts"
              None (11 # 10)) as (_ & _ & H).
  by rewrite (H RATE_LIMITED).
Defined.

(** C7. With a base delay of 1 and a maximum exponent of 8, and a maximum
    delay that does not cut in (at least 9.6 seconds; the default is 300),
    three server errors recorded for an endpoint that had none leave it with
    an error count of 3, for which the delay before jitter is
    [1 * 2^3 = 8] seconds and the delay [calculate_delay] returns lies
    between 6.4 and 9.6 seconds for every jitter factor between 0.8 and
    1.2. *)
Theorem three_server_errors_delay (h0 : BackoffHandler) (endpoint : string)
    (calls : list error_call) (jitter : Q) :
  let cfg := config h0 in
  (base_delay cfg == 1)%Q →
  max_exponent cfg = 8%Z →
  (96 # 10 <= max_delay cfg)%Q →
  error_count (_get_state h0 endpoint).1 = 0%Z →
  length calls = 3%nat →
  (8 # 10 <= jitter)%Q → (jitter <= 12 # 10)%Q →
  let h := record_errors h0 endpoint SERVER_ERROR calls in
  ∃ state,
    endpoint_states h !! endpoint = Some state
    ∧ error_count state = 3%Z
    ∧ (base_backoff cfg state SERVER_ERROR == 8)%Q
    ∧ (64 # 10 <= (calculate_delay h endpoint SERVER_ERROR None jitter).1)%Q
    ∧ ((calculate_delay h endpoint SERVER_ERROR None jitter).1 <= 96 # 10)%Q.
Proof.
  intros cfg Hbase Hexp Hmax Hzero Hlen Hlo Hhi h.
  destruct (record_errors_count h0 endpoint SERVER_ERROR calls)
    as (state & Hstate & Hcount); [by destruct calls|].
  fold h in Hstate. rewrite Hlen, Hzero in Hcount.
  change (error_count state = 3%Z) in Hcount.
  assert (Hcfg : config h = cfg) by apply record_errors_config.
  assert (Hraw : (base_backoff cfg state SERVER_ERROR == 8)%Q).
  { unfold base_backoff. rewrite Hcount, Hexp.
    change (Qpower 2 (Z.min 3 8)) with 8%Q. lra. }
  exists state. split; [done|]. split; [done|]. split; [done|].
  rewrite (calculate_delay_backoff _ _ _ _ _ Hstate), Hcfg by done.
  set (raw := base_backoff cfg state SERVER_ERROR) in *.
  split.
  - apply Q.min_glb; [|lra]. nra.
  - eapply Qle_trans; [apply Q.le_min_l|]. nra.
Qed.

(** The default configuration, three errors and the largest jitter. *)
Lemma three_server_errors_delay_witness :
  let h := record_errors (new_handler default_backoff_config) "posts" SERVER_ERROR
             [(None, 1, 2, 1%Q); (Some 5%Q, 3, 4, 1%Q); (None, 5, 6, 1%Q)] in
  ((calculate_delay h "posts" SERVER_ERROR None (12 # 10)).1 <= 96 # 10)%Q.
Proof.
  intros h.
  destruct (three_server_errors_delay (new_handler default_backoff_config) "posts"
              [(None, 1, 2, 1%Q); (Some 5%Q, 3, 4, 1%Q); (None, 5, 6, 1%Q)]
              (12 # 10)) as (state & _ & _ & _ & _ & H);
    [reflexivity|reflexivity|by vm_compute|reflexivity|reflexivity
    |by vm_compute|by vm_compute|].
  exact H.
Defined.

(** Every success adds one to the success counter. *)
Lemma record_success_successes s :
  consecutive_successes (State.record_success s)
  = (consecutive_successes s + 1)%Z.
Proof. unfold State.record_success. by destruct (3 <=? _)%Z. Qed.

(** The success counter of a state the code can build is never negative. *)
Lemma successes_nonneg (ops : list state_op) :
  (0 <= consecutive_successes (run_state_ops new_state ops))%Z.
Proof.
  assert (∀ s, (0 <= consecutive_successes s)%Z →
               (0 <= consecutive_successes (run_state_ops s ops))%Z) as H.
  { induction ops as [|o rest IH]; intros s Hs; [done|].
    cbn. apply IH. destruct o; cbn; [lia| |lia].
    rewrite record_success_successes. lia. }
  by apply H.
Qed.

(** C8. Three calls of [record_success] in a row, from any state whose
    success counter is not negative (as it never is: it starts at zero and
    is only incremented or set to zero), leave the error count at 0 and
    both the last error type and the retry-after time cleared. *)
Theorem three_successes_reset (s : BackoffState) :
  (0 <= consecutive_successes s)%Z →
  let s3 := State.record_success
              (State.record_success (State.record_success s)) in
  error_count s3 = 0%Z ∧ last_error_type s3 = None ∧ retry_after s3 = None.
Proof.
  intros Hs s3. subst s3.
  set (s2 := State.record_success (State.record_success s)).
  assert (consecutive_successes s2 = consecutive_successes s + 2)%Z as Hs2.
  { unfold s2. rewrite !record_success_successes. lia. }
  unfold State.record_success at 1 2 3.
  assert ((3 <=? consecutive_successes s2 + 1)%Z = true) as ->
    by (apply Z.leb_le; lia).
  done.
Qed.

(** Seven errors, a retry-after and one earlier success. *)
Lemma three_successes_reset_witness :
  let s := {| error_count := 7; last_error_at := Some 10;
              last_error_type := Some RATE_LIMITED; retry_after := Some 40;
              consecutive_successes := 0 |} in
  let s3 := State.record_success
              (State.record_success (State.record_success s)) in
  error_count s3 = 0%Z ∧ last_error_type s3 = None ∧ retry_after s3 = None.
Proof.
  intros s. apply (three_successes_reset s). cbn. lia.
Defined.

End BackoffFacts.

(** ** The robots rules *)

Module RobotsFacts.
Import Robots.

Lemma first_match_cons rule rest p :
  first_match (rule :: rest) p
  = if matches rule p then allow rule else first_match rest p.
Proof. done. Qed.

(** Rules that do not match are skipped. *)
Lemma first_match_skip before rest p :
  Forall (λ r, matches r p = false) before →
  first_match (before ++ rest) p = first_match rest p.
Proof.
  induction 1 as [|r before Hr _ IH]; [done|].
  cbn [app]. by rewrite first_match_cons, Hr.
Qed.

(** *** What the patterns match *)

Lemma at_end_spec s : at_end s = true ↔ s = [] ∨ s = [newline].
Proof.
  destruct s as [|c [|c' s']]; cbn.
  - split; [by left|done].
  - rewrite bool_decide_eq_true. split; [intros ->; by right|].
    by intros [?|[= ->]].
  - split; [done|]. by intros [?|?].
Qed.

(** Literal atoms take the same characters off the front of the path. *)
Lemma match_atoms_app to_end l r s :
  match_atoms to_end ((Lit <$> l) ++ r) s = true
  ↔ ∃ rest, s = l ++ rest ∧ match_atoms to_end r rest = true.
Proof.
  revert s. induction l as [|c l IH]; intros s; cbn.
  - split; [intros Hr; by exists s|]. by intros (rest & -> & Hr).
  - destruct s as [|c' s'].
    + split; [done|]. by intros (rest & ? & _).
    + rewrite andb_true_iff, bool_decide_eq_true, IH. split.
      * intros [-> (rest & -> & Hr)]. by exists rest.
      * intros (rest & [= -> ->] & Hr). split; [done|]. by exists rest.
Qed.

(** Literal atoms match the paths that start with the same characters. *)
Lemma match_atoms_literal to_end l s :
  match_atoms to_end (Lit <$> l) s = true
  ↔ ∃ rest, s = l ++ rest ∧ (to_end = true → at_end rest = true).
Proof.
  rewrite <- (app_nil_r (Lit <$> l)), match_atoms_app. cbn.
  split; intros (rest & -> & Hr); exists rest; (split; [done|]).
  - intros ->. done.
  - destruct to_end; [by apply Hr|done].
Qed.

(** The wildcard takes any run of characters without a newline. *)
Lemma match_star_spec match_rest s :
  match_star match_rest s = true
  ↔ ∃ mid rest,
      s = mid ++ rest ∧ (newline ∉ mid) ∧ match_rest rest = true.
Proof.
  induction s as [|c s IH]; cbn.
  - rewrite orb_false_r. split.
    + intros Hrest. exists [], []. split; [done|]. split; [|done].
      apply not_elem_of_nil.
    + intros (mid & rest & Heq & _ & Hrest).
      symmetry in Heq. apply app_eq_nil in Heq as [_ ->]. done.
  - rewrite orb_true_iff, andb_true_iff, negb_true_iff, bool_decide_eq_false,
      IH.
    split.
    + intros [Hrest|[Hc (mid & rest & -> & Hmid & Hrest)]].
      * exists [], (c :: s). split; [done|]. split; [|done].
        apply not_elem_of_nil.
      * exists (c :: mid), rest. split; [done|]. split; [|done].
        rewrite not_elem_of_cons. split; [congruence|done].
    + intros (mid & rest & Heq & Hmid & Hrest).
      destruct mid as [|c' mid]; cbn in Heq.
      * left. by subst rest.
      * right. injection Heq as <- ->.
        apply not_elem_of_cons in Hmid as [Hc Hmid].
        split; [congruence|]. by exists mid, rest.
Qed.

Lemma replace_star_literal l :
  star ∉ l → replace_star (Lit <$> l) = Lit <$> l.
Proof.
  unfold replace_star. induction l as [|c l IH]; [done|].
  intros [Hc Hl]%not_elem_of_cons. cbn.
  destruct (decide (c = star)); [congruence|]. f_equal. by apply IH.
Qed.

Lemma replace_star_app l1 l2 :
  replace_star (l1 ++ l2) = replace_star l1 ++ replace_star l2.
Proof. apply fmap_app. Qed.

Lemma anchor_no_dollar l :
  last l ≠ Some (Lit dollar) →
  anchor l = {| anchor_start := true; atoms := l; anchor_end := false |}.
Proof.
  unfold anchor. destruct (last l) as [[c|]|]; try done.
  destruct (decide (c = dollar)); [congruence|done].
Qed.

Lemma anchor_dollar l :
  anchor (l ++ [Lit dollar])
  = {| anchor_start := false; atoms := l; anchor_end := true |}.
Proof.
  unfold anchor. rewrite last_snoc, removelast_last.
  by destruct (decide (dollar = dollar)).
Qed.

Lemma last_literal_not_dollar l :
  last l ≠ Some dollar → last (Lit <$> l) ≠ Some (Lit dollar).
Proof. rewrite fmap_last. destruct (last l); cbn; congruence. Qed.

(** What [RobotsRule.matches] makes of a rule path, by the shape of the
    path: plain, closed by [$], or with one [*]. *)
Lemma compile_literal lit :
  star ∉ lit → last lit ≠ Some dollar →
  anchor (replace_star (re_escape (String.string_of_list_ascii lit)))
  = {| anchor_start := true; atoms := Lit <$> lit; anchor_end := false |}.
Proof.
  intros Hstar Hlast. unfold re_escape.
  rewrite String.list_ascii_of_string_of_list_ascii,
    (replace_star_literal _ Hstar).
  by apply anchor_no_dollar, last_literal_not_dollar.
Qed.

Lemma compile_end_anchor lit :
  star ∉ lit →
  anchor (replace_star
            (re_escape (String.string_of_list_ascii (lit ++ [dollar]))))
  = {| anchor_start := false; atoms := Lit <$> lit; anchor_end := true |}.
Proof.
  intros Hstar. unfold re_escape.
  rewrite String.list_ascii_of_string_of_list_ascii, fmap_app,
    replace_star_app, (replace_star_literal _ Hstar).
  apply anchor_dollar.
Qed.

Lemma compile_wildcard pre post :
  star ∉ pre → star ∉ post → last post ≠ Some dollar →
  anchor (replace_star
            (re_escape (String.string_of_list_ascii (pre ++ star :: post))))
  = {| anchor_start := true;
       atoms := (Lit <$> pre) ++ AnyStar :: (Lit <$> post);
       anchor_end := false |}.
Proof.
  intros Hpre Hpost Hlast. unfold re_escape.
  rewrite String.list_ascii_of_string_of_list_ascii, fmap_app,
    replace_star_app, (replace_star_literal _ Hpre), fmap_cons.
  change (replace_star (Lit star :: (Lit <$> post)))
    with (AnyStar :: replace_star (Lit <$> post)).
  rewrite (replace_star_literal _ Hpost).
  apply anchor_no_dollar. rewrite last_app_cons.
  destruct post as [|c post']; [done|].
  by apply (last_literal_not_dollar (c :: post')).
Qed.

(** A rule path without [*] and without a closing [$] matches the paths it
    is a prefix of. *)
Lemma matches_literal (lit : list ascii) (a : bool) (p : string) :
  star ∉ lit → last lit ≠ Some dollar →
  matches (mkRule (String.string_of_list_ascii lit) a) p = true
  ↔ lit `prefix_of` String.list_ascii_of_string p.
Proof.
  intros Hstar Hlast. unfold matches, re_match. cbn [path].
  rewrite (compile_literal _ Hstar Hlast). cbn [atoms anchor_end].
  rewrite match_atoms_literal. split.
  - intros (rest & Hp & _). by exists rest.
  - intros [rest Hp]. by exists rest.
Qed.

(** A rule path [lit$] without [*] matches the path [lit] and nothing
    longer, but for one closing newline. *)
Lemma matches_end_anchor (lit : list ascii) (a : bool) (p : string) :
  star ∉ lit →
  matches (mkRule (String.string_of_list_ascii (lit ++ [dollar])) a) p = true
  ↔ String.list_ascii_of_string p = lit
    ∨ String.list_ascii_of_string p = lit ++ [newline].
Proof.
  intros Hstar. unfold matches, re_match. cbn [path].
  rewrite (compile_end_anchor _ Hstar). cbn [atoms anchor_end].
  rewrite match_atoms_literal. split.
  - intros (rest & -> & Hend). specialize (Hend eq_refl).
    apply at_end_spec in Hend as [->| ->]; [left|right]; by rewrite ?app_nil_r.
  - intros [-> | ->].
    + exists []. by rewrite app_nil_r.
    + by exists [newline].
Qed.

(** A rule path [pre*post], with no other [*] and no closing [$], matches
    the paths that start with [pre], go on with any characters but a newline,
    and then with [post]. *)
Lemma matches_wildcard (pre post : list ascii) (a : bool) (p : string) :
  star ∉ pre → star ∉ post → last post ≠ Some dollar →
  matches (mkRule (String.string_of_list_ascii (pre ++ star :: post)) a) p
  = true
  ↔ ∃ mid rest, String.list_ascii_of_string p = pre ++ mid ++ post ++ rest
                ∧ newline ∉ mid.
Proof.
  intros Hpre Hpost Hlast. unfold matches, re_match. cbn [path].
  rewrite (compile_wildcard _ _ Hpre Hpost Hlast). cbn [atoms anchor_end].
  rewrite match_atoms_app. cbn [match_atoms]. split.
  - intros (rest & -> & Hstar).
    apply match_star_spec in Hstar as (mid & rest' & -> & Hmid & Hpost').
    apply match_atoms_literal in Hpost' as (rest'' & -> & _).
    by exists mid, rest''.
  - intros (mid & rest & -> & Hmid).
    exists (mid ++ post ++ rest). split; [done|].
    apply match_star_spec. exists mid, (post ++ rest).
    split; [done|]. split; [done|].
    apply match_atoms_literal. by exists rest.
Qed.

(** C6. The rules of a directive set are tried in the order they were
    declared: the first rule that matches the path decides with its
    allow/deny flag, and a path that no rule matches is allowed. On the
    patterns: [Disallow: /admin/] blocks [/admin/settings] and allows
    [/public]; [Disallow: /page$] blocks [/page] and allows [/page/subpage];
    [Allow: /admin/public/] declared before [Disallow: /admin/] allows
    [/admin/public/] (and the opposite order blocks it); and the wildcard in
    [Disallow: /*.php] blocks [/a/b.php]. In general a path [lit$] matches
    [lit] alone (a closing newline apart), and a path [pre*post] matches
    whatever starts with [pre], some characters other than a newline, and
    [post]. *)
Theorem first_matching_rule_wins :
  (∀ d p before rule after,
     rules d = before ++ rule :: after →
     Forall (λ r, matches r p = false) before →
     matches rule p = true →
     is_allowed d p = allow rule)
  ∧ (∀ d p, Forall (λ r, matches r p = false) (rules d) →
       is_allowed d p = true)
  ∧ (let d := mkDirectives "*" [mkRule "/admin/" false] None [] in
     is_allowed d "/admin/settings" = false ∧ is_allowed d "/public" = true)
  ∧ (let d := mkDirectives "*" [mkRule "/page$" false] None [] in
     is_allowed d "/page" = false ∧ is_allowed d "/page/subpage" = true)
  ∧ (let d := mkDirectives "*" [mkRule "/admin/public/" true;
                                mkRule "/admin/" false] None [] in
     is_allowed d "/admin/public/" = true
     ∧ is_allowed d "/admin/settings" = false)
  ∧ (let d := mkDirectives "*" [mkRule "/admin/" false;
                                mkRule "/admin/public/" true] None [] in
     is_allowed d "/admin/public/" = false)
  ∧ (let d := mkDirectives "*" [mkRule "/*.php" false] None [] in
     is_allowed d "/a/b.php" = false ∧ is_allowed d "/a/b.html" = true)
  ∧ (∀ lit a p,
       star ∉ lit →
       matches (mkRule (String.string_of_list_ascii (lit ++ [dollar])) a) p
       = true
       ↔ String.list_ascii_of_string p = lit
         ∨ String.list_ascii_of_string p = lit ++ [newline])
  ∧ (∀ pre post a p,
       star ∉ pre → star ∉ post → last post ≠ Some dollar →
       matches (mkRule (String.string_of_list_ascii (pre ++ star :: post)) a)
               p = true
       ↔ ∃ mid rest,
           String.list_ascii_of_string p = pre ++ mid ++ post ++ rest
           ∧ newline ∉ mid).
Proof.
  split; [|split].
  - intros d p before rule after Hrules Hskip Hmatch.
    unfold is_allowed. rewrite Hrules, (first_match_skip _ _ _ Hskip).
    by rewrite first_match_cons, Hmatch.
  - intros d p Hnone. unfold is_allowed.
    rewrite <- (app_nil_r (rules d)). by rewrite (first_match_skip _ _ _ Hnone).
  - repeat (split; [by vm_compute|]). split.
    + intros lit a p. apply matches_end_anchor.
    + intros pre post a p. apply matches_wildcard.
Qed.

(** The allow rule in front of the disallow rule it overlaps with. *)
Lemma first_matching_rule_wins_witness :
  is_allowed (mkDirectives "*" [mkRule "/private/" false;
                                mkRule "/admin/public/" true;
                                mkRule "/admin/" false] None [])
             "/admin/public/" = true.
Proof.
  destruct first_matching_rule_wins as [H _].
  apply (H _ "/admin/public/" [mkRule "/private/" false]
           (mkRule "/admin/public/" true) [mkRule "/admin/" false]).
  - reflexivity.
  - by repeat constructor.
  - reflexivity.
Defined.

End RobotsFacts.

(** ** The adaptive polling interval *)

Module SchedulerFacts.
Import PyFacts.

(** Halving a configured default interval is exact. *)
Lemma half_default e config :
  Scheduler.DEFAULT_INTERVALS e = Some config →
  Py.timedelta_mul_float (Scheduler.default config) (1 # 2)
  = (Scheduler.default config / 2)%Z
  ∧ (2 * (Scheduler.default config / 2) = Scheduler.default config)%Z.
Proof. destruct e; intros [= <-]; by vm_compute. Qed.

Lemma cleanup_all_old tr now :
  Forall (λ sample : Z * Z, (sample.1 <= now - Scheduler.window_size tr)%Z)
         (Scheduler.samples tr) →
  Scheduler.samples (Scheduler._cleanup_old_samples tr now) = [].
Proof.
  unfold Scheduler._cleanup_old_samples. cbn.
  induction 1 as [|sample l Hold _ IH]; [done|].
  rewrite filter_cons_False; [done|lia].
Qed.

(** With every sample out of the window there is nothing to call a spike. *)
Lemma is_spiking_all_old tr now :
  Forall (λ sample : Z * Z, (sample.1 <= now - Scheduler.window_size tr)%Z)
         (Scheduler.samples tr) →
  Scheduler.is_spiking tr now 3
  = (false, Scheduler._cleanup_old_samples tr now).
Proof.
  intros Hold. unfold Scheduler.is_spiking.
  by rewrite (cleanup_all_old tr now Hold).
Qed.

Lemma cleanup_window_size tr now :
  Scheduler.window_size (Scheduler._cleanup_old_samples tr now)
  = Scheduler.window_size tr.
Proof. done. Qed.

(** A tracker without samples is not spiking, not busy, and quiet. *)
Lemma no_samples_tests tr now :
  Scheduler.samples tr = [] →
  (Scheduler.is_spiking tr now 3).1 = false
  ∧ (Scheduler.is_high_activity tr now 10).1 = false
  ∧ (Scheduler.is_low_activity tr now 1).1 = true
  ∧ Scheduler.samples (Scheduler.is_spiking tr now 3).2 = []
  ∧ Scheduler.samples (Scheduler.is_high_activity tr now 10).2 = []
  ∧ Scheduler.samples (Scheduler.is_low_activity tr now 1).2 = [].
Proof.
  intros Hnone.
  unfold Scheduler.is_spiking, Scheduler.is_high_activity,
    Scheduler.is_low_activity, Scheduler.get_rate,
    Scheduler._cleanup_old_samples.
  rewrite Hnone. by cbn.
Qed.

(** C5. For a category with a configured interval, the adaptive interval is
    the minimum when [is_spiking] answers yes; else the larger of half the
    default and the minimum when [is_high_activity] answers yes; else the
    smaller of twice the default and the maximum when [is_low_activity]
    answers yes; else the default. The three tests run in this order, each on
    the samples the one before left. For the new-posts category (5 minutes,
    1 minute, 30 minutes) and a tracker whose samples have all left the
    window, the interval is min(10 minutes, 30 minutes) = 10 minutes. *)
Theorem adaptive_interval_cases (tr : Scheduler.ActivityTracker)
    (e : Scheduler.EndpointType) (config : Scheduler.PollingInterval)
    (now1 now2 now3 : Z) :
  Scheduler.DEFAULT_INTERVALS e = Some config →
  let spiking := Scheduler.is_spiking tr now1 3 in
  let high := Scheduler.is_high_activity spiking.2 now2 10 in
  let low := Scheduler.is_low_activity high.2 now3 1 in
  (Scheduler._get_adaptive_interval tr e now1 now2 now3).1
  = Scheduler.adaptive_interval_spec config spiking.1 high.1 low.1
  ∧ (2 * (Scheduler.default config / 2) = Scheduler.default config)%Z
  ∧ (e = Scheduler.NEW_POSTS →
     Forall (λ sample : Z * Z,
               (sample.1 <= now1 - Scheduler.window_size tr)%Z)
            (Scheduler.samples tr) →
     spiking.1 = false ∧ high.1 = false ∧ low.1 = true
     ∧ (Scheduler._get_adaptive_interval tr e now1 now2 now3).1
       = Z.min (Scheduler.minutes 10) (Scheduler.minutes 30)
     ∧ (Scheduler._get_adaptive_interval tr e now1 now2 now3).1
       = Scheduler.minutes 10).
Proof.
  intros Hconfig spiking high low.
  destruct (half_default e config Hconfig) as [Hhalf Hexact].
  assert (Hspec : (Scheduler._get_adaptive_interval tr e now1 now2 now3).1
                  = Scheduler.adaptive_interval_spec config spiking.1 high.1 low.1).
  { unfold Scheduler._get_adaptive_interval, Scheduler.adaptive_interval_spec.
    rewrite Hconfig, Hhalf. subst low high spiking.
    destruct (Scheduler.is_spiking tr now1 3) as [[] tr1]; [done|].
    cbn [fst snd].
    destruct (Scheduler.is_high_activity tr1 now2 10) as [[] tr2]; [done|].
    cbn [fst snd].
    by destruct (Scheduler.is_low_activity tr2 now3 1) as [[] tr3]. }
  split; [done|]. split; [done|].
  intros -> Hold. injection Hconfig as <-.
  assert (Hnone : Scheduler.samples spiking.2 = []).
  { subst spiking. rewrite (is_spiking_all_old tr now1 Hold).
    by apply cleanup_all_old. }
  assert (Hspiking : spiking.1 = false).
  { subst spiking. by rewrite (is_spiking_all_old tr now1 Hold). }
  destruct (no_samples_tests spiking.2 now2 Hnone)
    as (_ & Hhigh & _ & _ & Hnone2 & _).
  destruct (no_samples_tests high.2 now3 Hnone2) as (_ & _ & Hlow & _).
  fold high in Hhigh. fold low in Hlow.
  rewrite Hspec, Hspiking, Hhigh, Hlow. by vm_compute.
Qed.

(** The new-posts category polled with an empty activity tracker. *)
Lemma adaptive_interval_cases_witness :
  (Scheduler._get_adaptive_interval Scheduler.new_activity_tracker Scheduler.NEW_POSTS
     1000 1001 1002).1 = Scheduler.minutes 10.
Proof.
  destruct (adaptive_interval_cases Scheduler.new_activity_tracker Scheduler.NEW_POSTS
              (Scheduler.mkInterval (Scheduler.minutes 5)
                 (Scheduler.minutes 1) (Scheduler.minutes 30))
              1000 1001 1002 eq_refl) as (_ & _ & H).
  destruct H as (_ & _ & _ & _ & H); [reflexivity|constructor|].
  exact H.
Defined.

End SchedulerFacts.

(** ** More on the deduplication tracker *)

Module DedupMore.
Import Dedup DedupFilter DedupFacts.

(** *** What [cleanup_expired] removes *)

Lemma remove_expired_ttl ids t removed n t' :
  remove_expired ids t removed = Some (n, t') → ttl t' = ttl t.
Proof.
  revert t removed. induction ids as [|x rest IH]; intros t removed; cbn.
  - by intros [= _ <-].
  - unfold pop_record. destruct (by_id t !! x) as [r|]; [|done].
    intros Hrest. by rewrite (IH _ _ Hrest).
Qed.

Lemma remove_expired_by_id ids t removed n t' p :
  remove_expired ids t removed = Some (n, t') →
  by_id t' !! p = if decide (p ∈ ids) then None else by_id t !! p.
Proof.
  revert t removed. induction ids as [|x rest IH]; intros t removed; cbn.
  - intros [= _ <-]. rewrite decide_False; [done|]. apply not_elem_of_nil.
  - unfold pop_record. destruct (by_id t !! x) as [r|] eqn:Hx; [|done].
    intros Hrest. rewrite (IH _ _ Hrest). cbn.
    destruct (decide (p ∈ rest)) as [Hin|Hout].
    + rewrite decide_True; [done|]. by right.
    + destruct (decide (p = x)) as [->|Hne].
      * rewrite decide_True by left. apply lookup_delete_eq.
      * rewrite decide_False; [by apply lookup_delete_ne|].
        rewrite elem_of_cons. by intros [?|?].
Qed.

(** The loop only takes entries out of the hash index. *)
Lemma remove_expired_by_hash_kept ids t removed n t' h pid :
  remove_expired ids t removed = Some (n, t') →
  by_hash t' !! h = Some pid → by_hash t !! h = Some pid.
Proof.
  revert t removed. induction ids as [|x rest IH]; intros t removed; cbn.
  - by intros [= _ <-].
  - unfold pop_record. destruct (by_id t !! x) as [r|] eqn:Hx; [|done].
    intros Hrest Hh. specialize (IH _ _ Hrest Hh). cbn in IH.
    by apply lookup_delete_Some in IH as [_ ?].
Qed.

Lemma remove_expired_by_hash_gone ids t removed n t' p r :
  NoDup ids → remove_expired ids t removed = Some (n, t') →
  p ∈ ids → by_id t !! p = Some r →
  by_hash t' !! content_hash r = None.
Proof.
  revert t removed. induction ids as [|x rest IH]; intros t removed Hnd; cbn.
  - intros _ Hin. by apply elem_of_nil in Hin.
  - apply NoDup_cons in Hnd as [Hx Hnd].
    unfold pop_record. destruct (by_id t !! x) as [rx|] eqn:Hrx; [|done].
    intros Hrest Hin Hr.
    destruct (decide (p ∈ rest)) as [Hrest_in|Hnot].
    + apply (IH _ _ Hnd Hrest Hrest_in). cbn.
      rewrite lookup_delete_ne; [done|]. by intros ->.
    + apply elem_of_cons in Hin as [->|?]; [|done].
      assert (rx = r) as -> by congruence.
      destruct (by_hash t' !! content_hash r) as [v|] eqn:Hv; [|done].
      pose proof (remove_expired_by_hash_kept _ _ _ _ _ _ _ Hrest Hv) as Hk.
      cbn in Hk. by rewrite lookup_delete_eq in Hk.
Qed.

Lemma remove_expired_by_hash_other ids t removed n t' h :
  remove_expired ids t removed = Some (n, t') →
  (∀ p r, p ∈ ids → by_id t !! p = Some r → content_hash r ≠ h) →
  by_hash t' !! h = by_hash t !! h.
Proof.
  revert t removed. induction ids as [|x rest IH]; intros t removed; cbn.
  - by intros [= _ <-].
  - unfold pop_record. destruct (by_id t !! x) as [rx|] eqn:Hrx; [|done].
    intros Hrest Hother.
    rewrite (IH _ _ Hrest); cbn.
    + apply lookup_delete_ne. apply (Hother x); [left|done].
    + intros p r Hin Hr. apply lookup_delete_Some in Hr as [Hne Hr].
      apply (Hother p); [by right|done].
Qed.

Lemma expired_ids_length t now :
  length (expired_ids t now)
  = size (filter (λ kr : string * SeenPost,
                    last_seen_at kr.2 < now - ttl t) (by_id t)).
Proof.
  unfold expired_ids. rewrite length_fmap, map_filter_alt.
  rewrite map_size_list_to_map; [done|].
  eapply NoDup_fmap_fst.
  - intros k r1 r2 H1%list_elem_of_filter H2%list_elem_of_filter.
    destruct H1 as [_ H1%elem_of_map_to_list], H2 as [_ H2%elem_of_map_to_list].
    congruence.
  - apply NoDup_filter, NoDup_map_to_list.
Qed.

(** From the cutoff on, [cleanup_expired] returns the number of records
    whose last-seen time is before the cutoff and removes exactly those. *)
Lemma cleanup_expired_removes (t : DeduplicationTracker) (now : Z) :
  let expired := λ kr : string * SeenPost, last_seen_at kr.2 < now - ttl t in
  ∃ t', cleanup_expired t now = Some (Z.of_nat (size (filter expired (by_id t))), t')
    ∧ ttl t' = ttl t
    ∧ by_id t' = filter (λ kr, ¬ expired kr) (by_id t)
    ∧ (∀ pid record,
         by_id t !! pid = Some record → last_seen_at record < now - ttl t →
         by_id t' !! pid = None ∧ by_hash t' !! content_hash record = None)
    ∧ (∀ h pid, by_hash t' !! h = Some pid → by_hash t !! h = Some pid)
    ∧ (∀ h, (∀ pid record, by_id t !! pid = Some record →
               last_seen_at record < now - ttl t → content_hash record ≠ h) →
            by_hash t' !! h = by_hash t !! h).
Proof.
  intros expired.
  destruct (cleanup_expired_total t now) as [t' Ht'].
  exists t'. rewrite Ht', expired_ids_length. split; [done|].
  unfold cleanup_expired in Ht'.
  split; [by eapply remove_expired_ttl|].
  assert (Hid : ∀ p, by_id t' !! p
                     = if decide (p ∈ expired_ids t now) then None
                       else by_id t !! p)
    by (intros p; by eapply remove_expired_by_id).
  split; [|split; [|split]].
  - apply map_eq. intros p. rewrite Hid.
    destruct (decide (p ∈ expired_ids t now)) as [Hin|Hout].
    + apply expired_ids_spec in Hin as (r & Hr & Hlt). symmetry.
      apply map_lookup_filter_None_2. right. intros r' Hr' Hnot.
      apply Hnot. unfold expired. cbn. congruence.
    + destruct (by_id t !! p) as [r|] eqn:Hr.
      * symmetry. apply map_lookup_filter_Some_2; [done|].
        unfold expired. cbn. intros Hlt. apply Hout.
        apply expired_ids_spec. eauto.
      * symmetry. apply map_lookup_filter_None_2. by left.
  - intros pid record Hr Hlt.
    assert (Hin : pid ∈ expired_ids t now) by (apply expired_ids_spec; eauto).
    split.
    + rewrite Hid. by rewrite decide_True.
    + eapply remove_expired_by_hash_gone; [apply expired_ids_NoDup|apply Ht'|..];
        done.
  - intros h pid. by eapply remove_expired_by_hash_kept.
  - intros h Hother. eapply remove_expired_by_hash_other; [apply Ht'|].
    intros p r (r' & Hr' & Hlt)%expired_ids_spec Hr.
    apply (Hother p r); [done|]. congruence.
Qed.

(** X1. [cleanup_expired] raises [OverflowError], with nothing changed,
    exactly when the cutoff [now - ttl] is no datetime (outside the years 1
    to 9999, as for a TTL of 800000 days). Otherwise it returns the number
    of records whose last-seen time is before the cutoff; it leaves in the
    id index exactly the other records, unchanged; every removed record is
    gone from the id index and its stored hash is gone from the hash index;
    and it adds nothing to the hash index. *)
Theorem cleanup_removes_expired (t : DeduplicationTracker) (now : Z) :
  let expired := λ kr : string * SeenPost, last_seen_at kr.2 < now - ttl t in
  if PyTime.datetime_in_range (now - ttl t) then
    ∃ t',
      cleanup_expired_or_raise t now
      = Some (Z.of_nat (size (filter expired (by_id t))), t')
      ∧ ttl t' = ttl t
      ∧ by_id t' = filter (λ kr, ¬ expired kr) (by_id t)
      ∧ (∀ pid record,
           by_id t !! pid = Some record → last_seen_at record < now - ttl t →
           by_id t' !! pid = None ∧ by_hash t' !! content_hash record = None)
      ∧ (∀ h pid, by_hash t' !! h = Some pid → by_hash t !! h = Some pid)
      ∧ (∀ h, (∀ pid record, by_id t !! pid = Some record →
                 last_seen_at record < now - ttl t →
                 content_hash record ≠ h) →
              by_hash t' !! h = by_hash t !! h)
  else cleanup_expired_or_raise t now = None.
Proof.
  intros expired. unfold cleanup_expired_or_raise, PyTime.datetime_sub.
  destruct (PyTime.datetime_in_range (now - ttl t)); [|done].
  destruct (cleanup_expired_removes t now) as (t' & Ht' & Hrest).
  exists t'. by rewrite Ht'.
Qed.

(** A TTL of 800000 days, as [create_deduplication_filter(800000)] sets it,
    puts the cutoff before year 1. *)
Example cleanup_with_long_ttl_raises :
  cleanup_expired_or_raise (new_tracker (800000 * 86400000000))
                           1762214400000000 = None.
Proof. reflexivity. Qed.

(** *** Counts and times of the records *)

Lemma records_ok_mono bound bound' t :
  bound ≤ bound' → records_ok bound t → records_ok bound' t.
Proof.
  intros Hle Hok pid record Hr. destruct (Hok _ _ Hr) as (? & ? & ?).
  repeat split; [done|done|lia].
Qed.

Lemma mark_seen_records_ok bound t pid h now :
  bound ≤ now → records_ok bound t → records_ok now (mark_seen t pid h now).2.
Proof.
  intros Hle Hok p r. unfold mark_seen.
  destruct (by_id t !! pid) as [record|] eqn:Hpid; cbn;
    rewrite lookup_insert; case_decide as Hp.
  - intros [= <-]. destruct (Hok _ _ Hpid) as (? & ? & ?).
    repeat split; cbn; lia.
  - intros Hr. by apply (records_ok_mono bound now t Hle Hok p).
  - intros [= <-]. repeat split; cbn; lia.
  - intros Hr. by apply (records_ok_mono bound now t Hle Hok p).
Qed.

Lemma cleanup_records_ok bound t now n t' :
  records_ok bound t → cleanup_expired t now = Some (n, t') →
  records_ok bound t'.
Proof.
  intros Hok Hclean p r Hr. apply (Hok p).
  unfold cleanup_expired in Hclean.
  rewrite (remove_expired_by_id _ _ _ _ _ p Hclean) in Hr.
  by destruct (decide (p ∈ expired_ids t now)).
Qed.

Lemma run_records_ok ops bound t t' :
  Sorted Z.le (bound :: (op_time <$> ops)) →
  records_ok bound t → run ops t = Some t' →
  ∃ bound', records_ok bound' t'.
Proof.
  revert bound t. induction ops as [|o rest IH]; intros bound t Hsorted Hok.
  - cbn. intros [= <-]. by exists bound.
  - cbn [run]. destruct (step t o) as [t1|] eqn:Hstep; [|done].
    intros Hrun. cbn [fmap list_fmap] in Hsorted.
    apply Sorted_inv in Hsorted as [Hsorted Hhd].
    apply HdRel_inv in Hhd.
    assert (Hok1 : records_ok (op_time o) t1).
    { destruct o as [pid h now|now]; cbn in *.
      - injection Hstep as <-. by apply (mark_seen_records_ok bound).
      - destruct (cleanup_expired t now) as [[n t2]|] eqn:Hclean; [|done].
        injection Hstep as <-.
        apply (records_ok_mono bound); [done|].
        by eapply cleanup_records_ok. }
    by apply (IH _ _ Hsorted Hok1 Hrun).
Qed.

(** X2. When the clock readings of a trace of [mark_seen] and
    [cleanup_expired] calls never go back, every record of the tracker it
    leaves has an occurrence count of at least 1 and a first-seen time no
    later than its last-seen time. *)
Theorem record_times_ordered (ops : list op) (ttl0 : Z)
    (t : DeduplicationTracker) :
  Sorted Z.le (op_time <$> ops) →
  run ops (new_tracker ttl0) = Some t →
  ∀ pid record, by_id t !! pid = Some record →
    1 ≤ seen_count record ∧ first_seen_at record ≤ last_seen_at record.
Proof.
  intros Hsorted Hrun pid record Hr.
  destruct ops as [|o rest].
  - injection Hrun as <-. cbn in Hr. by rewrite lookup_empty in Hr.
  - assert (Hok : records_ok (op_time o) (new_tracker ttl0)).
    { intros p r Hp. cbn in Hp. by rewrite lookup_empty in Hp. }
    assert (Hs : Sorted Z.le (op_time o :: (op_time <$> o :: rest))).
    { constructor; [done|]. constructor. cbn. lia. }
    destruct (run_records_ok _ _ _ _ Hs Hok Hrun) as [bound' Hok'].
    by destruct (Hok' _ _ Hr) as (? & ? & _).
Qed.

(** The id marked twice, a minute apart. *)
Lemma record_times_ordered_witness :
  let ops := [MarkSeen "p1" "h1" 0; MarkSeen "p1" "h1" 60000000] in
  let t := (mark_seen (mark_seen (new_tracker 7776000000000) "p1" "h1" 0).2
                      "p1" "h1" 60000000).2 in
  run ops (new_tracker 7776000000000) = Some t
  ∧ by_id t !! "p1" = Some (mkSeenPost "p1" "h1" 0 60000000 2)
  ∧ 1 ≤ 2 ∧ 0 ≤ 60000000.
Proof.
  intros ops t. split; [reflexivity|]. split; [reflexivity|].
  apply (record_times_ordered ops 7776000000000 t)
    with (pid := "p1") (record := mkSeenPost "p1" "h1" 0 60000000 2).
  - repeat constructor. cbn. lia.
  - reflexivity.
  - reflexivity.
Defined.

(** Marking the same new id [k + 1] times counts [k + 1] occurrences. *)
Lemma mark_seen_again_count t pid h now record :
  by_id t !! pid = Some record →
  by_id (mark_seen t pid h now).2 !! pid
  = Some {| post_id := post_id record; content_hash := content_hash record;
            first_seen_at := first_seen_at record; last_seen_at := now;
            seen_count := seen_count record + 1 |}.
Proof. intros Hr. unfold mark_seen. rewrite Hr. cbn. apply lookup_insert_eq. Qed.

(** *** [is_duplicate] after [mark_seen] *)

Lemma has_id_mark_seen t pid h now p :
  has_id (mark_seen t pid h now).2 p
  = bool_decide (p = pid) || has_id t p.
Proof.
  unfold has_id, mark_seen.
  destruct (by_id t !! pid) as [record|] eqn:Hpid; cbn;
    destruct (decide (p = pid)) as [->|Hne];
    rewrite ?lookup_insert_eq, ?lookup_insert_ne by done.
  - rewrite bool_decide_eq_true_2 by done. by rewrite bool_decide_eq_true_2.
  - by rewrite (bool_decide_eq_false_2 (p = pid)).
  - rewrite bool_decide_eq_true_2 by done. by rewrite bool_decide_eq_true_2.
  - by rewrite (bool_decide_eq_false_2 (p = pid)).
Qed.

Lemma has_hash_mark_seen_kept t pid h now h' :
  has_hash t h' = true → has_hash (mark_seen t pid h now).2 h' = true.
Proof.
  unfold has_hash, mark_seen. rewrite !bool_decide_eq_true.
  destruct (by_id t !! pid); cbn; [done|].
  intros Hh. rewrite lookup_insert. by case_decide.
Qed.

Lemma is_duplicate_mark_seen_kept t pid h now p oh :
  is_duplicate t p oh = true →
  is_duplicate (mark_seen t pid h now).2 p oh = true.
Proof.
  unfold is_duplicate. rewrite has_id_mark_seen.
  destruct (has_id t p); [by rewrite orb_true_r|].
  destruct (bool_decide (p = pid)); [done|]. cbn.
  destruct oh as [h'|]; [|done].
  rewrite !andb_true_iff. intros [? ?]. split; [done|].
  by apply has_hash_mark_seen_kept.
Qed.

Lemma is_duplicate_mark_all_kept t marks p oh :
  is_duplicate t p oh = true →
  is_duplicate (DedupMarks.mark_all t marks) p oh = true.
Proof.
  revert t. induction marks as [|m rest IH]; intros t Hdup; [done|].
  apply IH. by apply is_duplicate_mark_seen_kept.
Qed.

(** X3. Once [mark_seen(pid, h)] has run, [is_duplicate(pid, ...)] is true
    whatever hash is passed, and it stays true through any further
    [mark_seen] calls. If [pid] was new and [h] is not the empty string,
    [is_duplicate] is also true for every other id presented with the
    hash [h]. *)
Theorem marked_is_duplicate (t : DeduplicationTracker) (pid h : string)
    (now : Z) (marks : list (string * string * Z)) :
  let t' := DedupMarks.mark_all (mark_seen t pid h now).2 marks in
  (∀ oh, is_duplicate t' pid oh = true)
  ∧ (by_id t !! pid = None → h ≠ "" →
     ∀ other, is_duplicate t' other (Some h) = true).
Proof.
  intros t'. split.
  - intros oh. apply is_duplicate_mark_all_kept.
    unfold is_duplicate. rewrite has_id_mark_seen.
    by rewrite bool_decide_eq_true_2.
  - intros Hnew Hh other. apply is_duplicate_mark_all_kept.
    unfold is_duplicate. destruct (has_id _ other); [done|].
    assert (truthy h = true) as -> by (by destruct h).
    unfold has_hash, mark_seen. rewrite Hnew. cbn.
    by rewrite lookup_insert_eq, bool_decide_eq_true_2.
Qed.

(** A new post, then its content under another id. *)
Lemma marked_is_duplicate_witness :
  is_duplicate (mark_seen (new_tracker 90) "p1" "h1" 5).2 "p2" (Some "h1")
  = true.
Proof.
  destruct (marked_is_duplicate (new_tracker 90) "p1" "h1" 5 []) as [_ H].
  by apply H.
Defined.

(** An empty hash is never looked up: with the empty string recorded as a
    hash, [has_hash] says yes and [is_duplicate] says no. *)
Example empty_hash_not_matched :
  let t := (mark_seen (new_tracker 90) "p1" "" 5).2 in
  has_hash t "" = true ∧ is_duplicate t "p2" (Some "") = false.
Proof. by vm_compute. Qed.

(** *** The batch filter *)

Section Filter.
Variable sha256_hexdigest : string → string.

Local Abbreviation filter_new := (filter_new sha256_hexdigest).
Local Abbreviation post_hash := (post_hash sha256_hexdigest).
Local Abbreviation dup t post :=
  (is_duplicate t (field_id post) (Some (post_hash post))).

Lemma filter_new_kept t posts mark p oh :
  is_duplicate t p oh = true →
  is_duplicate (filter_new t posts mark).2 p oh = true.
Proof.
  revert t. induction posts as [|[post now] rest IH]; intros t Hdup; [done|].
  cbn [DedupFilter.filter_new].
  destruct (dup t post).
  - specialize (IH t Hdup).
    by destruct (filter_new t rest mark) as [[new_posts skipped] t'].
  - match goal with
    | |- context [filter_new ?t1 rest mark] =>
        assert (Hdup1 : is_duplicate t1 p oh = true)
          by (destruct mark; [by apply is_duplicate_mark_seen_kept|done]);
        specialize (IH t1 Hdup1);
        by destruct (filter_new t1 rest mark) as [[new_posts skipped] t']
    end.
Qed.

Lemma filter_new_counts t posts mark :
  Z.of_nat (length (filter_new t posts mark).1.1) + (filter_new t posts mark).1.2
  = Z.of_nat (length posts)
  ∧ sublist (filter_new t posts mark).1.1 posts.*1.
Proof.
  revert t. induction posts as [|[post now] rest IH]; intros t.
  - split; [done|]. constructor.
  - cbn [DedupFilter.filter_new].
    destruct (dup t post).
    + destruct (IH t) as [Hlen Hsub].
      destruct (filter_new t rest mark) as [[new_posts skipped] t'].
      cbn in *. split; [lia|]. by constructor.
    + match goal with
      | |- context [filter_new ?t1 rest mark] =>
          destruct (IH t1) as [Hlen Hsub];
          destruct (filter_new t1 rest mark) as [[new_posts skipped] t']
      end.
      cbn in *. split; [lia|]. by constructor.
Qed.

Lemma filter_new_fresh t posts mark post :
  post ∈ (filter_new t posts mark).1.1 → dup t post = false.
Proof.
  revert t. induction posts as [|[p now] rest IH]; intros t.
  - cbn. intros Hin. by apply elem_of_nil in Hin.
  - cbn [DedupFilter.filter_new].
    destruct (dup t p) eqn:Hp.
    + specialize (IH t).
      by destruct (filter_new t rest mark) as [[new_posts skipped] t'].
    + match goal with
      | |- context [filter_new ?t1 rest mark] =>
          assert (Hkept : dup t post = true → dup t1 post = true)
            by (destruct mark; [by apply is_duplicate_mark_seen_kept|done]);
          specialize (IH t1);
          destruct (filter_new t1 rest mark) as [[new_posts skipped] t']
      end.
      cbn in *. intros [->|Hin]%elem_of_cons; [done|].
      specialize (IH Hin). destruct (dup t post); [|done].
      by rewrite Hkept in IH.
Qed.

Lemma filter_new_ids_distinct t posts :
  NoDup (field_id <$> (filter_new t posts true).1.1).
Proof.
  revert t. induction posts as [|[p now] rest IH]; intros t.
  - constructor.
  - cbn [DedupFilter.filter_new].
    destruct (dup t p) eqn:Hp.
    + specialize (IH t).
      by destruct (filter_new t rest true) as [[new_posts skipped] t'].
    + set (t1 := (mark_seen t (field_id p) (post_hash p) now).2).
      specialize (IH t1).
      pose proof (filter_new_fresh t1 rest true) as Hfresh.
      destruct (filter_new t1 rest true) as [[new_posts skipped] t'].
      cbn in *. constructor; [|done].
      intros (q & Hq & Hin)%list_elem_of_fmap.
      specialize (Hfresh q Hin). unfold is_duplicate in Hfresh.
      unfold t1 in Hfresh. rewrite has_id_mark_seen, <- Hq in Hfresh.
      by rewrite bool_decide_eq_true_2 in Hfresh.
Qed.

Lemma filter_new_marks_all t posts post :
  post ∈ posts.*1 → dup (filter_new t posts true).2 post = true.
Proof.
  revert t. induction posts as [|[p now] rest IH]; intros t.
  - cbn. intros Hin. by apply elem_of_nil in Hin.
  - cbn [fmap list_fmap fst]. intros Hin.
    cbn [DedupFilter.filter_new].
    destruct (dup t p) eqn:Hp.
    + apply elem_of_cons in Hin as [->|Hin].
      * pose proof (filter_new_kept t rest true _ _ Hp) as Hk.
        by destruct (filter_new t rest true) as [[new_posts skipped] t'].
      * specialize (IH t Hin).
        by destruct (filter_new t rest true) as [[new_posts skipped] t'].
    + set (t1 := (mark_seen t (field_id p) (post_hash p) now).2).
      apply elem_of_cons in Hin as [->|Hin].
      * assert (Hp1 : dup t1 p = true).
        { unfold is_duplicate, t1. rewrite has_id_mark_seen.
          by rewrite bool_decide_eq_true_2. }
        pose proof (filter_new_kept t1 rest true _ _ Hp1) as Hk.
        by destruct (filter_new t1 rest true) as [[new_posts skipped] t'].
      * specialize (IH t1 Hin).
        by destruct (filter_new t1 rest true) as [[new_posts skipped] t'].
Qed.

Lemma filter_new_all_seen t posts mark :
  (∀ post, post ∈ posts.*1 → dup t post = true) →
  filter_new t posts mark = ([], Z.of_nat (length posts), t).
Proof.
  induction posts as [|[p now] rest IH]; intros Hall; [done|].
  cbn [DedupFilter.filter_new]. rewrite (Hall p) by left.
  rewrite IH; [|intros post Hin; apply Hall; by right].
  f_equal. f_equal. cbn [length]. lia.
Qed.

(** X4. [filter_new] with marking keeps the posts it returns in the order of
    the batch; the posts returned and the posts skipped add up to the
    batch; no returned post was a duplicate for the tracker as it was given;
    and no two returned posts have the same id. *)
Theorem filter_new_batch (t : DeduplicationTracker)
    (posts : list (Post * Z)) :
  let new_posts := (filter_new t posts true).1.1 in
  let skipped := (filter_new t posts true).1.2 in
  Z.of_nat (length new_posts) + skipped = Z.of_nat (length posts)
  ∧ sublist new_posts posts.*1
  ∧ (∀ post, post ∈ new_posts → is_new sha256_hexdigest t post = true)
  ∧ NoDup (field_id <$> new_posts).
Proof.
  intros new_posts skipped.
  destruct (filter_new_counts t posts true) as [Hlen Hsub].
  split; [done|]. split; [done|]. split.
  - intros post Hin. unfold is_new.
    by rewrite (filter_new_fresh t posts true post Hin).
  - apply filter_new_ids_distinct.
Qed.

(** X5. After [filter_new] with marking, every post of the batch is a
    duplicate for the tracker, so filtering the same batch again (at any
    later times, marking or not) returns no post, skips them all and leaves
    the tracker as it is. *)
Theorem filter_new_twice (t : DeduplicationTracker)
    (posts again : list (Post * Z)) (mark : bool) :
  again.*1 = posts.*1 →
  let t' := (filter_new t posts true).2 in
  (∀ post, post ∈ posts.*1 → is_new sha256_hexdigest t' post = false)
  ∧ filter_new t' again mark = ([], Z.of_nat (length posts), t').
Proof.
  intros Hsame t'.
  assert (Hall : ∀ post, post ∈ posts.*1 → dup t' post = true)
    by (intros post Hin; by apply filter_new_marks_all).
  split.
  - intros post Hin. unfold is_new. by rewrite Hall.
  - rewrite filter_new_all_seen.
    + by rewrite <- (length_fmap fst again), Hsame, length_fmap.
    + by rewrite Hsame.
Qed.

(** X6. [filter_new] without marking leaves the tracker as it is and
    returns the posts of the batch that are new for it, repeats
    included. *)
Theorem filter_new_unmarked (t : DeduplicationTracker)
    (posts : list (Post * Z)) :
  (filter_new t posts false).2 = t
  ∧ (filter_new t posts false).1.1
    = filter (λ post, is_new sha256_hexdigest t post = true) posts.*1.
Proof.
  induction posts as [|[p now] rest [IHt IHnew]]; [done|].
  cbn [DedupFilter.filter_new fmap list_fmap fst].
  unfold is_new in *.
  destruct (dup t p) eqn:Hp.
  - destruct (filter_new t rest false) as [[new_posts skipped] t'].
    cbn [fst snd] in *. split; [done|].
    rewrite filter_cons_False; [done|]. by rewrite Hp.
  - destruct (filter_new t rest false) as [[new_posts skipped] t'].
    cbn [fst snd] in *. split; [done|].
    rewrite filter_cons_True; [by f_equal|]. by rewrite Hp.
Qed.

End Filter.

(** The two orders of filtering one batch of two posts with the same id. *)
Lemma filter_new_twice_witness :
  let post := ({[ "id" := "p1"; "title" := "hello" ]} : Post) in
  let t' := (filter_new (λ s, s) (new_tracker 90) [(post, 1); (post, 2)]
               true).2 in
  filter_new (λ s, s) t' [(post, 7); (post, 8)] false = ([], 2, t').
Proof.
  intros post t'.
  by destruct (filter_new_twice (λ s, s) (new_tracker 90)
                 [(post, 1); (post, 2)] [(post, 7); (post, 8)] false
                 eq_refl) as [_ H].
Defined.

(** *** The content hash *)

Lemma append_assoc (a b c : string) : (a +:+ b) +:+ c = a +:+ (b +:+ c).
Proof.
  induction a as [|x a IH]; [done|].
  change (String x ((a +:+ b) +:+ c) = String x (a +:+ (b +:+ c))).
  by rewrite IH.
Qed.

(** X7. The string that [calculate_content_hash] digests joins the four
    fields with colons and does not escape colons inside them, so moving a
    colon-separated part from the end of the id to the front of the agent id
    gives the same hash: two different posts can share a content hash,
    whatever the digest. *)
Theorem content_hash_colon_shift (sha256_hexdigest : string → string)
    (x y z title submolt : string) :
  calculate_content_hash sha256_hexdigest (x +:+ ":" +:+ y) z title submolt
  = calculate_content_hash sha256_hexdigest x (y +:+ ":" +:+ z) title submolt.
Proof.
  unfold calculate_content_hash, hash_content. f_equal.
  by rewrite !append_assoc.
Qed.

(** *** The counts of [get_stats] *)

Lemma hash_index_size t :
  consistent t → (size (by_hash t) ≤ size (by_id t))%nat.
Proof.
  intros [Hkey Hsound].
  rewrite <- !length_map_to_list.
  rewrite <- (length_fmap snd (map_to_list (by_hash t))),
    <- (length_fmap fst (map_to_list (by_id t))).
  apply submseteq_length, NoDup_submseteq.
  - apply NoDup_fmap_2_strong; [|apply NoDup_map_to_list].
    intros [h1 p1] [h2 p2] H1%elem_of_map_to_list H2%elem_of_map_to_list.
    cbn. intros <-.
    destruct (Hsound _ _ H1) as (r1 & Hr1 & <-).
    destruct (Hsound _ _ H2) as (r2 & Hr2 & <-).
    congruence.
  - intros pid ([h p] & Heq & Hin%elem_of_map_to_list)%list_elem_of_fmap.
    cbn in Heq. subst p.
    destruct (Hsound _ _ Hin) as (r & Hr & _).
    apply list_elem_of_fmap. exists (pid, r). split; [done|].
    by apply elem_of_map_to_list.
Qed.

(** X8. In the statistics of every tracker reached from an empty one by
    [mark_seen] and [cleanup_expired] calls, the number of hashes is at most
    the number of posts (it is smaller when ids shared a hash), and [clear]
    brings both to zero. *)
Theorem stats_hashes_at_most_posts (ops : list op) (ttl0 : Z) :
  ∃ t, run ops (new_tracker ttl0) = Some t
       ∧ (total_hashes (get_stats t) ≤ total_posts (get_stats t))%nat
       ∧ total_posts (get_stats (clear t)) = 0%nat
       ∧ total_hashes (get_stats (clear t)) = 0%nat.
Proof.
  destruct (run_consistent ops (new_tracker ttl0) (consistent_new ttl0))
    as (t & Hrun & Ht).
  exists t. split; [done|]. split; [by apply hash_index_size|]. done.
Qed.

(** Two ids under one hash: two posts, one hash. *)
Example stats_shared_hash :
  let t := (mark_seen (mark_seen (new_tracker 90) "p1" "h1" 1).2
                      "p2" "h1" 2).2 in
  total_posts (get_stats t) = 2%nat ∧ total_hashes (get_stats t) = 1%nat.
Proof. by vm_compute. Qed.

End DedupMore.

(** ** More on the rate limiter *)

Module RateLimitMoreFacts.
Import RateLimit RateLimitMore PyFacts RateLimitFacts.

(** *** The sliding windows *)

Lemma record_requests_windows s calls :
  minute_requests (record_requests s calls) = minute_requests s ++ calls.*1
  ∧ hour_requests (record_requests s calls) = hour_requests s ++ calls.*1
  ∧ day_requests (record_requests s calls) = day_requests s ++ calls.*1
  ∧ api_state (record_requests s calls) = api_state s.
Proof.
  revert s. induction calls as [|c rest IH]; intros s; cbn.
  - by rewrite !app_nil_r.
  - unfold record_requests in IH. destruct (IH (record_request s c.1 c.2))
      as (-> & -> & -> & ->).
    cbn. by rewrite <- !app_assoc.
Qed.

(** X9. When the clock readings of the recorded requests never go back, the
    cleanup leaves in each window exactly the requests made no longer ago
    than the length of the window, so the counts [can_request] and
    [wait_time] work with are the numbers of requests of the last minute,
    hour and day. *)
Theorem windows_hold_recent_requests (cfg : RateLimitConfig)
    (calls : list (Q * RequestBudget)) (now : Q) :
  nondecreasing calls.*1 →
  let recent := λ window : Z,
    List.filter (λ t, Py.Qleb (now - inject_Z window) t) calls.*1 in
  let s' := (_get_counts (record_requests (new_limiter cfg) calls) now).2 in
  minute_requests s' = recent (minute_window cfg)
  ∧ hour_requests s' = recent (hour_window cfg)
  ∧ day_requests s' = recent (day_window cfg)
  ∧ (_get_counts (record_requests (new_limiter cfg) calls) now).1
    = (Z.of_nat (length (recent (minute_window cfg))),
       Z.of_nat (length (recent (hour_window cfg))),
       Z.of_nat (length (recent (day_window cfg))))
  ∧ Forall (λ t, (now - inject_Z (minute_window cfg) <= t)%Q)
           (minute_requests s').
Proof.
  intros Hsorted recent s'.
  destruct (record_requests_windows (new_limiter cfg) calls)
    as (Hm & Hh & Hd & _).
  pose proof (record_requests_config (new_limiter cfg) calls) as Hcfg.
  cbn in Hm, Hh, Hd, Hcfg.
  assert (Hmin : minute_requests s' = recent (minute_window cfg)).
  { unfold s', _get_counts, _cleanup_old_requests. cbn.
    rewrite Hm, Hcfg. by apply popleft_older_sorted. }
  assert (Hhour : hour_requests s' = recent (hour_window cfg)).
  { unfold s', _get_counts, _cleanup_old_requests. cbn.
    rewrite Hh, Hcfg. by apply popleft_older_sorted. }
  assert (Hday : day_requests s' = recent (day_window cfg)).
  { unfold s', _get_counts, _cleanup_old_requests. cbn.
    rewrite Hd, Hcfg. by apply popleft_older_sorted. }
  split; [done|]. split; [done|]. split; [done|]. split.
  - unfold _get_counts. fold s'. cbn [fst].
    change (_cleanup_old_requests (record_requests (new_limiter cfg) calls)
              now) with s'.
    by rewrite Hmin, Hhour, Hday.
  - rewrite Hmin. unfold recent. apply Forall_forall. intros t Hin.
    apply list_elem_of_In, filter_In in Hin as [_ Hin]. by apply Qleb_le.
Qed.

(** Three requests, the first of them more than a minute old. *)
Lemma windows_hold_recent_requests_witness :
  (_get_counts (record_requests (new_limiter default_limit_config)
                  [(10%Q, RESERVE); (50%Q, RESERVE); (100%Q, NEW_POSTS)])
               100).1 = (2, 3, 3).
Proof.
  destruct (windows_hold_recent_requests default_limit_config
              [(10%Q, RESERVE); (50%Q, RESERVE); (100%Q, NEW_POSTS)] 100)
    as (_ & _ & _ & H & _).
  - repeat constructor; cbn; lra.
  - exact H.
Defined.

(** With a clock that went back, an old timestamp hides behind a recent one:
    the cleanup stops at the head and the old request is still counted. *)
Example cleanup_stops_at_head :
  popleft_older (100 - 60) [100; 10]%Q = [100; 10]%Q.
Proof. reflexivity. Qed.

(** *** The budget categories *)

Lemma max_for_budget_div cfg budget :
  0 ≤ requests_per_minute cfg →
  max_for_budget cfg budget
  = match budget with
    | NEW_POSTS => requests_per_minute cfg * 40 / 100
    | TRENDING | COMMENTS => requests_per_minute cfg * 20 / 100
    | AGENTS | RESERVE => requests_per_minute cfg * 10 / 100
    end.
Proof.
  intros Hrpm. unfold max_for_budget, Py.int.
  destruct budget; cbn; change (Z.pos (1 * 100)) with 100;
    rewrite Z.quot_div_nonneg; lia.
Qed.

(** X10. For every per-minute limit from 0 to below [10 ^ 15] the shares
    [can_request] grants the five categories add up to at most that limit,
    and to no less than the limit minus 4; no share is negative. The
    fractions of [BUDGET_ALLOCATION], as written, add up to 1. The bound on
    the limit is the range in which the float product
    [requests_per_minute * allocation] truncates to the floor of the exact
    product, which is what [max_for_budget] computes; beyond it the shares
    of the code can add up to more than the limit. *)
Theorem budget_shares_within_limit (cfg : RateLimitConfig) :
  0 ≤ requests_per_minute cfg < 10 ^ 15 →
  let shares :=
    max_for_budget cfg NEW_POSTS + max_for_budget cfg TRENDING
    + max_for_budget cfg COMMENTS + max_for_budget cfg AGENTS
    + max_for_budget cfg RESERVE in
  requests_per_minute cfg - 4 ≤ shares ≤ requests_per_minute cfg
  ∧ (∀ budget, 0 ≤ max_for_budget cfg budget)
  ∧ (BUDGET_ALLOCATION NEW_POSTS + BUDGET_ALLOCATION TRENDING
     + BUDGET_ALLOCATION COMMENTS + BUDGET_ALLOCATION AGENTS
     + BUDGET_ALLOCATION RESERVE == 1)%Q.
Proof.
  intros [Hrpm _] shares. unfold shares.
  rewrite !max_for_budget_div by done.
  split; [|split; [|reflexivity]].
  - set (rpm := requests_per_minute cfg) in *.
    pose proof (Z.div_mod (rpm * 40) 100).
    pose proof (Z.div_mod (rpm * 20) 100).
    pose proof (Z.div_mod (rpm * 10) 100).
    pose proof (Z.mod_pos_bound (rpm * 40) 100).
    pose proof (Z.mod_pos_bound (rpm * 20) 100).
    pose proof (Z.mod_pos_bound (rpm * 10) 100).
    lia.
  - intros budget. rewrite max_for_budget_div by done.
    destruct budget; apply Z.div_pos; lia.
Qed.

(** The default limit of 100 requests a minute is shared out in full. *)
Lemma budget_shares_within_limit_witness :
  max_for_budget default_limit_config NEW_POSTS
  + max_for_budget default_limit_config TRENDING
  + max_for_budget default_limit_config COMMENTS
  + max_for_budget default_limit_config AGENTS
  + max_for_budget default_limit_config RESERVE ≤ 100.
Proof.
  destruct (budget_shares_within_limit default_limit_config) as ([_ H] & _).
  - by vm_compute.
  - exact H.
Defined.

Lemma record_request_usage s now budget other :
  other ≠ budget →
  budget_usage (record_request s now budget) !! other
  = budget_usage s !! other.
Proof. intros Hne. cbn. by rewrite lookup_insert_ne. Qed.

Lemma record_requests_usage s calls other :
  Forall (λ c : Q * RequestBudget, c.2 ≠ other) calls →
  budget_usage (record_requests s calls) !! other = budget_usage s !! other.
Proof.
  revert s. induction calls as [|c rest IH]; intros s Hcalls; [done|].
  apply Forall_cons in Hcalls as [Hc Hrest]. cbn.
  unfold record_requests in IH. rewrite (IH _ Hrest).
  by apply record_request_usage.
Qed.

Lemma budget_blocks_reserve_left s budget :
  default 0 (budget_usage s !! RESERVE) < max_for_budget (config s) RESERVE →
  budget_blocks s budget = false.
Proof.
  intros Hleft. unfold budget_blocks.
  fold (max_for_budget (config s) budget).
  fold (max_for_budget (config s) RESERVE).
  destruct (max_for_budget (config s) budget <=? _); [|done].
  apply Z.leb_gt. lia.
Qed.

Lemma can_request_budget s now now_utc budget :
  (can_request s now now_utc (Some budget)).1
  = (can_request s now now_utc None).1
    && negb (budget_blocks (_cleanup_old_requests s now) budget).
Proof.
  unfold can_request, _get_counts.
  set (s' := _cleanup_old_requests s now).
  repeat match goal with
  | |- context [(?a <=? ?b)%Z] => destruct (a <=? b)%Z; cbn [fst]; [done|]
  end.
  destruct (api_blocks (api_state s') now_utc); cbn [fst]; [done|].
  by destruct (budget_blocks s' budget).
Qed.

(** X11. Borrowing does not use up the reserve: [record_request] counts a
    request against the category it is given, so while the usage of the
    reserve category itself is below its share, no number of requests
    recorded for other categories makes the budget test refuse any
    category, and [can_request(budget)] answers as [can_request()] does. *)
Theorem borrowing_leaves_reserve (s : RateLimiter)
    (calls : list (Q * RequestBudget)) (now : Q) (now_utc : Z)
    (budget : RequestBudget) :
  Forall (λ c : Q * RequestBudget, c.2 ≠ RESERVE) calls →
  default 0 (budget_usage s !! RESERVE) < max_for_budget (config s) RESERVE →
  let s' := record_requests s calls in
  budget_usage s' !! RESERVE = budget_usage s !! RESERVE
  ∧ (can_request s' now now_utc (Some budget)).1
    = (can_request s' now now_utc None).1.
Proof.
  intros Hcalls Hleft s'.
  assert (Husage : budget_usage s' !! RESERVE = budget_usage s !! RESERVE)
    by (by apply record_requests_usage).
  split; [done|].
  rewrite can_request_budget, budget_blocks_reserve_left.
  - by rewrite andb_true_r.
  - change (budget_usage (_cleanup_old_requests s' now))
      with (budget_usage s').
    change (config (_cleanup_old_requests s' now)) with (config s').
    rewrite Husage. unfold s'. by rewrite record_requests_config.
Qed.

(** Fifty requests for new posts, ten over their share of forty. *)
Lemma borrowing_leaves_reserve_witness :
  let s := record_requests (new_limiter default_limit_config)
             (replicate 50 (5%Q, NEW_POSTS)) in
  (can_request s 20 0 (Some NEW_POSTS)).1 = true.
Proof.
  intros s.
  destruct (borrowing_leaves_reserve (new_limiter default_limit_config)
              (replicate 50 (5%Q, NEW_POSTS)) 20 0 NEW_POSTS) as [_ H].
  - by apply Forall_replicate.
  - by vm_compute.
  - fold s in H. rewrite H. by vm_compute.
Defined.

Lemma reset_budget_usage s budget :
  budget_usage (reset_budget s) !! budget = Some 0.
Proof.
  unfold reset_budget. cbn.
  destruct budget;
    rewrite ?lookup_insert_eq;
    repeat (rewrite lookup_insert_ne by done; rewrite ?lookup_insert_eq);
    done.
Qed.

(** X12. [reset_budget] sets the usage of every category to zero and leaves
    the sliding windows alone, so [can_request()] answers as before; and
    with a per-minute limit of at least 10 the budget test then passes for
    every category, so [can_request(budget)] answers as [can_request()]. *)
Theorem reset_budget_reopens (s : RateLimiter) (now : Q) (now_utc : Z) :
  10 ≤ requests_per_minute (config s) →
  (∀ budget, default 0 (budget_usage (reset_budget s) !! budget) = 0)
  ∧ (can_request (reset_budget s) now now_utc None).1
    = (can_request s now now_utc None).1
  ∧ (∀ budget,
       (can_request (reset_budget s) now now_utc (Some budget)).1
       = (can_request s now now_utc None).1).
Proof.
  intros Hrpm.
  assert (Hzero : ∀ budget,
            default 0 (budget_usage (reset_budget s) !! budget) = 0)
    by (intros budget; by rewrite reset_budget_usage).
  assert (Hsame : (can_request (reset_budget s) now now_utc None).1
                  = (can_request s now now_utc None).1).
  { unfold can_request, _get_counts, _cleanup_old_requests. cbn.
    repeat match goal with
    | |- context [(?a <=? ?b)%Z] => destruct (a <=? b)%Z; [done|]
    end.
    by destruct (api_blocks (api_state s) now_utc). }
  split; [done|]. split; [done|].
  intros budget. rewrite can_request_budget, budget_blocks_reserve_left.
  - by rewrite andb_true_r.
  - change (budget_usage (_cleanup_old_requests (reset_budget s) now))
      with (budget_usage (reset_budget s)).
    change (config (_cleanup_old_requests (reset_budget s) now))
      with (config s).
    rewrite Hzero, max_for_budget_div by lia.
    apply Z.div_str_pos. lia.
Qed.

(** A limiter whose reserve is spent, before and after the reset. *)
Lemma reset_budget_reopens_witness :
  let s := record_requests (new_limiter default_limit_config)
             (replicate 10 (5%Q, RESERVE)) in
  (can_request s 20 0 (Some RESERVE)).1 = false
  ∧ (can_request (reset_budget s) 20 0 (Some RESERVE)).1 = true.
Proof.
  intros s. split; [by vm_compute|].
  destruct (reset_budget_reopens s 20 0) as (_ & _ & H); [by vm_compute|].
  rewrite H. by vm_compute.
Defined.

(** X13. With a per-minute limit from 0 to 9 the shares of the agents and
    the reserve categories are zero, so [can_request] never grants a request
    of the agents category (usage counts are never negative), whatever the
    windows hold. *)
Theorem small_limit_starves_agents (s : RateLimiter) (now : Q)
    (now_utc : Z) :
  0 ≤ requests_per_minute (config s) < 10 →
  0 ≤ default 0 (budget_usage s !! AGENTS) →
  0 ≤ default 0 (budget_usage s !! RESERVE) →
  (can_request s now now_utc (Some AGENTS)).1 = false
  ∧ (can_request s now now_utc (Some RESERVE)).1 = false.
Proof.
  intros Hrpm Hagents Hreserve.
  assert (Hshare : ∀ budget, budget = AGENTS ∨ budget = RESERVE →
            max_for_budget (config s) budget = 0).
  { intros budget Hb. rewrite max_for_budget_div by lia.
    destruct Hb as [-> | ->]; apply Z.div_small; lia. }
  assert (Hblocks : ∀ budget, budget = AGENTS ∨ budget = RESERVE →
            0 ≤ default 0 (budget_usage s !! budget) →
            budget_blocks (_cleanup_old_requests s now) budget = true).
  { intros budget Hb Husage. unfold budget_blocks.
    change (budget_usage (_cleanup_old_requests s now))
      with (budget_usage s).
    change (config (_cleanup_old_requests s now)) with (config s).
    fold (max_for_budget (config s) budget).
    fold (max_for_budget (config s) RESERVE).
    rewrite (Hshare budget Hb), (Hshare RESERVE) by (by right).
    rewrite (proj2 (Z.leb_le _ _) Husage). apply Z.leb_le. lia. }
  rewrite !can_request_budget.
  rewrite (Hblocks AGENTS), (Hblocks RESERVE); [|by right|done|by left|done].
  by rewrite !andb_false_r.
Qed.

(** A fresh limiter with a limit of five requests a minute. *)
Lemma small_limit_starves_agents_witness :
  (can_request (create_rate_limiter 5 5000 50000) 0 0 (Some AGENTS)).1
  = false
  ∧ (can_request (create_rate_limiter 5 5000 50000) 0 0 None).1 = true.
Proof.
  split; [|by vm_compute].
  by destruct (small_limit_starves_agents (create_rate_limiter 5 5000 50000)
                 0 0) as [H _]; [by vm_compute..|].
Defined.

(** *** Reports of the upstream service *)

(** X14. A report of the upstream service with a remaining budget of zero
    or less and a reset time: when the reset time is a datetime (within
    the years 1 to 9999), [can_request] refuses every request while the
    clock is before that reset, [wait_time] is the time left to the reset
    when no window is saturated, and from the reset on the report no
    longer holds requests back; all this also when the call then ends in
    [ZeroDivisionError], which it does exactly for a reported limit of
    zero. When the reset time is no datetime the call raises before the
    reset is stored: the remaining budget is the reported one, the reset
    time and the time of the update are the old ones. *)
Theorem upstream_report_blocks_until_reset (s : RateLimiter)
    (limit_ : option Z) (r : Z) (ts : Q) (stored_at : Z)
    (now : Q) (now_utc : Z) (budget : option RequestBudget) :
  r ≤ 0 →
  let result := update_from_response s limit_ (Some r) (Some ts) stored_at in
  let s' := result.1 in
  let free := Forall (λ w, saturated w = false)
                     (windows (_cleanup_old_requests s now)) in
  match fromtimestamp ts with
  | Some reset =>
      (now_utc < reset → (can_request s' now now_utc budget).1 = false)
      ∧ (now_utc < reset → free →
         (wait_time s' now now_utc).1 = Py.total_seconds (reset - now_utc))
      ∧ (reset ≤ now_utc → free →
         (can_request s' now now_utc None).1 = true
         ∧ (wait_time s' now now_utc).1 = 0%Q)
      ∧ (result.2 = Some ZeroDivision ↔ limit_ = Some 0)
      ∧ result.2 ≠ Some TimestampOutOfRange
  | None =>
      result.2 = Some TimestampOutOfRange
      ∧ remaining (api_state s') = Some r
      ∧ reset_at (api_state s') = reset_at (api_state s)
      ∧ last_updated (api_state s') = last_updated (api_state s)
  end.
Proof.
  intros Hr result s' free.
  unfold s', result, update_from_response, update_from_headers.
  destruct (fromtimestamp ts) as [reset|] eqn:Hts; cbn [fst snd];
    [|by destruct limit_].
  set (a := {| limit := match limit_ with
                        | Some l => Some l
                        | None => limit (api_state s)
                        end;
               remaining := Some r; reset_at := Some reset;
               last_updated := Some stored_at |}).
  set (s1 := {| config := config s;
                minute_requests := minute_requests s;
                hour_requests := hour_requests s;
                day_requests := day_requests s;
                api_state := a;
                budget_usage := budget_usage s |}).
  assert (Hs' : (match limit_ with
                 | Some l => (s1, used_pct_error r l)
                 | None => (s1, None)
                 end).1 = s1) by (by destruct limit_).
  rewrite Hs'.
  assert (Hblocks : api_blocks (api_state s1) now_utc
                    = bool_decide (now_utc < reset)).
  { unfold api_blocks. cbn.
    rewrite (proj2 (Z.leb_le _ _) Hr). cbn.
    destruct (decide (now_utc < reset)) as [Hlt|Hge].
    - rewrite bool_decide_eq_true_2 by done. by apply Z.ltb_lt.
    - rewrite bool_decide_eq_false_2 by done. by apply Z.ltb_ge; lia. }
  assert (Hwindows : windows (_cleanup_old_requests s1 now)
                     = windows (_cleanup_old_requests s now)) by done.
  assert (Hdelay : reset_delay (api_state s1) now_utc
                   = Some (Py.total_seconds (reset - now_utc))).
  { unfold reset_delay. cbn. by rewrite (proj2 (Z.leb_le _ _) Hr). }
  split; [|split; [|split; [|split]]].
  - intros Hlt.
    assert (Hnone : (can_request s1 now now_utc None).1 = false).
    { apply not_true_iff_false. intros [_ Hapi]%can_request_None.
      rewrite Hblocks, bool_decide_eq_true_2 in Hapi; done. }
    destruct budget as [b|]; [|done].
    by rewrite can_request_budget, Hnone.
  - intros Hlt Hfree. rewrite wait_time_first_blocking.
    unfold first_blocking_delay.
    rewrite find_blocking_none by (by rewrite Hwindows).
    change (api_state (_cleanup_old_requests s1 now)) with (api_state s1).
    rewrite Hdelay.
    assert (Py.Qltb 0 (Py.total_seconds (reset - now_utc)) = true) as ->;
      [|done].
    apply Qltb_lt, total_seconds_pos. lia.
  - intros Hge Hfree. split.
    + apply can_request_None. split; [by rewrite Hwindows|].
      rewrite Hblocks. apply bool_decide_eq_false_2. lia.
    + rewrite wait_time_first_blocking.
      unfold first_blocking_delay.
      rewrite find_blocking_none by (by rewrite Hwindows).
      change (api_state (_cleanup_old_requests s1 now)) with (api_state s1).
      rewrite Hdelay.
      assert (Py.Qltb 0 (Py.total_seconds (reset - now_utc)) = false) as ->;
        [|done].
      apply not_true_iff_false. intros Hpos%Qltb_lt.
      apply (proj1 (total_seconds_pos _)) in Hpos. lia.
  - destruct limit_ as [l|]; cbn; [|split; done].
    unfold used_pct_error. destruct (Z.eqb_spec l 0) as [->|Hne].
    + by split.
    + split; [|by intros [= ->]].
      by destruct (PyTime.quotient_too_large r l).
  - destruct limit_ as [l|]; cbn; [|done].
    unfold used_pct_error. destruct (l =? 0); [done|].
    by destruct (PyTime.quotient_too_large r l).
Qed.

(** A fresh limiter told at 12:00:00 that nothing remains until 12:01:00. *)
Lemma upstream_report_blocks_until_reset_witness :
  let s' := (update_from_response (new_limiter default_limit_config)
               (Some 100) (Some 0) (Some 43260%Q) 43200000000).1 in
  (can_request s' 43230 43230000000 None).1 = false
  ∧ (wait_time s' 43230 43230000000).1 = Py.total_seconds 30000000.
Proof.
  intros s'.
  pose proof (upstream_report_blocks_until_reset
                (new_limiter default_limit_config) (Some 100) 0 43260
                43200000000 43230 43230000000 None ltac:(lia)) as H.
  change (fromtimestamp 43260) with (Some 43260000000) in H.
  destruct H as (H1 & H2 & _).
  split.
  - apply H1. by vm_compute.
  - apply H2; [by vm_compute|by repeat constructor].
Defined.

(** A reset time in milliseconds, taken for seconds, is no datetime: the
    call raises, the old reset time stays, and nothing is held back. *)
Example millisecond_reset_raises :
  let result := update_from_response (new_limiter default_limit_config)
                  (Some 100) (Some 0) (Some 1700000000000%Q) 0 in
  result.2 = Some TimestampOutOfRange
  ∧ reset_at (api_state result.1) = None
  ∧ (can_request result.1 0 0 None).1 = true.
Proof. by vm_compute. Qed.

(** *** Threshold warnings *)

Import RateLimitNamed.

Lemma threshold_warning_None name count limit_ threshold :
  threshold_warning name count limit_ threshold = None ↔ limit_ = 0.
Proof.
  unfold threshold_warning. destruct (limit_ =? 0) eqn:Hl.
  - apply Z.eqb_eq in Hl. by split.
  - apply Z.eqb_neq in Hl. by destruct (Py.Qleb _ _).
Qed.

Lemma threshold_warning_filter name count limit_ threshold :
  0 < limit_ →
  threshold_warning name count limit_ threshold
  = Some (List.filter (at_threshold threshold) [(name, count, limit_)]).
Proof.
  intros Hpos. unfold threshold_warning, at_threshold. cbn.
  rewrite (proj2 (Z.eqb_neq _ _)) by lia.
  assert (Hl : (0 < inject_Z limit_)%Q) by (unfold Qlt; cbn; lia).
  destruct (Py.Qleb (threshold * inject_Z limit_) (inject_Z count)) eqn:Hle.
  - apply Qleb_le in Hle.
    assert (Py.Qleb threshold (inject_Z count / inject_Z limit_) = true) as ->;
      [|done].
    apply Qleb_le. by apply Qle_shift_div_l.
  - apply Qleb_gt in Hle.
    assert (Py.Qleb threshold (inject_Z count / inject_Z limit_) = false)
      as ->; [|done].
    apply Qleb_gt. apply Qlt_shift_div_r; [done|lra].
Qed.

(** X15. [check_thresholds] ends in a division by zero exactly when one of
    the three limits is zero. With positive limits it returns, in the order
    minute, hour, day, the windows whose count has reached the warning
    threshold share of the limit; for a threshold of at most 1 these include
    every window that is full. *)
Theorem thresholds_flag_full_windows (s : RateLimiter) (now : Q) :
  let cfg := config s in
  let s' := _cleanup_old_requests s now in
  ((check_thresholds s now).1 = None
   ↔ requests_per_minute cfg = 0 ∨ requests_per_hour cfg = 0
     ∨ requests_per_day cfg = 0)
  ∧ (0 < requests_per_minute cfg → 0 < requests_per_hour cfg →
     0 < requests_per_day cfg →
     (check_thresholds s now).1
     = Some (List.filter (at_threshold (warning_threshold cfg))
                         (named_windows s'))
     ∧ ((warning_threshold cfg <= 1)%Q →
        ∀ w, w ∈ named_windows s' → w.2 ≤ w.1.2 →
             In w (List.filter (at_threshold (warning_threshold cfg))
                               (named_windows s')))).
Proof.
  intros cfg s'. split.
  - unfold check_thresholds, _get_counts. fold s'. cbn [fst].
    change (config s') with cfg.
    pose proof (threshold_warning_None Minute
                  (Z.of_nat (length (minute_requests s')))
                  (requests_per_minute cfg) (warning_threshold cfg)) as Hm.
    pose proof (threshold_warning_None Hour
                  (Z.of_nat (length (hour_requests s')))
                  (requests_per_hour cfg) (warning_threshold cfg)) as Hh.
    pose proof (threshold_warning_None Day
                  (Z.of_nat (length (day_requests s')))
                  (requests_per_day cfg) (warning_threshold cfg)) as Hd.
    destruct (threshold_warning Minute _ _ _) as [minute|];
      destruct (threshold_warning Hour _ _ _) as [hour|];
      destruct (threshold_warning Day _ _ _) as [day|];
      cbn; intuition congruence.
  - intros Hm Hh Hd. split.
    + unfold check_thresholds, _get_counts. fold s'. cbn [fst].
      change (config s') with cfg.
      rewrite !threshold_warning_filter by done. cbn [mbind option_bind].
      unfold named_windows. change (config s') with cfg.
      cbn [List.filter app].
      by repeat destruct (at_threshold _ _).
    + intros Hth [[name count] limit_] Hin Hfull. cbn in Hfull.
      apply filter_In. split; [by apply list_elem_of_In|].
      unfold at_threshold. cbn. apply Qleb_le.
      assert (0 < limit_).
      { unfold named_windows in Hin. change (config s') with cfg in Hin.
        rewrite !elem_of_cons, elem_of_nil in Hin.
        destruct Hin as [[= _ _ ->]|[[= _ _ ->]|[[= _ _ ->]|[]]]]; done. }
      assert (Hl : (0 < inject_Z limit_)%Q) by (unfold Qlt; cbn; lia).
      assert (Hc : (inject_Z limit_ <= inject_Z count)%Q)
        by (by rewrite <- Zle_Qle).
      nra.
Qed.

(** Eight requests of ten allowed a minute: the minute window is flagged. *)
Lemma thresholds_flag_full_windows_witness :
  let s := record_requests (create_rate_limiter 10 5000 50000)
             (replicate 8 (5%Q, RESERVE)) in
  (check_thresholds s 20).1 = Some [(Minute, 8, 10)]
  ∧ (check_thresholds (create_rate_limiter 0 5000 50000) 20).1 = None.
Proof.
  intros s. split.
  - destruct (thresholds_flag_full_windows s 20) as [_ H].
    destruct H as [H _]; [by vm_compute..|]. rewrite H. by vm_compute.
  - by vm_compute.
Defined.

End RateLimitMoreFacts.

(** ** More on the backoff handler *)

Module BackoffMoreFacts.
Import Backoff BackoffMore PyFacts BackoffFacts.

(** *** Bounds of the delay *)

Lemma base_backoff_nonneg cfg state error_type :
  (0 <= base_delay cfg)%Q → (0 <= timeout_multiplier cfg)%Q →
  0 ≤ error_count state →
  (0 <= base_backoff cfg state error_type)%Q.
Proof.
  intros Hbase Hmult Hcount.
  assert (Hpow : (0 <= 2 ^ Z.min (error_count state) (max_exponent cfg))%Q)
    by (by apply Qpower_0_le).
  assert (Hc : (0 <= inject_Z (error_count state))%Q)
    by (unfold Qle; cbn; lia).
  unfold base_backoff.
  destruct error_type; try (by apply Qmult_le_0_compat).
  apply Qmult_le_0_compat; [|done]. by apply Qmult_le_0_compat.
Qed.

(** X16. [calculate_delay] never returns more than the maximum delay of the
    configuration, and never a negative delay, for every error type,
    retry-after value and jitter factor that is not negative, as long as the
    base delay, the timeout multiplier and the maximum delay are not
    negative (the error count of a state never is). *)
Theorem delay_within_bounds (h : BackoffHandler) (endpoint : string)
    (error_type : ErrorType) (retry_after_seconds : option Q) (jitter : Q) :
  (0 <= base_delay (config h))%Q →
  (0 <= timeout_multiplier (config h))%Q →
  (0 <= max_delay (config h))%Q →
  (0 <= jitter)%Q →
  0 ≤ error_count (state_of h endpoint) →
  (0 <= (calculate_delay h endpoint error_type retry_after_seconds jitter).1)%Q
  ∧ ((calculate_delay h endpoint error_type retry_after_seconds jitter).1
     <= max_delay (config h))%Q.
Proof.
  intros Hbase Hmult Hmax Hjitter Hcount.
  unfold calculate_delay, state_of in *.
  pose proof (get_state_config h endpoint) as Hcfg.
  destruct (_get_state h endpoint) as [state h']. cbn in Hcfg, Hcount.
  rewrite Hcfg.
  destruct (decide (error_type = CLIENT_ERROR)); cbn [fst].
  { split; [apply Qle_refl|done]. }
  unfold positive_retry_after.
  destruct retry_after_seconds as [secs|].
  - destruct (Py.Qltb 0 secs) eqn:Hpos; cbn [fst].
    + apply Qltb_lt in Hpos. split; [|apply Q.le_min_r].
      apply Q.min_glb; [lra|done].
    + split; [|apply Q.le_min_r].
      apply Q.min_glb; [|done]. unfold _apply_jitter.
      apply Qmult_le_0_compat; [|done]. by apply base_backoff_nonneg.
  - cbn [fst]. split; [|apply Q.le_min_r].
    apply Q.min_glb; [|done]. unfold _apply_jitter.
    apply Qmult_le_0_compat; [|done]. by apply base_backoff_nonneg.
Qed.

(** Twenty timeouts with the default configuration: 1 * 2 * 20 seconds. *)
Lemma delay_within_bounds_witness :
  let h := record_errors (new_handler default_backoff_config) "posts" TIMEOUT
             (replicate 20 (None, 0, 0, 1%Q)) in
  ((calculate_delay h "posts" TIMEOUT None 1).1 <= 300)%Q
  ∧ (calculate_delay h "posts" TIMEOUT None 1).1 = 40%Q.
Proof.
  intros h. split; [|by vm_compute].
  by destruct (delay_within_bounds h "posts" TIMEOUT None 1) as [_ H];
    [by vm_compute..|].
Defined.

(** For errors other than timeouts the delay before jitter never shrinks as
    errors add up, and it stops growing at the maximum exponent. *)
Lemma base_backoff_exponential (cfg : BackoffConfig)
    (s1 s2 : BackoffState) (error_type : ErrorType) :
  error_type ≠ TIMEOUT →
  (0 <= base_delay cfg)%Q →
  error_count s1 ≤ error_count s2 →
  (base_backoff cfg s1 error_type <= base_backoff cfg s2 error_type)%Q
  ∧ (max_exponent cfg ≤ error_count s1 →
     base_backoff cfg s1 error_type
     = (base_delay cfg * 2 ^ max_exponent cfg)%Q
     ∧ base_backoff cfg s2 error_type = base_backoff cfg s1 error_type).
Proof.
  intros Hne Hbase Hle.
  assert (Hform : ∀ s, base_backoff cfg s error_type
            = (base_delay cfg
               * 2 ^ Z.min (error_count s) (max_exponent cfg))%Q)
    by (intros s; unfold base_backoff; by destruct error_type).
  rewrite !Hform. split.
  - rewrite !(Qmult_comm (base_delay cfg)).
    apply Qmult_le_compat_r; [|done].
    apply Qpower_le_compat_l; [lia|done].
  - intros Hmax. by rewrite !Z.min_r by lia.
Qed.

(** For timeouts the delay before jitter grows with the error count. *)
Lemma base_backoff_linear (cfg : BackoffConfig) (s1 s2 : BackoffState) :
  (0 <= base_delay cfg)%Q →
  (0 <= timeout_multiplier cfg)%Q →
  error_count s1 ≤ error_count s2 →
  (base_backoff cfg s1 TIMEOUT <= base_backoff cfg s2 TIMEOUT)%Q.
Proof.
  intros Hbase Hmult Hle. unfold base_backoff.
  rewrite !(Qmult_comm (base_delay cfg * timeout_multiplier cfg)).
  apply Qmult_le_compat_r; [by rewrite <- Zle_Qle|].
  by apply Qmult_le_0_compat.
Qed.

(** *** Giving up, and the state of other endpoints *)

Lemma should_retry_count h endpoint error_type :
  (should_retry h endpoint error_type).1 = true
  ↔ error_type ≠ CLIENT_ERROR
    ∧ error_count (state_of h endpoint) < max_exponent (config h).
Proof.
  unfold should_retry, state_of.
  destruct (decide (error_type = CLIENT_ERROR)) as [->|Hne]; cbn.
  { split; [done|]. by intros [? _]. }
  pose proof (get_state_config h endpoint) as Hcfg.
  destruct (_get_state h endpoint) as [state h']. cbn in *. rewrite Hcfg.
  destruct (max_exponent (config h) <=? error_count state) eqn:Hmax; cbn.
  - apply Z.leb_le in Hmax. split; [done|]. intros [_ ?]. lia.
  - apply Z.leb_gt in Hmax. by split.
Qed.

Lemma record_errors_state_of h endpoint error_type calls :
  error_count (state_of (record_errors h endpoint error_type calls) endpoint)
  = error_count (state_of h endpoint) + Z.of_nat (length calls).
Proof.
  destruct calls as [|c rest].
  - cbn. lia.
  - destruct (record_errors_count h endpoint error_type (c :: rest))
      as (state & Hstate & Hcount); [done|].
    unfold state_of at 1. by rewrite (get_state_known _ _ _ Hstate).
Qed.

(** X18. Every recorded error counts towards giving up, whatever its type:
    after [n] calls of [record_error] for an endpoint that had no errors,
    [should_retry] answers yes exactly for the error types other than client
    errors and only while [n] is below the maximum exponent. *)
Theorem retries_stop_at_max_exponent (h : BackoffHandler)
    (endpoint : string) (recorded : ErrorType) (calls : list error_call)
    (error_type : ErrorType) :
  error_count (state_of h endpoint) = 0 →
  let h' := record_errors h endpoint recorded calls in
  (should_retry h' endpoint error_type).1 = true
  ↔ error_type ≠ CLIENT_ERROR
    ∧ Z.of_nat (length calls) < max_exponent (config h).
Proof.
  intros Hzero h'. rewrite should_retry_count. unfold h'.
  rewrite record_errors_state_of, record_errors_config, Hzero.
  by rewrite Z.add_0_l.
Qed.

(** Eight client errors: the endpoint is given up for timeouts too. *)
Lemma retries_stop_at_max_exponent_witness :
  let h := record_errors (new_handler default_backoff_config) "posts"
             CLIENT_ERROR (replicate 8 (None, 0, 0, 1%Q)) in
  (should_retry h "posts" TIMEOUT).1 = false.
Proof.
  intros h. apply not_true_iff_false.
  intros H%(retries_stop_at_max_exponent (new_handler default_backoff_config)
              "posts" CLIENT_ERROR (replicate 8 (None, 0, 0, 1%Q)) TIMEOUT);
    [|reflexivity].
  destruct H as [_ H]. by vm_compute in H.
Defined.

Lemma get_state_other h endpoint other :
  other ≠ endpoint →
  endpoint_states (_get_state h endpoint).2 !! other
  = endpoint_states h !! other.
Proof.
  intros Hne. unfold _get_state.
  destruct (endpoint_states h !! endpoint); cbn; [done|].
  by rewrite lookup_insert_ne.
Qed.

Lemma run_handler_op_other h o other :
  other ≠ op_endpoint o →
  endpoint_states (run_handler_op h o) !! other = endpoint_states h !! other
  ∧ config (run_handler_op h o) = config h.
Proof.
  intros Hne. destruct o as [e et retry now1 now2 jitter|e|e et retry jitter
                            |e et|e now1 now2 jitter|e]; cbn in *.
  - split; [|apply record_error_config].
    unfold record_error.
    pose proof (get_state_other h e other Hne) as Hother.
    destruct (_get_state h e) as [state h1]. cbn in Hother.
    rewrite calculate_delay_handler, get_state_other by done.
    cbn. by rewrite lookup_insert_ne.
  - unfold record_success.
    pose proof (get_state_other h e other Hne) as Hother.
    pose proof (get_state_config h e) as Hcfg.
    destruct (_get_state h e) as [state h1]. cbn in *.
    by rewrite lookup_insert_ne.
  - rewrite calculate_delay_handler, get_state_config.
    by rewrite get_state_other.
  - unfold should_retry. destruct (decide (et = CLIENT_ERROR)); [done|].
    pose proof (get_state_other h e other Hne) as Hother.
    pose proof (get_state_config h e) as Hcfg.
    destruct (_get_state h e) as [state h1]. cbn in *.
    by destruct (max_exponent (config h1) <=? error_count state).
  - unfold get_next_allowed_time.
    pose proof (get_state_other h e other Hne) as Hother.
    pose proof (get_state_config h e) as Hcfg.
    destruct (_get_state h e) as [state h1]. cbn in Hother, Hcfg.
    destruct (match retry_after state with
              | Some at_ => if now1 <? at_ then Some at_ else None
              | None => None
              end); [done|].
    destruct (last_error_at state) as [last|]; [|done].
    pose proof (calculate_delay_handler h1 e
                  (default UNKNOWN (last_error_type state)) None jitter)
      as Hh2.
    destruct (calculate_delay h1 e _ None jitter) as [delay h2].
    cbn in Hh2. subst h2.
    assert (endpoint_states (_get_state h1 e).2 !! other
            = endpoint_states h !! other
            ∧ config (_get_state h1 e).2 = config h) as [? ?]
      by (by rewrite get_state_other, get_state_config).
    by destruct (now2 <? last + Py.timedelta_of_seconds delay).
  - unfold reset_endpoint. destruct (endpoint_states h !! e); [|done].
    cbn. by rewrite lookup_insert_ne.
Qed.

(** X19. The state of an endpoint is its own: no sequence of calls made for
    other endpoints (recording errors or successes, computing delays, asking
    whether to retry or when, resetting) changes the state kept for it, nor
    the configuration. *)
Theorem endpoints_are_independent (h : BackoffHandler)
    (ops : list handler_op) (endpoint : string) :
  Forall (λ o, op_endpoint o ≠ endpoint) ops →
  endpoint_states (foldl run_handler_op h ops) !! endpoint
  = endpoint_states h !! endpoint
  ∧ config (foldl run_handler_op h ops) = config h.
Proof.
  revert h. induction ops as [|o rest IH]; intros h Hops; [done|].
  apply Forall_cons in Hops as [Ho Hrest]. cbn.
  destruct (IH (run_handler_op h o) Hrest) as [-> ->].
  by apply run_handler_op_other.
Qed.

(** Errors and a reset for the comments endpoint, seen from the posts. *)
Lemma endpoints_are_independent_witness :
  let h := (record_error (new_handler default_backoff_config) "posts"
              SERVER_ERROR None 1 2 1).2 in
  endpoint_states
    (foldl run_handler_op h
       [HRecordError "comments" TIMEOUT None 3 4 1;
        HRecordSuccess "comments"; HResetEndpoint "comments"]) !! "posts"
  = endpoint_states h !! "posts".
Proof.
  intros h.
  by destruct (endpoints_are_independent h
                 [HRecordError "comments" TIMEOUT None 3 4 1;
                  HRecordSuccess "comments"; HResetEndpoint "comments"]
                 "posts") as [H _]; [by repeat constructor|].
Defined.

(** *** An error in a run of successes *)

(** X20. An error starts the count of successes over: whatever run of
    successes came before it, the error count it leaves (one more than
    before) stays through the next two successes and is cleared by the
    third, together with the error type and the retry-after time. *)
Theorem error_restarts_success_run (s : BackoffState)
    (error_type : ErrorType) (retry_after_seconds : option Q)
    (now1 now2 : Z) (k : nat) :
  let s' := Nat.iter k State.record_success
              (State.record_error s error_type retry_after_seconds
                 now1 now2) in
  consecutive_successes s' = Z.of_nat k
  ∧ error_count s' = (if (k <? 3)%nat then error_count s + 1 else 0)
  ∧ last_error_type s'
    = (if (k <? 3)%nat then Some error_type else None)
  ∧ retry_after s'
    = (if (k <? 3)%nat
       then (λ secs, now2 + Py.timedelta_of_seconds secs)
              <$> retry_after_seconds
       else None).
Proof.
  induction k as [|k IH]; [by destruct retry_after_seconds|].
  cbn zeta in *. rewrite Nat.iter_succ.
  destruct IH as (IHs & IHc & IHt & IHr).
  remember (Nat.iter k State.record_success _) as sk eqn:Hsk. clear Hsk.
  unfold State.record_success. rewrite IHs, IHc, IHt, IHr.
  destruct (Nat.ltb_spec (S k) 3) as [Hs|Hs],
           (Nat.ltb_spec k 3) as [Hk0|Hk0];
    destruct (Z.leb_spec 3 (Z.of_nat k + 1)) as [Hk|Hk];
    try lia; cbn; repeat split; try lia; try done.
Qed.

(** *** Retry-after, resets and status codes *)

Lemma calculate_delay_value h endpoint error_type retry jitter :
  (calculate_delay h endpoint error_type retry jitter).1
  = if decide (error_type = CLIENT_ERROR) then 0%Q
    else match positive_retry_after retry with
         | Some secs => Qmin secs (max_delay (config h))
         | None =>
             Qmin (_apply_jitter
                     (base_backoff (config h) (state_of h endpoint)
                                   error_type) jitter)
                  (max_delay (config h))
         end.
Proof.
  unfold calculate_delay, state_of.
  pose proof (get_state_config h endpoint) as Hcfg.
  destruct (_get_state h endpoint) as [state h']. cbn in *. rewrite Hcfg.
  destruct (decide (error_type = CLIENT_ERROR)); [done|].
  by destruct (positive_retry_after retry).
Qed.

Lemma record_error_state_of h endpoint error_type retry now1 now2 jitter :
  state_of (record_error h endpoint error_type retry now1 now2 jitter).2
           endpoint
  = State.record_error (state_of h endpoint) error_type retry now1 now2.
Proof.
  unfold state_of at 1.
  by rewrite (get_state_known _ _ _
                (record_error_lookup h endpoint error_type retry
                                     now1 now2 jitter)).
Qed.

Lemma record_error_value h endpoint error_type retry now1 now2 jitter :
  (record_error h endpoint error_type retry now1 now2 jitter).1
  = if decide (error_type = CLIENT_ERROR) then 0%Q
    else match positive_retry_after retry with
         | Some secs => Qmin secs (max_delay (config h))
         | None =>
             Qmin (_apply_jitter
                     (base_backoff (config h)
                        (State.record_error (state_of h endpoint) error_type
                                            retry now1 now2)
                        error_type) jitter)
                  (max_delay (config h))
         end.
Proof.
  unfold record_error, state_of.
  pose proof (get_state_config h endpoint) as Hcfg.
  destruct (_get_state h endpoint) as [state h1]. cbn in *.
  rewrite calculate_delay_value. unfold state_of.
  erewrite get_state_known; [|apply lookup_insert_eq].
  cbn. by rewrite Hcfg.
Qed.

Lemma retry_time_Some now2 secs at_ :
  retry_time now2 secs = Some at_ →
  at_ = now2 + Py.timedelta_of_seconds secs.
Proof.
  unfold retry_time, PyTime.timedelta_seconds, PyTime.datetime_add.
  destruct (PyTime.timedelta_in_range _); [|done]. cbn.
  destruct (PyTime.datetime_in_range _); [|done]. by intros [= <-].
Qed.

(** X21. A positive retry-after given with an error is kept as given, when
    the time it names is a datetime: the delay [record_error] returns is
    cut to the configured maximum (and is 0 for a client error), but until
    the retry-after time has passed [get_next_allowed_time] reports that
    time itself, beyond the maximum delay and for client errors as well.
    When the time it names is no datetime (a retry-after of some 8000
    years or more), [record_error] raises [OverflowError] and returns no
    delay; the error is counted all the same, and the retry-after time
    stored before stays. *)
Theorem retry_after_reported_unclamped (h : BackoffHandler)
    (endpoint : string) (error_type : ErrorType) (secs : Q)
    (now1 now2 : Z) (jitter : Q) (later1 later2 : Z) (jitter' : Q) :
  (0 < secs)%Q →
  let result :=
    record_error_or_raise h endpoint error_type (Some secs) now1 now2
                          jitter in
  let before := state_of h endpoint in
  let after := state_of result.2 endpoint in
  error_count after = error_count before + 1
  ∧ match retry_time now2 secs with
    | Some at_ =>
        at_ = now2 + Py.timedelta_of_seconds secs
        ∧ result.1
          = Some (if decide (error_type = CLIENT_ERROR) then 0%Q
                  else Qmin secs (max_delay (config h)))
        ∧ (later1 < at_ →
           (get_next_allowed_time result.2 endpoint later1 later2
                                  jitter').1 = Some at_)
    | None =>
        result.1 = None ∧ retry_after after = retry_after before
    end.
Proof.
  intros Hpos result before after.
  unfold after, before, result, record_error_or_raise,
    state_record_error_or_raise, state_of.
  pose proof (get_state_config h endpoint) as Hcfg.
  destruct (_get_state h endpoint) as [state h1]. cbn [fst snd] in *.
  destruct (retry_time now2 secs) as [at_|] eqn:Hretry.
  - set (state' := {| error_count := error_count state + 1;
                      last_error_at := Some now1;
                      last_error_type := Some error_type;
                      retry_after := Some at_;
                      consecutive_successes := 0 |}).
    assert (Hknown : endpoint_states (set_state h1 endpoint state')
                       !! endpoint = Some state')
      by apply lookup_insert_eq.
    pose proof (calculate_delay_value (set_state h1 endpoint state')
                  endpoint error_type (Some secs) jitter) as Hdelay.
    pose proof (calculate_delay_handler (set_state h1 endpoint state')
                  endpoint error_type (Some secs) jitter) as Hhandler.
    rewrite (get_state_known _ _ _ Hknown) in Hhandler.
    destruct (calculate_delay (set_state h1 endpoint state') endpoint
                error_type (Some secs) jitter) as [delay h3].
    cbn [fst snd] in *. subst h3.
    rewrite (get_state_known _ _ _ Hknown). cbn [fst].
    split; [done|]. split; [by apply retry_time_Some|]. split.
    + rewrite Hdelay. f_equal.
      destruct (decide (error_type = CLIENT_ERROR)); [done|].
      cbn. by rewrite (proj2 (Qltb_lt _ _) Hpos), Hcfg.
    + intros Hlater. unfold get_next_allowed_time.
      rewrite (get_state_known _ _ _ Hknown). cbn.
      by rewrite (proj2 (Z.ltb_lt _ _) Hlater).
  - cbn [fst snd]. unfold _get_state, set_state. cbn.
    by rewrite lookup_insert_eq.
Qed.

(** A rate limit answer asking for an hour: the delay is the five minutes
    of [max_delay], the next allowed time the full hour. *)
Lemma retry_after_reported_unclamped_witness :
  let result :=
    record_error_or_raise (new_handler default_backoff_config) "posts"
                          RATE_LIMITED (Some 3600%Q) 0 0 1 in
  result.1 = Some 300%Q
  ∧ (get_next_allowed_time result.2 "posts" 1000000 1000000 1).1
    = Some 3600000000.
Proof.
  intros result.
  pose proof (retry_after_reported_unclamped
                (new_handler default_backoff_config) "posts" RATE_LIMITED
                3600 0 0 1 1000000 1000000 1 eq_refl) as [_ H].
  change (retry_time 0 3600) with (Some 3600000000) in H.
  destruct H as (_ & Hdelay & Hnext).
  split; [exact Hdelay|]. by apply Hnext.
Defined.

(** A retry-after of [1e12] seconds names no datetime: the error is
    counted, no delay comes back. *)
Example huge_retry_after_raises :
  let result :=
    record_error_or_raise (new_handler default_backoff_config) "posts"
                          RATE_LIMITED (Some 1000000000000%Q)
                          1762214400000000 1762214400000000 1 in
  result.1 = None ∧ error_count (state_of result.2 "posts") = 1.
Proof. by vm_compute. Qed.

(** X22. A reset makes an endpoint new again: after [reset_endpoint] for it,
    or [reset_all], no waiting time is reported for the endpoint and the
    next error recorded for it gets the delay it would get from a handler
    just created with the same configuration. [reset_endpoint] leaves the
    other endpoints as they were, and adds no state for an endpoint that
    had none. *)
Theorem reset_makes_endpoint_new (h : BackoffHandler) (endpoint : string)
    (h' : BackoffHandler) :
  h' = reset_endpoint h endpoint ∨ h' = reset_all h →
  (∀ now1 now2 jitter,
     (get_next_allowed_time h' endpoint now1 now2 jitter).1 = None)
  ∧ (∀ error_type retry now1 now2 jitter,
       (record_error h' endpoint error_type retry now1 now2 jitter).1
       = (record_error (new_handler (config h)) endpoint error_type retry
                       now1 now2 jitter).1)
  ∧ (∀ other, other ≠ endpoint →
       endpoint_states (reset_endpoint h endpoint) !! other
       = endpoint_states h !! other)
  ∧ (endpoint_states h !! endpoint = None →
     reset_endpoint h endpoint = h).
Proof.
  intros Hreset.
  assert (state_of h' endpoint = new_state ∧ config h' = config h)
    as [Hnew Hcfg].
  { unfold state_of, _get_state.
    destruct Hreset as [-> | ->]; [|by cbn; rewrite lookup_empty].
    unfold reset_endpoint.
    destruct (endpoint_states h !! endpoint) eqn:Hs; cbn.
    - by rewrite lookup_insert_eq.
    - by rewrite Hs. }
  split; [|split; [|split]].
  - intros now1 now2 jitter. unfold get_next_allowed_time.
    unfold state_of in Hnew.
    destruct (_get_state h' endpoint) as [state h1]. cbn in Hnew.
    by subst state.
  - intros error_type retry now1 now2 jitter.
    rewrite !record_error_value, Hnew, Hcfg. unfold state_of.
    by rewrite new_handler_state.
  - intros other Hne. unfold reset_endpoint.
    destruct (endpoint_states h !! endpoint); [|done].
    cbn. by rewrite lookup_insert_ne.
  - intros Hnone. unfold reset_endpoint. by rewrite Hnone.
Qed.

(** After three server errors and a reset the posts endpoint is free. *)
Lemma reset_makes_endpoint_new_witness :
  let h := record_errors (new_handler default_backoff_config) "posts"
             SERVER_ERROR (replicate 3 (None, 0, 0, 1%Q)) in
  (get_next_allowed_time (reset_endpoint h "posts") "posts" 1 1 1).1 = None.
Proof.
  intros h.
  exact (proj1 (reset_makes_endpoint_new h "posts" (reset_endpoint h "posts")
                  (or_introl eq_refl)) 1 1 1%Q).
Defined.

(** X23. What an HTTP status means for retrying: [should_retry] refuses the
    class [classify_http_error] gives a status exactly when the status is a
    4xx other than 429 or the endpoint has used up its errors; for such a
    4xx status the delay is 0 whatever retry-after came with it. Statuses
    below 400 and from 600 on are retried like any unknown error. *)
Theorem client_statuses_never_retried (h : BackoffHandler)
    (endpoint : string) (status_code : Z) :
  let error_type := classify_http_error status_code in
  let is_client := 400 ≤ status_code < 500 ∧ status_code ≠ 429 in
  ((should_retry h endpoint error_type).1 = false
   ↔ is_client
     ∨ max_exponent (config h) ≤ error_count (state_of h endpoint))
  ∧ (is_client →
     ∀ retry jitter,
       (calculate_delay h endpoint error_type retry jitter).1 = 0%Q)
  ∧ (error_type = SERVER_ERROR ↔ 500 ≤ status_code < 600)
  ∧ (error_type = UNKNOWN ↔ status_code < 400 ∨ 600 ≤ status_code).
Proof.
  intros error_type is_client.
  assert (error_type = CLIENT_ERROR ↔ is_client) as Hclient.
  { unfold error_type, is_client, classify_http_error.
    destruct (Z.eqb_spec status_code 429) as [->|Hne]; [split; [done|lia]|].
    destruct (Z.leb_spec 400 status_code), (Z.ltb_spec status_code 500);
      cbn; try (split; [done|lia]); try (split; [lia|done]).
    all: destruct (Z.leb_spec 500 status_code), (Z.ltb_spec status_code 600);
      cbn; split; (done || lia). }
  split; [|split; [|split]].
  - rewrite <- not_true_iff_false, should_retry_count.
    fold error_type.
    destruct (decide is_client) as [Hc|Hc].
    { split; [by left|]. intros _ [Hne _]. by apply Hne, Hclient. }
    split.
    + intros Hnot. right.
      destruct (Z.le_gt_cases (max_exponent (config h))
                  (error_count (state_of h endpoint))); [done|].
      exfalso. apply Hnot. split; [|lia]. intros Heq. by apply Hc, Hclient.
    + intros [?|Hmax]; [done|]. intros [_ ?]. lia.
  - intros Hc retry jitter. rewrite calculate_delay_value.
    apply Hclient in Hc. by destruct (decide (error_type = CLIENT_ERROR)).
  - unfold error_type, classify_http_error.
    destruct (Z.eqb_spec status_code 429) as [->|Hne]; [split; [done|lia]|].
    destruct (Z.leb_spec 400 status_code), (Z.ltb_spec status_code 500);
      cbn; try (split; [done|lia]).
    all: destruct (Z.leb_spec 500 status_code), (Z.ltb_spec status_code 600);
      cbn; split; (done || lia).
  - unfold error_type, classify_http_error.
    destruct (Z.eqb_spec status_code 429) as [->|Hne]; [split; [done|lia]|].
    destruct (Z.leb_spec 400 status_code), (Z.ltb_spec status_code 500);
      cbn; try (split; [done|lia]).
    all: destruct (Z.leb_spec 500 status_code), (Z.ltb_spec status_code 600);
      cbn; split; (done || lia).
Qed.

(** *** More errors, longer delays *)

(** X17. With the same draw of jitter, the delay [calculate_delay] gives an
    endpoint never shrinks as its errors add up, for every error type; and
    for the types that back off exponentially it stops growing at the
    maximum exponent: from [max_exponent] errors on it is the smaller of
    [base_delay * 2 ^ max_exponent] times the jitter and the maximum
    delay. This is for a positive jitter, a maximum exponent from 0 to
    1023 and error counts from 0 to below [2 ^ 1023], the range in which
    [2 ** exponent] and the error count are floats: beyond it the code
    raises [OverflowError] instead of returning a delay. *)
Theorem backoff_grows_then_levels (h1 h2 : BackoffHandler)
    (endpoint : string) (error_type : ErrorType) (jitter : Q) :
  config h1 = config h2 →
  (0 <= base_delay (config h1))%Q →
  (0 <= timeout_multiplier (config h1))%Q →
  (0 < jitter)%Q →
  0 ≤ max_exponent (config h1) < 1024 →
  0 ≤ error_count (state_of h1 endpoint) →
  error_count (state_of h1 endpoint) ≤ error_count (state_of h2 endpoint) →
  error_count (state_of h2 endpoint) < 2 ^ 1023 →
  let delay1 := (calculate_delay h1 endpoint error_type None jitter).1 in
  let delay2 := (calculate_delay h2 endpoint error_type None jitter).1 in
  (delay1 <= delay2)%Q
  ∧ (error_type ≠ TIMEOUT → error_type ≠ CLIENT_ERROR →
     max_exponent (config h1) ≤ error_count (state_of h1 endpoint) →
     delay2 = delay1
     ∧ delay1
       = Qmin (base_delay (config h1) * 2 ^ max_exponent (config h1)
               * jitter)
              (max_delay (config h1))).
Proof.
  intros Hcfg Hbase Hmult Hjitter%Qlt_le_weak _ _ Hle _ delay1 delay2.
  unfold delay1, delay2. rewrite !calculate_delay_value, <- Hcfg.
  destruct (decide (error_type = CLIENT_ERROR)) as [->|Hclient];
    [split; [apply Qle_refl|done]|].
  cbn [positive_retry_after]. unfold _apply_jitter.
  split.
  - apply Q.min_le_compat_r, Qmult_le_compat_r; [|done].
    destruct (decide (error_type = TIMEOUT)) as [->|Htimeout].
    + by apply base_backoff_linear.
    + by apply base_backoff_exponential.
  - intros Htimeout _ Hmax.
    destruct (base_backoff_exponential (config h1) (state_of h1 endpoint)
                (state_of h2 endpoint) error_type Htimeout Hbase Hle)
      as [_ Hlevel].
    destruct (Hlevel Hmax) as [-> ->]. done.
Qed.

(** Eight and twelve server errors, jitter 1: the delay is 256 seconds both
    times. *)
Lemma backoff_grows_then_levels_witness :
  let h8 := mkHandler default_backoff_config
              {[ "posts" := mkState 8 None None None 0 ]} in
  let h12 := mkHandler default_backoff_config
               {[ "posts" := mkState 12 None None None 0 ]} in
  (calculate_delay h12 "posts" SERVER_ERROR None 1).1
  = (calculate_delay h8 "posts" SERVER_ERROR None 1).1.
Proof.
  intros h8 h12.
  destruct (backoff_grows_then_levels h8 h12 "posts" SERVER_ERROR 1
              eq_refl ltac:(by vm_compute) ltac:(by vm_compute)
              ltac:(by vm_compute) ltac:(by vm_compute)
              ltac:(by vm_compute) ltac:(by vm_compute)
              ltac:(by vm_compute)) as [_ H].
  exact (proj1 (H ltac:(discriminate) ltac:(discriminate)
                  ltac:(by vm_compute))).
Defined.

End BackoffMoreFacts.

(** ** scheduler.py: the activity tracker and the bounds of the interval *)

Module SchedulerMoreFacts.
Import PyFacts SchedulerFacts.

Lemma adaptive_interval_range (tr : Scheduler.ActivityTracker)
    (e : Scheduler.EndpointType) (now1 now2 now3 : Z) :
  let interval := (Scheduler._get_adaptive_interval tr e now1 now2 now3).1 in
  match Scheduler.DEFAULT_INTERVALS e with
  | Some config =>
      Scheduler.minimum config ≤ interval ≤ Scheduler.maximum config
  | None => interval = Scheduler.minutes 5
  end
  ∧ 0 < interval.
Proof.
  unfold Scheduler._get_adaptive_interval.
  destruct e; cbn [Scheduler.DEFAULT_INTERVALS];
    [| | | | |by vm_compute|by vm_compute].
  all: cbn [Scheduler.default Scheduler.minimum Scheduler.maximum].
  all: destruct (Scheduler.is_spiking tr now1 3) as [[] tr1];
    [by vm_compute|].
  all: destruct (Scheduler.is_high_activity tr1 now2 10) as [[] tr2];
    [by vm_compute|].
  all: destruct (Scheduler.is_low_activity tr2 now3 1) as [[] tr3];
    by vm_compute.
Qed.

Lemma tests_prune_samples tr now :
  (∀ m, (Scheduler.is_spiking tr now m).2
        = Scheduler._cleanup_old_samples tr now)
  ∧ (∀ th, (Scheduler.is_high_activity tr now th).2
           = Scheduler._cleanup_old_samples tr now)
  ∧ (∀ th, (Scheduler.is_low_activity tr now th).2
           = Scheduler._cleanup_old_samples tr now).
Proof.
  assert ((Scheduler.get_rate tr now).2
          = Scheduler._cleanup_old_samples tr now) as Hrate.
  { unfold Scheduler.get_rate.
    destruct (Scheduler.samples _); [done|]. by destruct (Py.Qleb _ 0). }
  split; [|split].
  - intros m. unfold Scheduler.is_spiking.
    destruct (_ <? 3)%nat; [done|]. by destruct (Py.Qleb _ 0).
  - intros th. unfold Scheduler.is_high_activity.
    by destruct (Scheduler.get_rate tr now).
  - intros th. unfold Scheduler.is_low_activity.
    by destruct (Scheduler.get_rate tr now).
Qed.

Lemma cleanup_prunes tr now :
  Scheduler.window_size (Scheduler._cleanup_old_samples tr now)
  = Scheduler.window_size tr
  ∧ Scheduler.samples (Scheduler._cleanup_old_samples tr now)
    `sublist_of` Scheduler.samples tr.
Proof. split; [done|]. apply sublist_filter. Qed.

(** X24. The adaptive interval never leaves the range configured for the
    endpoint: whatever the samples and the clock say, it lies between the
    minimum and the maximum of the endpoint's [PollingInterval]; for an
    endpoint without configuration it is five minutes. In both cases it is
    positive. Asking for it records nothing: the tracker keeps its window,
    and of its samples it can only lose some. *)
Theorem adaptive_interval_within_bounds (tr : Scheduler.ActivityTracker)
    (e : Scheduler.EndpointType) (now1 now2 now3 : Z) :
  let result := Scheduler._get_adaptive_interval tr e now1 now2 now3 in
  match Scheduler.DEFAULT_INTERVALS e with
  | Some config =>
      Scheduler.minimum config ≤ result.1 ≤ Scheduler.maximum config
  | None => result.1 = Scheduler.minutes 5
  end
  ∧ 0 < result.1
  ∧ Scheduler.window_size result.2 = Scheduler.window_size tr
  ∧ Scheduler.samples result.2 `sublist_of` Scheduler.samples tr.
Proof.
  intros result.
  destruct (adaptive_interval_range tr e now1 now2 now3) as [Hrange Hpos].
  split; [done|]. split; [done|].
  unfold result, Scheduler._get_adaptive_interval.
  destruct (Scheduler.DEFAULT_INTERVALS e) as [config|]; [|done].
  destruct (tests_prune_samples tr now1) as [Hs _].
  specialize (Hs 3%Q).
  destruct (Scheduler.is_spiking tr now1 3) as [spiking tr1].
  cbn in Hs. subst tr1.
  destruct (cleanup_prunes tr now1) as [Hw1 Hsub1].
  destruct spiking; [done|].
  destruct (tests_prune_samples (Scheduler._cleanup_old_samples tr now1)
              now2) as (_ & Hh & _).
  specialize (Hh 10%Q).
  destruct (Scheduler.is_high_activity _ now2 10) as [high tr2].
  cbn in Hh. subst tr2.
  destruct (cleanup_prunes (Scheduler._cleanup_old_samples tr now1) now2)
    as [Hw2 Hsub2].
  destruct high; [split; [done|by etrans]|].
  destruct (tests_prune_samples
              (Scheduler._cleanup_old_samples
                 (Scheduler._cleanup_old_samples tr now1) now2) now3)
    as (_ & _ & Hl).
  specialize (Hl 1%Q).
  destruct (Scheduler.is_low_activity _ now3 1) as [low tr3].
  cbn in Hl. subst tr3.
  destruct (cleanup_prunes
              (Scheduler._cleanup_old_samples
                 (Scheduler._cleanup_old_samples tr now1) now2) now3)
    as [Hw3 Hsub3].
  destruct low; (split; [done|]); (etrans; [exact Hsub3|]); by etrans.
Qed.

Lemma total_count_nonneg (l : list (Z * Z)) :
  Forall (λ sample : Z * Z, 0 ≤ sample.2) l → 0 ≤ Scheduler.total_count l.
Proof.
  induction 1 as [|sample l Hs _ IH]; [done|].
  unfold Scheduler.total_count in *. cbn. lia.
Qed.

(** X25. The rate never goes below zero when the counts do not, also when
    the clock ran backwards between samples; and a window that holds one
    sample only gives the count of that sample as the rate per minute,
    however long ago it was taken. *)
Theorem rate_of_counts (tr : Scheduler.ActivityTracker) (now : Z) :
  Forall (λ sample : Z * Z, 0 ≤ sample.2) (Scheduler.samples tr) →
  let kept := Scheduler.samples (Scheduler._cleanup_old_samples tr now) in
  let rate := (Scheduler.get_rate tr now).1 in
  (0 <= rate)%Q
  ∧ (∀ sample, kept = [sample] → rate = inject_Z sample.2)
  ∧ (kept = [] → rate = 0%Q).
Proof.
  intros Hcounts kept rate.
  assert (Forall (λ sample : Z * Z, 0 ≤ sample.2) kept) as Hkept.
  { unfold kept, Scheduler._cleanup_old_samples. cbn.
    rewrite Forall_forall in Hcounts |- *.
    intros x [_ Hx]%list_elem_of_filter. by apply Hcounts. }
  apply total_count_nonneg in Hkept.
  unfold rate, Scheduler.get_rate. cbn zeta. fold kept. clearbody kept.
  destruct kept as [|first rest]; [done|].
  split; [|split; [|done]].
  - destruct (Py.Qleb _ 0) eqn:Hspan; cbn [fst].
    + by rewrite <- (Zle_Qle 0).
    + apply Qleb_gt in Hspan. apply Qle_shift_div_l; [done|].
      by rewrite Qmult_0_l, <- (Zle_Qle 0).
  - intros sample [= -> ->].
    unfold Scheduler.span_minutes, Scheduler.total_count. cbn.
    by rewrite Z.sub_diag, Z.add_0_r.
Qed.

(** A single sample of eleven posts, taken half an hour ago, reads as
    eleven posts per minute. *)
Lemma rate_of_counts_witness :
  (Scheduler.get_rate
     {| Scheduler.window_size := Scheduler.hours 1;
        Scheduler.samples := [(0, 11)] |} (Scheduler.minutes 30)).1
  = 11%Q.
Proof.
  exact (proj1 (proj2 (rate_of_counts
           {| Scheduler.window_size := Scheduler.hours 1;
              Scheduler.samples := [(0, 11)] |} (Scheduler.minutes 30)
           ltac:(by repeat constructor))) (0, 11) eq_refl).
Defined.

(** X26. What it takes to call a spike: [is_spiking] answers yes only when
    the window holds at least three samples, the samples before the latest
    span a positive time, and the count of the latest sample exceeds ten
    times the multiplier (30 with the default of 3), the floor the baseline
    never goes under. *)
Theorem spike_needs_burst (tr : Scheduler.ActivityTracker) (now : Z)
    (multiplier : Q) :
  (0 <= multiplier)%Q →
  (Scheduler.is_spiking tr now multiplier).1 = true →
  let kept := Scheduler.samples (Scheduler._cleanup_old_samples tr now) in
  (3 ≤ length kept)%nat
  ∧ (0 < Scheduler.span_minutes (removelast kept))%Q
  ∧ (10 * multiplier < inject_Z (List.last kept (0%Z, 0%Z)).2)%Q.
Proof.
  intros Hmult Hspike kept. revert Hspike.
  unfold Scheduler.is_spiking. fold kept.
  destruct (Nat.ltb_spec (length kept) 3) as [|Hlen]; [done|].
  destruct (Py.Qleb _ 0) eqn:Hspan; [done|]. cbn.
  intros Hlt%Qltb_lt. split; [done|]. split; [by apply Qleb_gt|].
  eapply Qle_lt_trans; [|exact Hlt].
  apply Qmult_le_compat_r; [|done]. apply Q.le_max_r.
Qed.

(** Two quiet samples a minute apart and then 31 posts. *)
Lemma spike_needs_burst_witness :
  let tr := {| Scheduler.window_size := Scheduler.hours 1;
               Scheduler.samples :=
                 [(0, 1); (60000000, 1); (120000000, 31)] |} in
  (Scheduler.is_spiking tr 120000000 3).1 = true
  ∧ (10 * 3 < inject_Z 31)%Q.
Proof.
  intros tr. split; [reflexivity|].
  exact (proj2 (proj2 (spike_needs_burst tr 120000000 3
                         ltac:(by vm_compute) eq_refl))).
Defined.

(** *** Reports of polls *)

Lemma post_init_all_states s e :
  is_Some (SchedulerMore.poll_states (SchedulerMore.post_init s) !! e).
Proof.
  unfold SchedulerMore.post_init, SchedulerMore.all_endpoint_types.
  cbn [SchedulerMore.poll_states foldl].
  assert (∀ states e',
            is_Some (SchedulerMore.ensure_state states e' !! e')) as Hadd.
  { intros states e'. unfold SchedulerMore.ensure_state.
    destruct (states !! e') eqn:Hs; [by rewrite Hs|].
    by rewrite lookup_insert_eq. }
  assert (∀ states e' e'',
            is_Some (states !! e'') →
            is_Some (SchedulerMore.ensure_state states e' !! e'')) as Hkeep.
  { intros states e' e'' Hs. unfold SchedulerMore.ensure_state.
    destruct (states !! e') eqn:Hs'; [done|].
    destruct (decide (e' = e'')) as [->|Hne].
    - by rewrite lookup_insert_eq.
    - by rewrite lookup_insert_ne. }
  destruct e; repeat first [apply Hadd | apply Hkeep].
Qed.

Lemma run_reports_cons s r rs :
  SchedulerMore.run_reports s (r :: rs)
  = SchedulerMore.run_report s r ≫= λ s', SchedulerMore.run_reports s' rs.
Proof.
  unfold SchedulerMore.run_reports. cbn.
  destruct (SchedulerMore.run_report s r) as [s'|]; [done|]. cbn.
  by induction rs.
Qed.

(** One report: it goes through when all states are there, and changes the
    state of its endpoint only. *)
Lemma run_report_step s r :
  (∀ e, is_Some (SchedulerMore.poll_states s !! e)) →
  ∃ s',
    SchedulerMore.run_report s r = Some s'
    ∧ (∀ e, is_Some (SchedulerMore.poll_states s' !! e))
    ∧ ∀ e st0,
        SchedulerMore.poll_states s !! e = Some st0 →
        ∃ st,
          SchedulerMore.poll_states s' !! e = Some st
          ∧ SchedulerMore.total_posts_fetched st
            = SchedulerMore.total_posts_fetched st0
              + SchedulerMore.fetched_by e [r]
          ∧ SchedulerMore.error_count st
            = SchedulerMore.errors_since_poll e
                (SchedulerMore.error_count st0) [r].
Proof.
  intros Hall.
  destruct r as [e' posts id clock|e' error]; cbn;
    unfold SchedulerMore.record_poll_result, SchedulerMore.record_poll_error;
    destruct (Hall e') as [st' Hst']; rewrite Hst'; cbn.
  - destruct (Scheduler._get_adaptive_interval _ _ _ _ _) as [interval tr1].
    eexists. split; [done|]. cbn. split.
    + intros e. destruct (decide (e' = e)) as [->|Hne].
      * by rewrite lookup_insert_eq.
      * by rewrite lookup_insert_ne.
    + intros e st0 Hst0. unfold SchedulerMore.errors_since_poll. cbn.
      destruct (decide (e' = e)) as [->|Hne].
      * rewrite lookup_insert_eq. eexists. split; [done|]. cbn.
        rewrite Hst' in Hst0. injection Hst0 as ->. lia.
      * rewrite lookup_insert_ne by done. exists st0. split; [done|]. lia.
  - eexists. split; [done|]. cbn. split.
    + intros e. destruct (decide (e' = e)) as [->|Hne].
      * by rewrite lookup_insert_eq.
      * by rewrite lookup_insert_ne.
    + intros e st0 Hst0. unfold SchedulerMore.errors_since_poll. cbn.
      destruct (decide (e' = e)) as [->|Hne].
      * rewrite lookup_insert_eq. eexists. split; [done|]. cbn.
        rewrite Hst' in Hst0. injection Hst0 as ->. lia.
      * rewrite lookup_insert_ne by done. exists st0. split; [done|]. lia.
Qed.

Lemma run_reports_counts rs : ∀ s,
  (∀ e, is_Some (SchedulerMore.poll_states s !! e)) →
  ∃ s',
    SchedulerMore.run_reports s rs = Some s'
    ∧ ∀ e st0,
        SchedulerMore.poll_states s !! e = Some st0 →
        ∃ st,
          SchedulerMore.poll_states s' !! e = Some st
          ∧ SchedulerMore.total_posts_fetched st
            = SchedulerMore.total_posts_fetched st0
              + SchedulerMore.fetched_by e rs
          ∧ SchedulerMore.error_count st
            = SchedulerMore.errors_since_poll e
                (SchedulerMore.error_count st0) rs.
Proof.
  induction rs as [|r rs IH]; intros s Hall.
  { exists s. split; [done|]. intros e st0 Hst0. exists st0.
    split; [done|]. cbn. split; [lia|done]. }
  destruct (run_report_step s r Hall) as (s1 & Hrun & Hall1 & Hstep).
  destruct (IH s1 Hall1) as (s' & Hruns & Hrest).
  exists s'. rewrite run_reports_cons, Hrun. split; [done|].
  intros e st0 Hst0.
  destruct (Hstep e st0 Hst0) as (st1 & Hst1 & Htotal1 & Herr1).
  destruct (Hrest e st1 Hst1) as (st & Hst & Htotal & Herr).
  exists st. split; [done|]. rewrite Htotal, Htotal1, Herr, Herr1. split.
  - cbn. unfold SchedulerMore.fetched_by. cbn.
    destruct r as [e' posts id clock|e' error]; [|lia].
    destruct (decide (e' = e)); lia.
  - done.
Qed.

(** X27. A scheduler as its constructor leaves it has a state for every
    endpoint, so that no sequence of [record_poll_result] and
    [record_poll_error] raises [KeyError]; and after the sequence each
    endpoint's [total_posts_fetched] has grown by the posts its own polls
    fetched, while its [error_count] is the number of its errors since its
    last poll that went through. *)
Theorem reports_keep_count (s0 : SchedulerMore.PollingScheduler)
    (rs : list SchedulerMore.poll_report) (e : Scheduler.EndpointType) :
  let s := SchedulerMore.post_init s0 in
  ∃ s' st0 st,
    SchedulerMore.run_reports s rs = Some s'
    ∧ SchedulerMore.poll_states s !! e = Some st0
    ∧ SchedulerMore.poll_states s' !! e = Some st
    ∧ SchedulerMore.total_posts_fetched st
      = SchedulerMore.total_posts_fetched st0 + SchedulerMore.fetched_by e rs
    ∧ SchedulerMore.error_count st
      = SchedulerMore.errors_since_poll e (SchedulerMore.error_count st0) rs.
Proof.
  intros s.
  destruct (run_reports_counts rs s (post_init_all_states s0))
    as (s' & Hrun & Hcounts).
  destruct (post_init_all_states s0 e) as [st0 Hst0].
  destruct (Hcounts e st0 Hst0) as (st & Hst & Htotal & Herr).
  by exists s', st0, st.
Qed.

(** X28. A poll that went through is booked in full: [record_poll_result]
    sets the time of the poll, clears the error count and the last error,
    and schedules the next poll one adaptive interval later, an interval
    that lies within the configured range of the endpoint (five minutes
    for an endpoint without one). The cursor moves to the new last post id
    unless that is missing or empty, in which case the old cursor stays. *)
Theorem poll_result_schedules_next (s : SchedulerMore.PollingScheduler)
    (e : Scheduler.EndpointType) (posts_fetched : Z)
    (new_last_post_id : option string) (clock : SchedulerMore.poll_clock)
    (st : SchedulerMore.PollState) :
  SchedulerMore.poll_states s !! e = Some st →
  ∃ s' st' interval,
    SchedulerMore.record_poll_result s e posts_fetched new_last_post_id clock
    = Some s'
    ∧ SchedulerMore.poll_states s' !! e = Some st'
    ∧ SchedulerMore.last_poll_at st' = Some (SchedulerMore.at_poll clock)
    ∧ SchedulerMore.current_interval st' = Some interval
    ∧ SchedulerMore.next_poll_at st'
      = Some (SchedulerMore.at_poll clock + interval)
    ∧ 0 < interval
    ∧ match Scheduler.DEFAULT_INTERVALS e with
      | Some config =>
          Scheduler.minimum config ≤ interval ≤ Scheduler.maximum config
      | None => interval = Scheduler.minutes 5
      end
    ∧ SchedulerMore.error_count st' = 0
    ∧ SchedulerMore.last_error st' = None
    ∧ SchedulerMore.posts_fetched_last st' = posts_fetched
    ∧ SchedulerMore.last_post_id st'
      = match new_last_post_id with
        | Some id => if decide (id = "") then SchedulerMore.last_post_id st
                     else Some id
        | None => SchedulerMore.last_post_id st
        end.
Proof.
  intros Hst. unfold SchedulerMore.record_poll_result. rewrite Hst. cbn.
  pose proof (adaptive_interval_range (SchedulerMore.activity_tracker s) e
                (SchedulerMore.at_spiking clock) (SchedulerMore.at_high clock)
                (SchedulerMore.at_low clock)) as [Hrange Hpos].
  destruct (Scheduler._get_adaptive_interval _ _ _ _ _) as [interval tr1].
  cbn in Hrange, Hpos.
  eexists _, _, interval. split; [done|]. cbn. rewrite lookup_insert_eq.
  split; [done|]. cbn.
  assert (bool_decide (interval ≠ 0) = true) as ->
    by (apply bool_decide_eq_true; lia).
  repeat split; try done.
  destruct new_last_post_id as [id|]; [|done]. cbn.
  destruct (decide (id = "")) as [->|Hne]; [done|].
  by rewrite bool_decide_eq_true_2.
Qed.

(** A poll of the new posts that brought nothing and no cursor. *)
Lemma poll_result_schedules_next_witness :
  ∃ s' st' interval,
    SchedulerMore.record_poll_result SchedulerMore.create_scheduler
      Scheduler.NEW_POSTS 0 (Some "")
      (SchedulerMore.mkPollClock 1 2 3 4 5 6) = Some s'
    ∧ SchedulerMore.poll_states s' !! Scheduler.NEW_POSTS = Some st'
    ∧ SchedulerMore.next_poll_at st' = Some (4 + interval)
    ∧ SchedulerMore.last_post_id st' = None.
Proof.
  destruct (poll_result_schedules_next SchedulerMore.create_scheduler
              Scheduler.NEW_POSTS 0 (Some "")
              (SchedulerMore.mkPollClock 1 2 3 4 5 6)
              (SchedulerMore.new_poll_state Scheduler.NEW_POSTS)
              ltac:(by vm_compute))
    as (s' & st' & interval & Hrun & Hst & _ & _ & Hnext & _ & _ & _ & _
        & _ & Hid).
  by exists s', st', interval.
Defined.

(** *** Persistence *)

Lemma endpoint_of_value_value e :
  SchedulerMore.endpoint_of_value (SchedulerMore.value e) = Some e.
Proof. by destruct e. Qed.

Lemma endpoint_of_value_Some name e :
  SchedulerMore.endpoint_of_value name = Some e →
  SchedulerMore.value e = name.
Proof.
  unfold SchedulerMore.endpoint_of_value.
  destruct (list_find _ _) as [[i found]|] eqn:Hfind; [|done].
  cbn. intros [= <-]. by apply list_find_Some in Hfind as (_ & ? & _).
Qed.

#[local] Instance value_inj : Inj (=) (=) SchedulerMore.value.
Proof.
  intros e1 e2 Heq. apply (inj Some).
  by rewrite <- !endpoint_of_value_value, Heq.
Qed.

Section PersistenceFacts.

Variable isoformat : Z → string.
Variable fromisoformat : string → option Z.

Local Abbreviation restore_state :=
  (SchedulerMore.restore_state fromisoformat).
Local Abbreviation restore_entry :=
  (SchedulerMore.restore_entry fromisoformat).
Local Abbreviation restore_fields :=
  (SchedulerMore.restore_fields fromisoformat).
Local Abbreviation get_state_for_persistence :=
  (SchedulerMore.get_state_for_persistence isoformat).

(** One entry changes the state of the endpoint it names, if any. *)
Lemma restore_entry_lookup s name data e :
  SchedulerMore.poll_states (restore_entry s name data) !! e
  = if decide (SchedulerMore.value e = name)
    then (λ st, restore_fields st data) <$> SchedulerMore.poll_states s !! e
    else SchedulerMore.poll_states s !! e.
Proof.
  unfold SchedulerMore.restore_entry.
  destruct (decide (SchedulerMore.value e = name)) as [<-|Hne].
  - rewrite endpoint_of_value_value.
    destruct (SchedulerMore.poll_states s !! e) as [st|] eqn:Hst; cbn.
    + by rewrite lookup_insert_eq.
    + by rewrite Hst.
  - destruct (SchedulerMore.endpoint_of_value name) as [e'|] eqn:He';
      [|done].
    apply endpoint_of_value_Some in He'.
    destruct (SchedulerMore.poll_states s !! e'); [|done]. cbn.
    rewrite lookup_insert_ne; [done|]. by intros ->.
Qed.

Lemma restore_entry_tracker s name data :
  SchedulerMore.activity_tracker (restore_entry s name data)
  = SchedulerMore.activity_tracker s.
Proof.
  unfold SchedulerMore.restore_entry.
  destruct (SchedulerMore.endpoint_of_value name); [|done].
  by destruct (SchedulerMore.poll_states s !! _).
Qed.

(** The loop over items with distinct keys, seen from one endpoint. *)
Lemma restore_state_lookup items : ∀ s e,
  NoDup items.*1 →
  SchedulerMore.poll_states (restore_state s items) !! e
  = match (list_to_map items : gmap string SchedulerMore.Persisted)
            !! SchedulerMore.value e with
    | Some data =>
        (λ st, restore_fields st data) <$> SchedulerMore.poll_states s !! e
    | None => SchedulerMore.poll_states s !! e
    end.
Proof.
  induction items as [|[name data] rest IH]; intros s e Hnodup; [done|].
  apply NoDup_cons in Hnodup as [Hname Hrest]. cbn in Hname.
  unfold SchedulerMore.restore_state in *. cbn [foldl fst snd].
  rewrite IH by done. cbn [list_to_map foldr fst snd uncurry].
  rewrite restore_entry_lookup.
  destruct (decide (SchedulerMore.value e = name)) as [Heq|Hne].
  - rewrite Heq, lookup_insert_eq.
    by rewrite (not_elem_of_list_to_map_1 rest name Hname).
  - by rewrite lookup_insert_ne.
Qed.

Lemma restore_state_tracker items : ∀ s,
  SchedulerMore.activity_tracker (restore_state s items)
  = SchedulerMore.activity_tracker s.
Proof.
  induction items as [|[name data] rest IH]; intros s; [done|].
  unfold SchedulerMore.restore_state in *. cbn [foldl fst snd].
  by rewrite IH, restore_entry_tracker.
Qed.

(** X29. What is saved comes back: restoring the dict of
    [get_state_for_persistence] of one scheduler into another, in any order
    of its items, gives every endpoint that both know the saved cursor,
    error count and total, and the saved time of the last poll, when the
    texts of the saved times parse back and are not empty. An endpoint
    that was never polled keeps the time of the last poll the target had;
    the next poll time, the current interval, the last error and the size
    of the last batch are not saved and stay those of the target, as does
    its activity tracker. *)
Theorem saved_state_restores (s target : SchedulerMore.PollingScheduler)
    (items : list (string * SchedulerMore.Persisted))
    (e : Scheduler.EndpointType) (st st0 : SchedulerMore.PollState) :
  (∀ e' st' at_,
     SchedulerMore.poll_states s !! e' = Some st' →
     SchedulerMore.last_poll_at st' = Some at_ →
     fromisoformat (isoformat at_) = Some at_ ∧ isoformat at_ ≠ "") →
  items ≡ₚ map_to_list (get_state_for_persistence s) →
  SchedulerMore.poll_states s !! e = Some st →
  SchedulerMore.poll_states target !! e = Some st0 →
  SchedulerMore.poll_states (restore_state target items) !! e
  = Some {| SchedulerMore.endpoint := SchedulerMore.endpoint st0;
            SchedulerMore.last_post_id := SchedulerMore.last_post_id st;
            SchedulerMore.last_poll_at :=
              match SchedulerMore.last_poll_at st with
              | Some at_ => Some at_
              | None => SchedulerMore.last_poll_at st0
              end;
            SchedulerMore.next_poll_at := SchedulerMore.next_poll_at st0;
            SchedulerMore.current_interval :=
              SchedulerMore.current_interval st0;
            SchedulerMore.error_count := SchedulerMore.error_count st;
            SchedulerMore.last_error := SchedulerMore.last_error st0;
            SchedulerMore.posts_fetched_last :=
              SchedulerMore.posts_fetched_last st0;
            SchedulerMore.total_posts_fetched :=
              SchedulerMore.total_posts_fetched st |}
  ∧ SchedulerMore.activity_tracker (restore_state target items)
    = SchedulerMore.activity_tracker target.
Proof.
  intros Hiso Hitems Hst Hst0. split; [|apply restore_state_tracker].
  assert (NoDup items.*1) as Hnodup.
  { rewrite Hitems. apply NoDup_fst_map_to_list. }
  rewrite restore_state_lookup by done.
  rewrite (list_to_map_proper _ _ Hnodup Hitems), list_to_map_to_list.
  unfold SchedulerMore.get_state_for_persistence.
  rewrite lookup_kmap, lookup_fmap, Hst, Hst0. cbn. f_equal.
  unfold SchedulerMore.restore_fields, SchedulerMore.persist. cbn.
  2: apply value_inj.
  destruct (SchedulerMore.last_poll_at st) as [at_|] eqn:Hat; cbn; [|done].
  destruct (Hiso e st at_ Hst Hat) as [Hround Hnonempty].
  by rewrite bool_decide_eq_true_2, Hround.
Qed.

End PersistenceFacts.

(** A scheduler that polled the new posts at time 4, saved and restored
    into a new scheduler. *)
Lemma saved_state_restores_witness :
  let isoformat := λ _ : Z, "1970-01-01T00:00:00.000004+00:00" in
  let fromisoformat := λ _ : string, Some 4 in
  let s := default SchedulerMore.create_scheduler
             (SchedulerMore.record_poll_result SchedulerMore.create_scheduler
                Scheduler.NEW_POSTS 7 (Some "p7")
                (SchedulerMore.mkPollClock 1 2 3 4 5 6)) in
  ∃ st,
    SchedulerMore.poll_states
      (SchedulerMore.restore_state fromisoformat SchedulerMore.create_scheduler
         (map_to_list (SchedulerMore.get_state_for_persistence isoformat s)))
      !! Scheduler.NEW_POSTS = Some st
    ∧ SchedulerMore.last_post_id st = Some "p7"
    ∧ SchedulerMore.last_poll_at st = Some 4
    ∧ SchedulerMore.total_posts_fetched st = 7
    ∧ SchedulerMore.next_poll_at st = None.
Proof.
  intros isoformat fromisoformat s.
  assert (∀ e' st' at_,
            SchedulerMore.poll_states s !! e' = Some st' →
            SchedulerMore.last_poll_at st' = Some at_ →
            fromisoformat (isoformat at_) = Some at_ ∧ isoformat at_ ≠ "")
    as Hiso.
  { intros e' st' at_ Hst' Hat. split; [|done].
    destruct e'; vm_compute in Hst'; injection Hst' as <-;
      cbn in Hat; by try injection Hat as <-. }
  eexists. split.
  - exact (proj1 (saved_state_restores isoformat fromisoformat s
                    SchedulerMore.create_scheduler
                    (map_to_list
                       (SchedulerMore.get_state_for_persistence isoformat s))
                    Scheduler.NEW_POSTS
                    (SchedulerMore.record_poll
                       (SchedulerMore.new_poll_state Scheduler.NEW_POSTS) 7
                       (Some "p7") (Some (Scheduler.minutes 10)) 4)
                    (SchedulerMore.new_poll_state Scheduler.NEW_POSTS)
                    Hiso (reflexivity _)
                    ltac:(by vm_compute) ltac:(by vm_compute))).
  - done.
Defined.

End SchedulerMoreFacts.

(** ** robots.py: which block of directives applies *)

Module RobotsMoreFacts.
Import Robots RobotsMore.

Section WithLower.

Variable lower : string → string.

Lemma contains_empty haystack : contains "" haystack = true.
Proof. by destruct haystack. Qed.

Lemma last_filter_cons {A} (P : A → Prop) `{!∀ x, Decision (P x)} x l :
  last (filter P (x :: l))
  = match last (filter P l) with
    | Some y => Some y
    | None => if decide (P x) then Some x else None
    end.
Proof.
  rewrite filter_cons. destruct (decide (P x)); [|by destruct (last _)].
  by rewrite last_cons.
Qed.

(** The loop keeps, for each kind, the last block of the kind, or what it
    started with. *)
Lemma match_loop ua ds : ∀ found,
  let found' := foldl (match_step lower (lower ua)) found ds in
  exact_match found'
  = or_else (last_of lower Exact ua ds) (exact_match found)
  ∧ partial_match found'
    = or_else (last_of lower Partial ua ds) (partial_match found)
  ∧ wildcard_match found'
    = or_else (last_of lower Wildcard ua ds) (wildcard_match found).
Proof.
  induction ds as [|d ds IH]; intros found; [done|].
  cbn zeta in *. cbn [foldl].
  destruct (IH (match_step lower (lower ua) found d)) as (-> & -> & ->).
  unfold last_of. rewrite !last_filter_cons.
  unfold match_step, kind_of.
  destruct (decide (lower (user_agent d) = lower ua)).
  { repeat split; cbn; by destruct (last (filter _ ds)). }
  destruct (decide (lower (user_agent d) = "*")).
  { repeat split; cbn; by destruct (last (filter _ ds)). }
  destruct (contains _ _ || contains _ _).
  { repeat split; cbn; by destruct (last (filter _ ds)). }
  repeat split; cbn; by destruct (last (filter _ ds)).
Qed.

(** X30. Which block of robots.txt applies to the checker: the last block
    whose agent is the checker's name (case aside); failing that the last
    block whose agent contains the name or is contained in it, an empty
    agent included; failing that the last block for [*]; none otherwise.
    So the rules of a [*] block are not consulted when a block names the
    checker, and without any fitting block, as without a cache entry, every
    path is allowed. *)
Theorem matching_block_priority (ua : string) (ds : list RobotsDirectives) :
  _find_matching_directives lower ua ds
  = or_else (last_of lower Exact ua ds)
      (or_else (last_of lower Partial ua ds) (last_of lower Wildcard ua ds))
  ∧ (∀ d p, last_of lower Exact ua ds = Some d →
            is_allowed_by_entry lower ua (Some ds) p = is_allowed d p)
  ∧ (∀ p, Forall (λ d, kind_of lower ua d = NoMatch) ds →
          is_allowed_by_entry lower ua (Some ds) p = true)
  ∧ (∀ d, d ∈ ds → lower (user_agent d) = "" →
          is_Some (_find_matching_directives lower ua ds)).
Proof.
  assert (_find_matching_directives lower ua ds
          = or_else (last_of lower Exact ua ds)
              (or_else (last_of lower Partial ua ds)
                       (last_of lower Wildcard ua ds))) as Hfind.
  { unfold _find_matching_directives.
    destruct (match_loop ua ds (mkMatches None None None)) as (-> & -> & ->).
    cbn. by destruct (last_of lower Exact ua ds),
                     (last_of lower Partial ua ds),
                     (last_of lower Wildcard ua ds). }
  split; [done|]. split; [|split].
  - intros d p Hexact. unfold is_allowed_by_entry.
    by rewrite Hfind, Hexact.
  - intros p Hnone. unfold is_allowed_by_entry. rewrite Hfind.
    assert (∀ kind, kind ≠ NoMatch → last_of lower kind ua ds = None)
      as Hlast.
    { intros kind Hkind. unfold last_of. clear Hfind.
      assert (filter (λ d, kind_of lower ua d = kind) ds = []) as ->; [|done].
      induction Hnone as [|d ds' Hd _ IH]; [done|].
      rewrite filter_cons_False; [done|congruence]. }
    by rewrite !Hlast.
  - intros d Hd Hempty. rewrite Hfind.
    assert (kind_of lower ua d = Exact ∨ kind_of lower ua d = Partial)
      as Hkind.
    { unfold kind_of. rewrite Hempty.
      destruct (decide ("" = lower ua)); [by left|].
      destruct (decide ("" = "*")); [done|].
      rewrite contains_empty. by right. }
    assert (∀ kind, kind_of lower ua d = kind →
                    is_Some (last_of lower kind ua ds)) as Hlast.
    { intros kind Hk. unfold last_of.
      assert (d ∈ filter (λ d, kind_of lower ua d = kind) ds) as Hin
        by (by apply list_elem_of_filter).
      destruct (filter _ ds) as [|x l] eqn:Hf using rev_ind.
      - by apply elem_of_nil in Hin.
      - rewrite last_snoc. done. }
    destruct Hkind as [Hk|Hk]; apply Hlast in Hk as [d' Hd'].
    + by rewrite Hd'.
    + rewrite Hd'. by destruct (last_of lower Exact ua ds).
Qed.

End WithLower.

End RobotsMoreFacts.
